(** * hatetracker: the TextRank batch pipeline ([hatetracker/textrank.py])

    A shallow embedding of [get_phrases], [batch_files],
    [batched_file_process_iter] and [text_rank], with the Python builtins
    ([range], list slicing), the [pathlib] operations and the file system
    they run on, and the properties of the orchestration proved about
    them.

    - Integers are [Z]; a [None] argument is [None] of an option.
    - The spaCy pipeline and the text [csv.DictWriter] writes are
      parameters.
    - The file system is an association list from paths to entries, in
      listing order; a run threads it and returns it together with the
      events it emitted and how it ended.
    - A generator is a state with a [next] function, since [text_rank]
      writes between two pulls of [batched_file_process_iter].
    - [text_rank] calls itself on subdirectories that its own run may have
      created; its depth is bounded by a fuel argument. *)

From Stdlib Require Import String Ascii List ZArith Bool Arith Lia.
Import ListNotations.

Local Open Scope Z_scope.

(* ================================================================== *)
(** ** Python builtins used by the source *)

Module Py.

(** Python exceptions the program can raise.  [ValueError] is the one
    [range] raises for a zero step; the others are the [OSError]s of the
    file system calls, carrying the path they were raised for.  The program
    catches none of them.  The [UnicodeDecodeError] of reading a file that
    is not text is not among them: the files of the model hold text. *)
Inductive exn :=
| ValueError
| FileNotFoundError (p : list string)
| IsADirectoryError (p : list string)
| NotADirectoryError (p : list string)
| FileExistsError (p : list string).

Inductive result (A : Type) :=
| Ok (a : A)
| Err (e : exn).
Arguments Ok {A} a.
Arguments Err {A} e.

(** Number of elements of [range(lo, hi, step)] for a non-zero step
    (CPython's [compute_range_length]). *)
Definition range_len (lo hi step : Z) : nat :=
  if (0 <? step) && (lo <? hi) then Z.to_nat (1 + (hi - 1 - lo) / step)
  else if (step <? 0) && (hi <? lo) then Z.to_nat (1 + (lo - 1 - hi) / (0 - step))
  else 0%nat.

(** [range(lo, hi, step)]: [None] stands for the [ValueError] that a zero
    step raises. *)
Definition range (lo hi step : Z) : option (list Z) :=
  if step =? 0 then None
  else Some (map (fun k => lo + Z.of_nat k * step) (seq 0 (range_len lo hi step))).

(** A slice bound as Python normalises it: a negative index counts from
    the end, and the result is clamped to [0, len]. *)
Definition clamp (len i : Z) : Z :=
  if i <? 0 then Z.max (i + len) 0 else Z.min i len.

(** [l[lo:hi]]. *)
Definition slice {A} (l : list A) (lo hi : Z) : list A :=
  let len := Z.of_nat (length l) in
  let lo' := clamp len lo in
  let hi' := clamp len hi in
  firstn (Z.to_nat (hi' - lo')) (skipn (Z.to_nat lo') l).

End Py.
Import Py.

(* ================================================================== *)
(** ** Phrases and [get_phrases] *)

Section Phrases.

(** [rank] is a Python float that the program only copies; its type is
    left abstract. *)
Variable Rank : Type.

(** A phrase object of [doc._.phrases]. *)
Record TRPhrase := { ph_text : string; ph_rank : Rank; ph_count : Z }.

(** The dictionary [{"text": .., "rank": .., "count": ..}]. *)
Record Phrase := { text : string; rank : Rank; count : Z }.

Definition PhraseList := list Phrase.

Definition to_dict (phrase : TRPhrase) : Phrase :=
  {| text := ph_text phrase; rank := ph_rank phrase; count := ph_count phrase |}.

(** The spaCy pipeline with the TextRank component: [nlp text] is
    [doc._.phrases] of the document made from [text]; [nlp.pipe] yields
    one document per text, in order. *)
Variable nlp : string -> list TRPhrase.

Definition nlp_pipe (texts : list string) : list (list TRPhrase) := map nlp texts.

(** [limit is not None and len(curr_phrases) >= limit] *)
Definition limit_reached (limit : option Z) (curr_phrases : PhraseList) : bool :=
  match limit with
  | None => false
  | Some k => k <=? Z.of_nat (length curr_phrases)
  end.

(** The inner loop of [get_phrases]: append, then test the limit. *)
Fixpoint take_phrases (limit : option Z) (phrases : list TRPhrase)
         (curr_phrases : PhraseList) : PhraseList :=
  match phrases with
  | [] => curr_phrases
  | phrase :: rest =>
      let curr_phrases := curr_phrases ++ [to_dict phrase] in
      if limit_reached limit curr_phrases then curr_phrases
      else take_phrases limit rest curr_phrases
  end.

Definition get_phrases (text : list string) (limit : option Z) : list PhraseList :=
  map (fun doc => take_phrases limit doc []) (nlp_pipe text).

End Phrases.

Arguments ph_text {Rank} _.
Arguments ph_rank {Rank} _.
Arguments ph_count {Rank} _.
Arguments to_dict {Rank} _.
Arguments limit_reached {Rank} _ _.
Arguments take_phrases {Rank} _ _ _.
Arguments get_phrases {Rank} _ _ _.

(* ================================================================== *)
(** ** [batch_files] *)

(** The batches [batch_files] yields, or the [ValueError] of
    [range(0, len(iterable), 0)].  Slicing is pure and [iterable] is not
    mutated while the generator runs, so the list of slices is the sequence
    of its yields. *)
Definition batch_files {A} (iterable : list A) (batch_size : Z) : result (list (list A)) :=
  match range 0 (Z.of_nat (length iterable)) batch_size with
  | None => Err ValueError
  | Some starts => Ok (map (fun i => slice iterable i (i + batch_size)) starts)
  end.

(* ================================================================== *)
(** ** [pathlib] *)

Module PathLib.

(** A path is the list of its components ([PurePath.parts]), relative
    to the working directory. *)
Definition path := list string.

Definition path_eq_dec : forall p q : path, {p = q} + {p <> q} :=
  list_eq_dec string_dec.

Definition path_eqb (p q : path) : bool :=
  if path_eq_dec p q then true else false.

(** [p / name] *)
Definition joinpath (p : path) (name : string) : path := p ++ [name].

(** [p.name] *)
Definition name (p : path) : string := last p EmptyString.

(** [p.parent] *)
Definition parent (p : path) : path := removelast p.

(** [str(p)] *)
Definition path_str (p : path) : string :=
  match p with
  | [] => "."%string
  | _ => String.concat "/" p
  end.

(** [name.rfind('.')] *)
Fixpoint rfind_dot (s : string) : option nat :=
  match s with
  | EmptyString => None
  | String c s' =>
      match rfind_dot s' with
      | Some i => Some (S i)
      | None => if Ascii.eqb c "."%char then Some 0%nat else None
      end
  end.

(** [PurePath.suffix] of a file name: the part from the last dot on,
    when that dot is neither the first nor the last character. *)
Definition suffix (nm : string) : string :=
  match rfind_dot nm with
  | Some i =>
      if (0 <? i)%nat && (i <? String.length nm - 1)%nat
      then substring i (String.length nm - i) nm
      else EmptyString
  | None => EmptyString
  end.

(** The name with its suffix replaced ([PurePath.with_suffix] on the
    last component). *)
Definition name_with_suffix (nm sfx : string) : string :=
  let old_suffix := suffix nm in
  (substring 0 (String.length nm - String.length old_suffix) nm ++ sfx)%string.

(** [p.with_suffix(sfx)], for a path with a name (Python raises
    [ValueError] on an empty name; the program calls it on
    [output_path / name] only). *)
Definition with_suffix (p : path) (sfx : string) : path :=
  match p with
  | [] => []
  | _ => parent p ++ [name_with_suffix (name p) sfx]
  end.

End PathLib.
Import PathLib.

(* ================================================================== *)
(** ** The file system *)

Module FS.

Inductive entry :=
| File (content : string)
| Dir.

(** The entries in the order a directory listing returns them; the
    working directory itself is the entry at path [[]].  A new entry is
    listed after the existing ones. *)
Definition fs := list (path * entry).

Fixpoint lookup (s : fs) (p : path) : option entry :=
  match s with
  | [] => None
  | (q, e) :: s' => if path_eqb q p then Some e else lookup s' p
  end.

(** Replace the entry at [p], or add it. *)
Fixpoint put (s : fs) (p : path) (e : entry) : fs :=
  match s with
  | [] => [(p, e)]
  | (q, e') :: s' => if path_eqb q p then (q, e) :: s' else (q, e') :: put s' p e
  end.

(** [p.is_file()] *)
Definition is_file (s : fs) (p : path) : bool :=
  match lookup s p with
  | Some (File _) => true
  | _ => false
  end.

(** [p.is_dir()] *)
Definition is_dir (s : fs) (p : path) : bool :=
  match lookup s p with
  | Some Dir => true
  | _ => false
  end.

(** The paths directly below [p], in listing order. *)
Definition children (s : fs) (p : path) : list path :=
  filter (fun q => match q with [] => false | _ => path_eqb (parent q) p end)
         (map fst s).

(** The proper ancestors of [p], from the working directory down. *)
Fixpoint ancestors_from (above below : path) : list path :=
  match below with
  | [] => []
  | c :: below' => above :: ancestors_from (above ++ [c]) below'
  end.

Definition ancestors (p : path) : list path := ancestors_from [] p.

(** The error of a system call on a path that has no entry.  The walk
    down to the path stops at the first ancestor that is not a directory:
    [NotADirectoryError] when that ancestor is a regular file,
    [FileNotFoundError] when it is missing, as when every ancestor is a
    directory and only the path itself is missing.  The exception names
    the path of the call. *)
Definition missing_error (s : fs) (p : path) : exn :=
  match find (fun q => negb (is_dir s q)) (ancestors p) with
  | Some q => if is_file s q then NotADirectoryError p else FileNotFoundError p
  | None => FileNotFoundError p
  end.

(** [p.iterdir()] *)
Definition iterdir (s : fs) (p : path) : result (list path) :=
  match lookup s p with
  | Some Dir => Ok (children s p)
  | Some (File _) => Err (NotADirectoryError p)
  | None => Err (missing_error s p)
  end.

(** [p.mkdir(exist_ok=True)] *)
Definition mkdir (s : fs) (p : path) : result fs :=
  match lookup s p with
  | Some Dir => Ok s
  | Some (File _) => Err (FileExistsError p)
  | None => if is_dir s (parent p) then Ok (put s p Dir)
            else Err (missing_error s p)
  end.

(** [open(p).read()].  The content of a [File] entry is its text, as
    reading in text mode returns it and writing in text mode stores it; a
    regular file whose bytes are not text in the encoding in use has no
    entry of this model. *)
Definition open_read (s : fs) (p : path) : result string :=
  match lookup s p with
  | Some (File content) => Ok content
  | Some Dir => Err (IsADirectoryError p)
  | None => Err (missing_error s p)
  end.

(** [open(p, "w")] followed by writing [data]: the file is created or
    its content replaced. *)
Definition open_write (s : fs) (p : path) (data : string) : result fs :=
  match lookup s p with
  | Some Dir => Err (IsADirectoryError p)
  | Some (File _) => Ok (put s p (File data))
  | None => if is_dir s (parent p) then Ok (put s p (File data))
            else Err (missing_error s p)
  end.

End FS.
Import FS.

(* ================================================================== *)
(** ** [batched_file_process_iter] and [text_rank] *)

(** What a run does to the outside, in the order it does it: opening a
    file for reading (whether or not that succeeds), a [warnings.warn]
    call with its message (what the warning filters then show is not
    modelled), and writing an output file. *)
Inductive event :=
| EvRead (p : path)
| EvWarn (msg : string)
| EvWrite (p : path) (data : string).

Inductive outcome :=
| Done
| Raised (e : exn)
| OutOfFuel.

Section Pipeline.

Variable Rank : Type.
Variable nlp : string -> list (TRPhrase Rank).

(** The text [csv.DictWriter] produces for a phrase list: the header row
    of [phrases[0].keys()] and one row per phrase. *)
Variable csv_text : PhraseList Rank -> string.

(** [for file in batch: with open(file) as f: texts.append(f.read())] *)
Fixpoint read_batch (s : fs) (batch : list path) : list event * result (list string) :=
  match batch with
  | [] => ([], Ok [])
  | file :: rest =>
      match open_read s file with
      | Err e => ([EvRead file], Err e)
      | Ok content =>
          let (evs, r) := read_batch s rest in
          (EvRead file :: evs,
           match r with
           | Ok texts => Ok (content :: texts)
           | Err e => Err e
           end)
      end
  end.

(** All the phrase lists the generator yields when it is run to its end
    on an unchanging file system, what it read, and how it ended. *)
Fixpoint run_batches (s : fs) (limit : option Z) (batches : list (list path))
  : list event * list (PhraseList Rank) * outcome :=
  match batches with
  | [] => ([], [], Done)
  | batch :: batches' =>
      match read_batch s batch with
      | (evs, Err e) => (evs, [], Raised e)
      | (evs, Ok texts) =>
          let '(evs', yielded, o) := run_batches s limit batches' in
          (evs ++ evs', get_phrases nlp texts limit ++ yielded, o)
      end
  end.

Definition effective_batch_size (file_paths : list path) (batch_size : option Z) : Z :=
  match batch_size with
  | None => Z.of_nat (length file_paths)
  | Some b => b
  end.

Definition batched_file_process_iter (s : fs) (file_paths : list path)
           (batch_size : option Z) (limit : option Z)
  : list event * list (PhraseList Rank) * outcome :=
  match batch_files file_paths (effective_batch_size file_paths batch_size) with
  | Err e => ([], [], Raised e)
  | Ok batches => run_batches s limit batches
  end.

(** The phrase list of one file: [get_phrases] on its content. *)
Definition file_phrases (s : fs) (limit : option Z) (file : path) : PhraseList Rank :=
  match open_read s file with
  | Ok content => take_phrases limit (nlp content) []
  | Err _ => []
  end.

(** *** The generator as [text_rank] consumes it

    [zip] pulls one phrase list at a time and [text_rank] writes between
    two pulls, so the generator is also given as a resumable state
    machine: not started yet, or suspended at its [yield] with the phrase
    lists of the current batch still to yield and the batches still to
    read. *)
Inductive gen_state :=
| GStart (file_paths : list path) (batch_size : option Z)
| GRun (pending : list (PhraseList Rank)) (batches : list (list path)).

Inductive pull :=
| Yield (phrase_list : PhraseList Rank) (g : gen_state)
| Stop
| Raise (e : exn).

Fixpoint resume (s : fs) (limit : option Z) (pending : list (PhraseList Rank))
         (batches : list (list path)) {struct batches} : list event * pull :=
  match pending with
  | phrase_list :: pending' => ([], Yield phrase_list (GRun pending' batches))
  | [] =>
      match batches with
      | [] => ([], Stop)
      | batch :: batches' =>
          match read_batch s batch with
          | (evs, Err e) => (evs, Raise e)
          | (evs, Ok texts) =>
              let (evs', r) := resume s limit (get_phrases nlp texts limit) batches' in
              (evs ++ evs', r)
          end
      end
  end.

(** [next(generator)] *)
Definition gen_next (s : fs) (limit : option Z) (g : gen_state) : list event * pull :=
  match g with
  | GStart file_paths batch_size =>
      match batch_files file_paths (effective_batch_size file_paths batch_size) with
      | Err e => ([], Raise e)
      | Ok batches => resume s limit [] batches
      end
  | GRun pending batches => resume s limit pending batches
  end.

(** What a suspended generator still has to yield when it is run to its
    end. *)
Definition gen_rest (s : fs) (limit : option Z) (g : gen_state)
  : list event * list (PhraseList Rank) * outcome :=
  match g with
  | GStart file_paths batch_size => batched_file_process_iter s file_paths batch_size limit
  | GRun pending batches =>
      let '(evs, yielded, o) := run_batches s limit batches in
      (evs, pending ++ yielded, o)
  end.

(** The files a generator may still open. *)
Definition gen_files (g : gen_state) : list path :=
  match g with
  | GStart file_paths _ => file_paths
  | GRun _ batches => concat batches
  end.

(** *** [text_rank] *)

Definition empty_warning (output_path : path) : string :=
  ("No phrases found in file: " ++ path_str output_path ++ ", skipping")%string.

Definition exists_warning (output_path : path) : string :=
  ("File " ++ path_str output_path ++ " already exists, skipping")%string.

Definition curr_output_path (write_to_output_path : bool) (output_path file_path : path)
  : path :=
  if write_to_output_path then output_path
  else with_suffix (joinpath output_path (name file_path)) ".csv".

Definition run := (fs * list event * outcome)%type.

(** The loop over [zip(input_files, batched_file_process_iter(..))]:
    [zip] asks [input_files] first and stops without touching the
    generator when it is exhausted. *)
Fixpoint process_files (s : fs) (write_to_output_path : bool) (output_path : path)
         (limit : option Z) (input_files : list path) (g : gen_state) : run :=
  match input_files with
  | [] => (s, [], Done)
  | file_path :: rest =>
      match gen_next s limit g with
      | (evs, Raise e) => (s, evs, Raised e)
      | (evs, Stop) => (s, evs, Done)
      | (evs, Yield phrases g') =>
          let dest := curr_output_path write_to_output_path output_path file_path in
          match phrases with
          | [] =>
              let '(s', evs', o) :=
                process_files s write_to_output_path output_path limit rest g' in
              (s', evs ++ EvWarn (empty_warning output_path) :: evs', o)
          | _ :: _ =>
              let warned :=
                if is_file s dest then [EvWarn (exists_warning output_path)] else [] in
              match open_write s dest (csv_text phrases) with
              | Err e => (s, evs ++ warned, Raised e)
              | Ok s1 =>
                  let '(s', evs', o) :=
                    process_files s1 write_to_output_path output_path limit rest g' in
                  (s', evs ++ warned ++ EvWrite dest (csv_text phrases) :: evs', o)
              end
          end
      end
  end.

(** [[curr_file for curr_file in listing
      if curr_file.suffix == input_file_suffix]] *)
Definition matching_suffix (input_file_suffix : string) (listing : list path) : list path :=
  filter (fun curr_file => String.eqb (suffix (name curr_file)) input_file_suffix) listing.

(** The first part of [text_rank]: the files to process, whether the
    output path is the output file itself, and the file system after
    [output_path.mkdir(exist_ok=True)]. *)
Definition select_inputs (s : fs) (input_path output_path : path)
           (input_file_suffix : string) : result (fs * list path * bool) :=
  if is_file s input_path then Ok (s, [input_path], true)
  else
    match iterdir s input_path with
    | Err e => Err e
    | Ok listing =>
        let input_files := matching_suffix input_file_suffix listing in
        match mkdir s output_path with
        | Err e => Err e
        | Ok s' => Ok (s', input_files, false)
        end
    end.

(** [text_rank] up to its [if not recursive or write_to_output_path]. *)
Definition own_files (s : fs) (input_path output_path : path) (input_file_suffix : string)
           (phrase_limit file_batch_size : option Z) : run * bool :=
  match select_inputs s input_path output_path input_file_suffix with
  | Err e => ((s, [], Raised e), false)
  | Ok (s0, input_files, write_to_output_path) =>
      (process_files s0 write_to_output_path output_path phrase_limit input_files
                     (GStart input_files file_batch_size),
       write_to_output_path)
  end.

(** The loop [for next_dir in input_path.iterdir()], with the recursive
    call as [call]. *)
Fixpoint visit_dirs (call : fs -> path -> path -> run) (s : fs) (output_path : path)
         (listing : list path) : run :=
  match listing with
  | [] => (s, [], Done)
  | next_dir :: rest =>
      if negb (is_dir s next_dir) then visit_dirs call s output_path rest
      else
        match call s next_dir (joinpath output_path (name next_dir)) with
        | (s', evs, Done) =>
            let '(s'', evs', o) := visit_dirs call s' output_path rest in
            (s'', evs ++ evs', o)
        | failed => failed
        end
  end.

(** [text_rank]; [fuel] bounds the depth of the recursion. *)
Fixpoint text_rank (fuel : nat) (s : fs) (input_path output_path : path)
         (recursive : bool) (input_file_suffix : string)
         (phrase_limit file_batch_size : option Z) : run :=
  match fuel with
  | O => (s, [], OutOfFuel)
  | S fuel' =>
      match own_files s input_path output_path input_file_suffix
                      phrase_limit file_batch_size with
      | ((s1, evs, Done), write_to_output_path) =>
          if negb recursive || write_to_output_path then (s1, evs, Done)
          else
            match iterdir s1 input_path with
            | Err e => (s1, evs, Raised e)
            | Ok listing =>
                let '(s2, evs', o) :=
                  visit_dirs
                    (fun s' next_dir out' =>
                       text_rank fuel' s' next_dir out' true input_file_suffix
                                 phrase_limit file_batch_size)
                    s1 output_path listing in
                (s2, evs ++ evs', o)
            end
      | (failed, _) => failed
      end
  end.

End Pipeline.

Arguments GStart {Rank} _ _.
Arguments GRun {Rank} _ _.
Arguments Yield {Rank} _ _.
Arguments Stop {Rank}.
Arguments Raise {Rank} _.
Arguments gen_files {Rank} _.

(** ** A small concrete instance, for the examples *)

Module Sample.

(** A stand-in extractor: one phrase per character of the text. *)
Fixpoint letters (t : string) : list (TRPhrase unit) :=
  match t with
  | EmptyString => []
  | String c t' => {| ph_text := String c EmptyString; ph_rank := tt; ph_count := 1 |}
                     :: letters t'
  end.

Definition csv (pl : PhraseList unit) : string :=
  String.concat "," (map (@text unit) pl).

Definition docs : fs :=
  [ ([], Dir);
    (["docs"%string], Dir);
    (["docs"; "a.txt"]%string, File "ab");
    (["docs"; "b.txt"]%string, File "");
    (["docs"; "sub"]%string, Dir);
    (["docs"; "sub"; "c.txt"]%string, File "c");
    (["docs"; "notes.md"]%string, File "zz") ].

Definition texts : list path := [["docs"; "a.txt"]; ["docs"; "b.txt"]]%string.

(** A directory whose two text files yield no phrase. *)
Definition blanks : fs :=
  [ ([], Dir);
    (["in"%string], Dir);
    (["in"; "a.txt"]%string, File "");
    (["in"; "b.txt"]%string, File "") ].

(** A directory with a subdirectory named like a text file. *)
Definition odd : fs :=
  [ ([], Dir);
    (["in"%string], Dir);
    (["in"; "a.txt"]%string, File "a");
    (["in"; "b.txt"]%string, Dir) ].


(** A directory processed in place, its file having the suffix of the
    output files. *)
Definition in_place : fs :=
  [ ([], Dir);
    (["d"%string], Dir);
    (["d"; "a.csv"]%string, File "ab") ].

(** [docs] with an output file already there. *)
Definition with_output : fs := docs ++ [(["out.csv"%string], File "old")].

(** A recursive run over [docs] into [out]. *)
Definition first_run : fs * list event * outcome :=
  Eval vm_compute in
    text_rank unit letters csv 3 docs ["docs"%string] ["out"%string] true ".txt" None None.

(** [docs] after its own text files are processed into [out]. *)
Definition own_run : fs * list event * outcome * bool :=
  Eval vm_compute in
    own_files unit letters csv docs ["docs"%string] ["out"%string] ".txt" None None.

End Sample.


(* ================================================================== *)
(** ** Vocabulary of the properties *)

(** [p] is [q] or an ancestor of [q]. *)
Fixpoint is_prefix (p q : path) : bool :=
  match p, q with
  | [], _ => true
  | _ :: _, [] => false
  | a :: p', b :: q' => String.eqb a b && is_prefix p' q'
  end.

(** Neither path lies in the tree of the other. *)
Definition separated (p q : path) : bool :=
  negb (is_prefix p q) && negb (is_prefix q p).

(** The two file systems hold the same entry at every path. *)
Definition same_content (s s' : fs) : Prop :=
  forall p, lookup s p = lookup s' p.

(** What is a file stays a file and what is a directory stays one. *)
Definition kinds_kept (s s' : fs) : Prop :=
  forall p, (is_file s p = true -> is_file s' p = true)
            /\ (is_dir s p = true -> is_dir s' p = true).

(** The two file systems have the same tree at [root]. *)
Definition agree_below (root : path) (s s' : fs) : Prop :=
  forall p, is_prefix root p = true ->
            lookup s p = lookup s' p /\ children s p = children s' p.

Definition same_kind (e e' : entry) : bool :=
  match e, e' with
  | File _, File _ => true
  | Dir, Dir => true
  | _, _ => false
  end.

(** [s'] comes from [s] by creating or replacing entries at or below
    [root], never turning a file into a directory or back. *)
Inductive writes_below (root : path) : fs -> fs -> Prop :=
| wb_same (s : fs) : writes_below root s s
| wb_put (s s' : fs) (q : path) (e : entry) :
    writes_below root s s' ->
    is_prefix root q = true ->
    match lookup s' q with
    | None => True
    | Some e' => same_kind e' e = true
    end ->
    writes_below root s (put s' q e).

(** Run against run: at every path, either both runs left the entry as
    it was, or they left the same entry. *)
Definition tracks (sA sA' sB sB' : fs) : Prop :=
  forall p, (lookup sB' p = lookup sB p /\ lookup sA' p = lookup sA p)
            \/ lookup sB' p = lookup sA' p.

(** A read at or below [input_path], a write at or below [output_path],
    or a warning. *)
Definition event_within (input_path output_path : path) (ev : event) : bool :=
  match ev with
  | EvRead p => is_prefix input_path p
  | EvWrite p _ => is_prefix output_path p
  | EvWarn _ => true
  end.

(** What the loop of [text_rank] does with the phrase list of one file:
    nothing when it is empty, else the output file is written. *)
Definition write_phrases {Rank : Type} (csv_text : PhraseList Rank -> string)
           (s : fs) (dest : path) (phrases : PhraseList Rank) : fs :=
  match phrases with
  | [] => s
  | _ :: _ => put s dest (File (csv_text phrases))
  end.

(** The output files of a directory, written one input file after the
    other from the phrases of the files as [s] has them. *)
Definition write_all {Rank : Type} (nlp : string -> list (TRPhrase Rank))
           (csv_text : PhraseList Rank -> string) (s : fs) (limit : option Z)
           (output_path : path) (input_files : list path) (s0 : fs) : fs :=
  fold_left
    (fun st file_path =>
       write_phrases csv_text st (curr_output_path false output_path file_path)
                     (file_phrases Rank nlp s limit file_path))
    input_files s0.

(** How deep the tree at [root] goes: the longest path at or below [root],
    counted from [root]. *)
Definition depth_below (s : fs) (root : path) : nat :=
  list_max (map (fun q => (length q - length root)%nat)
                (filter (is_prefix root) (map fst s))).

(** The files a run opened, the files it wrote with their text, and its
    warnings, each in the order of the events. *)
Definition reads_of (evs : list event) : list path :=
  flat_map (fun ev => match ev with EvRead p => [p] | _ => [] end) evs.

Definition writes_of (evs : list event) : list (path * string) :=
  flat_map (fun ev => match ev with EvWrite p data => [(p, data)] | _ => [] end) evs.

Definition warnings_of (evs : list event) : list string :=
  flat_map (fun ev => match ev with EvWarn msg => [msg] | _ => [] end) evs.

(** The write the loop of [text_rank] makes for one file of a directory,
    and the warning it gives for it on a file system [st]. *)
Definition written_for {Rank : Type} (nlp : string -> list (TRPhrase Rank))
           (csv_text : PhraseList Rank -> string) (s : fs) (limit : option Z)
           (output_path file_path : path) : list (path * string) :=
  match file_phrases Rank nlp s limit file_path with
  | [] => []
  | phrase :: phrases =>
      [(curr_output_path false output_path file_path, csv_text (phrase :: phrases))]
  end.

Definition warning_for {Rank : Type} (nlp : string -> list (TRPhrase Rank))
           (s : fs) (limit : option Z) (output_path : path) (st : fs)
           (file_path : path) : list string :=
  match file_phrases Rank nlp s limit file_path with
  | [] => [empty_warning output_path]
  | _ :: _ =>
      if is_file st (curr_output_path false output_path file_path)
      then [exists_warning output_path] else []
  end.

(** The warnings for the files of a directory, one file after the other,
    each on the file system the writes before it left. *)
Fixpoint warnings_from {Rank : Type} (nlp : string -> list (TRPhrase Rank))
         (csv_text : PhraseList Rank -> string) (s : fs) (limit : option Z)
         (output_path : path) (st : fs) (input_files : list path) : list string :=
  match input_files with
  | [] => []
  | file_path :: rest =>
      warning_for nlp s limit output_path st file_path
      ++ warnings_from nlp csv_text s limit output_path
           (write_phrases csv_text st (curr_output_path false output_path file_path)
                          (file_phrases Rank nlp s limit file_path))
           rest
  end.

(** One call per listed subdirectory, in the order of the list, each on
    the file system the previous one left; a failure ends the run. *)
Fixpoint recurse_into (call : fs -> path -> path -> fs * list event * outcome)
         (s : fs) (output_path : path) (subdirs : list path) : fs * list event * outcome :=
  match subdirs with
  | [] => (s, [], Done)
  | subdir :: rest =>
      match call s subdir (joinpath output_path (name subdir)) with
      | (s', evs, Done) =>
          let '(s'', evs', o) := recurse_into call s' output_path rest in
          (s'', evs ++ evs', o)
      | failed => failed
      end
  end.

(* ================================================================== *)
(** * Properties *)

(** ** The model on small inputs *)

Example range_step_two : range 0 5 2 = Some [0; 2; 4].
Proof. reflexivity. Qed.

Example range_negative_step : range 0 5 (-2) = Some [].
Proof. reflexivity. Qed.

Example range_zero_step : range 0 0 0 = None.
Proof. reflexivity. Qed.

Example slice_past_the_end : slice [1; 2; 3; 4; 5] 4 6 = [5].
Proof. reflexivity. Qed.

Example slice_negative_bounds : slice [1; 2; 3; 4; 5] (-3) (-1) = [3; 4].
Proof. reflexivity. Qed.

Example batch_files_of_five : batch_files [1; 2; 3; 4; 5] 2 = Ok [[1; 2]; [3; 4]; [5]].
Proof. reflexivity. Qed.

Example suffix_of_names :
  map suffix ["a.txt"; "a.tar.gz"; ".txt"; "a."; "abc"]%string
  = [".txt"; ".gz"; ""; ""; ""]%string.
Proof. reflexivity. Qed.

Example with_suffix_of_output :
  with_suffix (joinpath ["out"%string] (name ["docs"; "a.tar.gz"]%string)) ".csv"
  = ["out"; "a.tar.csv"]%string.
Proof. reflexivity. Qed.

Example limit_two_of_three :
  get_phrases Sample.letters ["abc"%string] (Some 2)
  = [[ {| text := "a"; rank := tt; count := 1 |};
       {| text := "b"; rank := tt; count := 1 |} ]].
Proof. reflexivity. Qed.

(** A single file: the output path is the output file, and no directory
    is made. *)
Example single_file_run :
  text_rank unit Sample.letters Sample.csv 1 Sample.docs
            ["docs"; "a.txt"]%string ["out.csv"%string] false ".txt" None None
  = (Sample.docs ++ [(["out.csv"%string], File "a,b")],
     [EvRead ["docs"; "a.txt"]%string; EvWrite ["out.csv"%string] "a,b"],
     Done).
Proof. reflexivity. Qed.

(** A recursive run mirrors the input tree under the output directory:
    [docs/a.txt] goes to [out/a.csv] and [docs/sub/c.txt] to
    [out/sub/c.csv]; [docs/b.txt], which has no phrase, is skipped. *)
Example recursive_run :
  Sample.first_run
  = (Sample.docs ++ [ (["out"%string], Dir);
                      (["out"; "a.csv"]%string, File "a,b");
                      (["out"; "sub"]%string, Dir);
                      (["out"; "sub"; "c.csv"]%string, File "c") ],
     [EvRead ["docs"; "a.txt"]%string;
      EvRead ["docs"; "b.txt"]%string;
      EvWrite ["out"; "a.csv"]%string "a,b";
      EvWarn "No phrases found in file: out, skipping";
      EvRead ["docs"; "sub"; "c.txt"]%string;
      EvWrite ["out"; "sub"; "c.csv"]%string "c"],
     Done).
Proof. reflexivity. Qed.

(** With the output directory inside the input directory the recursion
    finds the directories it makes: at depth 6 the run has not ended. *)
Example output_inside_input :
  snd (text_rank unit Sample.letters Sample.csv 6 Sample.docs
                 ["docs"%string] ["docs"; "out"]%string true ".txt" None None)
  = OutOfFuel.
Proof. reflexivity. Qed.

(** ** Lists, [range] and slices *)

Section ListFacts.

Context {A : Type}.

Lemma firstn_add_skipn (a b : nat) (l : list A) :
  firstn (a + b) l = firstn a l ++ firstn b (skipn a l).
Proof.
  revert l; induction a as [|a IH]; intros l; simpl.
  - reflexivity.
  - destruct l as [|x l]; simpl.
    + now rewrite firstn_nil.
    + now rewrite IH.
Qed.

Lemma firstn_min_length (b : nat) (l : list A) :
  firstn (Nat.min b (length l)) l = firstn b l.
Proof.
  destruct (Nat.le_ge_cases b (length l)) as [H|H].
  - now rewrite Nat.min_l.
  - rewrite Nat.min_r by assumption.
    now rewrite firstn_all, firstn_all2.
Qed.

Lemma in_firstn (n : nat) (l : list A) (x : A) : In x (firstn n l) -> In x l.
Proof.
  revert l; induction n as [|n IH]; intros [|y l]; simpl; try tauto.
  intros [H|H]; auto.
Qed.

Lemma in_skipn (n : nat) (l : list A) (x : A) : In x (skipn n l) -> In x l.
Proof.
  revert l; induction n as [|n IH]; intros [|y l]; simpl; auto.
Qed.

(** A slice that starts inside the list and is [b] long. *)
Lemma slice_window (l : list A) (k b : nat) :
  (k * b <= length l)%nat ->
  slice l (Z.of_nat (k * b)) (Z.of_nat (k * b) + Z.of_nat b)
  = firstn b (skipn (k * b) l).
Proof.
  intros Hk. unfold slice, clamp.
  destruct (Z.ltb_spec (Z.of_nat (k * b)) 0) as [Hneg|_]; [lia|].
  destruct (Z.ltb_spec (Z.of_nat (k * b) + Z.of_nat b) 0) as [Hneg|_]; [lia|].
  rewrite (Z.min_l (Z.of_nat (k * b))) by lia.
  rewrite Nat2Z.id.
  rewrite <- (firstn_min_length b (skipn (k * b) l)).
  f_equal. rewrite length_skipn. lia.
Qed.

(** The first [c] windows of width [b], put end to end. *)
Lemma concat_windows (l : list A) (b c : nat) :
  concat (map (fun k => firstn b (skipn (k * b) l)) (seq 0 c)) = firstn (c * b) l.
Proof.
  induction c as [|c IH].
  - reflexivity.
  - rewrite seq_S, map_app, concat_app, IH. simpl.
    rewrite app_nil_r, (Nat.add_comm b (c * b)).
    now rewrite firstn_add_skipn.
Qed.

End ListFacts.

(** [range(0, n, b)] for a positive step, in natural numbers. *)
Lemma range_positive_step (n b : nat) :
  (0 < b)%nat ->
  range 0 (Z.of_nat n) (Z.of_nat b)
  = Some (map (fun k => Z.of_nat (k * b)) (seq 0 (range_len 0 (Z.of_nat n) (Z.of_nat b)))).
Proof.
  intros Hb. unfold range.
  destruct (Z.eqb_spec (Z.of_nat b) 0) as [H0|_]; [lia|].
  f_equal. apply map_ext. intros k. lia.
Qed.

Lemma range_len_positive_step (n b : nat) :
  (0 < b)%nat ->
  range_len 0 (Z.of_nat n) (Z.of_nat b)
  = if (0 <? n)%nat then S ((n - 1) / b) else 0%nat.
Proof.
  intros Hb. unfold range_len.
  destruct (Z.ltb_spec 0 (Z.of_nat b)) as [_|H]; [|lia].
  destruct (Nat.ltb_spec 0 n) as [Hn|Hn].
  - destruct (Z.ltb_spec 0 (Z.of_nat n)) as [_|H]; [|lia]. simpl andb. cbv iota.
    replace (Z.of_nat n - 1 - 0) with (Z.of_nat (n - 1)) by lia.
    rewrite <- Nat2Z.inj_div. lia.
  - destruct (Z.ltb_spec 0 (Z.of_nat n)) as [H|_]; [lia|].
    destruct (Z.ltb_spec (Z.of_nat b) 0) as [H|_]; [lia|]. reflexivity.
Qed.

(** The batches for a positive batch size are the consecutive windows. *)
Lemma batch_files_windows {A} (iterable : list A) (b : nat) :
  (0 < b)%nat ->
  let c := if (0 <? length iterable)%nat then S ((length iterable - 1) / b) else 0%nat in
  batch_files iterable (Z.of_nat b)
  = Ok (map (fun k => firstn b (skipn (k * b) iterable)) (seq 0 c))
  /\ (length iterable <= c * b)%nat
  /\ (forall k, (S k < c)%nat -> (S k * b <= length iterable)%nat).
Proof.
  intros Hb c. unfold batch_files.
  rewrite range_positive_step, range_len_positive_step by assumption.
  fold c. rewrite map_map.
  assert (Hdiv : (b * ((length iterable - 1) / b) <= length iterable - 1)%nat)
    by (apply Nat.Div0.mul_div_le).
  assert (Hlt : (length iterable - 1 < b * S ((length iterable - 1) / b))%nat)
    by (apply Nat.mul_succ_div_gt; lia).
  assert (Hbound : forall k, (S k < c)%nat -> (S k * b <= length iterable)%nat).
  { intros k Hk. subst c.
    destruct (Nat.ltb_spec 0 (length iterable)) as [Hn|Hn]; [|lia].
    assert ((S k * b <= ((length iterable - 1) / b) * b)%nat)
      by (apply Nat.mul_le_mono_r; lia).
    lia. }
  split; [|split]; [| |exact Hbound].
  - f_equal. apply map_ext_in. intros k Hk. apply in_seq in Hk.
    apply slice_window.
    destruct k as [|k]; [simpl; lia|].
    destruct (Nat.eq_dec (S k) (c - 1)) as [E|NE].
    + subst c. destruct (Nat.ltb_spec 0 (length iterable)) as [Hn|Hn]; [|lia].
      simpl Nat.sub in E. rewrite Nat.sub_0_r in E. rewrite E. lia.
    + assert (S (S k) < c)%nat by lia.
      specialize (Hbound (S k) H). simpl in *. lia.
  - subst c. destruct (Nat.ltb_spec 0 (length iterable)) as [Hn|Hn]; lia.
Qed.

Lemma batch_files_positive {A} (iterable : list A) (batch_size : Z) :
  0 < batch_size ->
  exists batches,
    batch_files iterable batch_size = Ok batches
    /\ concat batches = iterable
    /\ (forall i, (S i < length batches)%nat ->
                  Z.of_nat (length (nth i batches [])) = batch_size).
Proof.
  intros Hpos.
  set (b := Z.to_nat batch_size).
  assert (Hb : (0 < b)%nat) by lia.
  replace batch_size with (Z.of_nat b) by lia.
  destruct (batch_files_windows iterable b Hb) as (Heq & Hcover & Hfull).
  eexists. split; [exact Heq|]. split.
  - rewrite concat_windows. now apply firstn_all2.
  - intros i Hi. rewrite length_map, length_seq in Hi.
    rewrite nth_indep with (d' := firstn b (skipn (0 * b) iterable))
      by (now rewrite length_map, length_seq; lia).
    rewrite (map_nth (fun k => firstn b (skipn (k * b) iterable))).
    rewrite seq_nth by lia. simpl Nat.add.
    rewrite length_firstn, length_skipn.
    specialize (Hfull i Hi). simpl in Hfull. lia.
Qed.

Lemma batch_files_zero {A} (iterable : list A) :
  batch_files iterable 0 = Err ValueError.
Proof. reflexivity. Qed.

Lemma batch_files_negative {A} (iterable : list A) (batch_size : Z) :
  batch_size < 0 -> batch_files iterable batch_size = Ok [].
Proof.
  intros Hneg. unfold batch_files, range, range_len.
  destruct (Z.eqb_spec batch_size 0) as [H|_]; [lia|].
  destruct (Z.ltb_spec 0 batch_size) as [H|_]; [lia|].
  destruct (Z.ltb_spec batch_size 0) as [_|H]; [|lia].
  destruct (Z.ltb_spec (Z.of_nat (length iterable)) 0) as [H|_]; [lia|].
  reflexivity.
Qed.

(** ** The phrase limit *)

Section Limit.

Variable Rank : Type.

Lemma take_phrases_unlimited (phrases : list (TRPhrase Rank)) (curr : PhraseList Rank) :
  take_phrases None phrases curr = curr ++ map to_dict phrases.
Proof.
  revert curr; induction phrases as [|phrase rest IH]; intros curr; simpl.
  - now rewrite app_nil_r.
  - rewrite IH, <- app_assoc. reflexivity.
Qed.

(** With a limit [k] the loop stops once [k] phrases are collected, but
    only after it has appended one: it never takes fewer than one phrase
    of a document that has any. *)
Lemma take_phrases_limited (k : Z) (phrases : list (TRPhrase Rank))
      (curr : PhraseList Rank) :
  take_phrases (Some k) phrases curr
  = curr ++ map to_dict
                (firstn (Z.to_nat (Z.max 1 (k - Z.of_nat (length curr)))) phrases).
Proof.
  revert curr; induction phrases as [|phrase rest IH]; intros curr; simpl.
  - now rewrite firstn_nil, app_nil_r.
  - rewrite length_app. simpl length.
    destruct (Z.leb_spec k (Z.of_nat (length curr + 1))) as [Hstop|Hgo].
    + replace (Z.to_nat (Z.max 1 (k - Z.of_nat (length curr)))) with 1%nat by lia.
      reflexivity.
    + rewrite IH, length_app, <- app_assoc. simpl length.
      replace (Z.to_nat (Z.max 1 (k - Z.of_nat (length curr))))
        with (S (Z.to_nat (Z.max 1 (k - Z.of_nat (length curr + 1))))) by lia.
      reflexivity.
Qed.

(** For a limit of at least one, the result is the prefix of that length
    of the unlimited result. *)
Lemma take_phrases_prefix (k : Z) (phrases : list (TRPhrase Rank)) :
  1 <= k ->
  take_phrases (Some k) phrases []
  = firstn (Z.to_nat k) (take_phrases None phrases []).
Proof.
  intros Hk. rewrite take_phrases_limited, take_phrases_unlimited. simpl.
  rewrite Z.sub_0_r, Z.max_r by lia. now rewrite firstn_map.
Qed.

End Limit.

(** ** The batch pipeline *)

Section PipelineFacts.

Variable Rank : Type.
Variable nlp : string -> list (TRPhrase Rank).

Lemma read_batch_files (s : fs) (batch : list path) :
  Forall (fun file => is_file s file = true) batch ->
  exists texts,
    read_batch s batch = (map EvRead batch, Ok texts)
    /\ get_phrases nlp texts = fun limit => map (file_phrases Rank nlp s limit) batch.
Proof.
  induction 1 as [|file rest Hfile _ IH]; simpl.
  - exists []. split; reflexivity.
  - destruct IH as (texts & Hread & Hget).
    unfold is_file in Hfile. unfold open_read at 1.
    destruct (lookup s file) as [[content|]|] eqn:Hlook; try discriminate.
    rewrite Hread. exists (content :: texts). split; [reflexivity|].
    unfold get_phrases, nlp_pipe in *. simpl.
    unfold file_phrases at 1, open_read. rewrite Hlook.
    apply (f_equal (fun h limit => take_phrases limit (nlp content) [] :: h limit)) in Hget.
    exact Hget.
Qed.

Lemma run_batches_files (s : fs) (limit : option Z) (batches : list (list path)) :
  Forall (fun file => is_file s file = true) (concat batches) ->
  run_batches Rank nlp s limit batches
  = (map EvRead (concat batches),
     map (file_phrases Rank nlp s limit) (concat batches), Done).
Proof.
  induction batches as [|batch batches IH]; simpl; intros Hall.
  - reflexivity.
  - apply Forall_app in Hall. destruct Hall as [Hbatch Hrest].
    destruct (read_batch_files s batch Hbatch) as (texts & Hread & Hget).
    rewrite Hread, (IH Hrest), Hget, !map_app. reflexivity.
Qed.

(** With a positive effective batch size and readable files, the pipeline
    reads every file once and yields its phrase list, in the order of
    [file_paths], whatever the batch size. *)
Lemma pipeline_files (s : fs) (limit : option Z) (file_paths : list path)
      (batch_size : option Z) :
  Forall (fun file => is_file s file = true) file_paths ->
  0 < effective_batch_size file_paths batch_size ->
  batched_file_process_iter Rank nlp s file_paths batch_size limit
  = (map EvRead file_paths, map (file_phrases Rank nlp s limit) file_paths, Done).
Proof.
  intros Hall Hpos. unfold batched_file_process_iter.
  destruct (batch_files_positive file_paths _ Hpos) as (batches & -> & Hcat & _).
  rewrite <- Hcat in Hall. rewrite run_batches_files by assumption.
  now rewrite Hcat.
Qed.

(** A non-positive batch size: [range] raises on zero and is empty on a
    negative step. *)
Lemma pipeline_non_positive (s : fs) (limit : option Z) (file_paths : list path) (b : Z) :
  b <= 0 ->
  batched_file_process_iter Rank nlp s file_paths (Some b) limit
  = ([], [], if b =? 0 then Raised ValueError else Done).
Proof.
  intros Hb. unfold batched_file_process_iter, effective_batch_size.
  destruct (Z.eqb_spec b 0) as [->|Hnz].
  - reflexivity.
  - rewrite batch_files_negative by lia. reflexivity.
Qed.

(** One [next] of the generator, against what it yields in all. *)
Lemma resume_rest (s : fs) (limit : option Z) (batches : list (list path)) :
  forall pending : list (PhraseList Rank),
    match resume Rank nlp s limit pending batches with
    | (evs, Yield phrase_list g') =>
        let '(evs', yielded, o) := gen_rest Rank nlp s limit g' in
        gen_rest Rank nlp s limit (GRun pending batches)
        = (evs ++ evs', phrase_list :: yielded, o)
    | (evs, Stop) => gen_rest Rank nlp s limit (GRun pending batches) = (evs, [], Done)
    | (evs, Raise e) => gen_rest Rank nlp s limit (GRun pending batches) = (evs, [], Raised e)
    end.
Proof.
  induction batches as [|batch batches IH]; intros [|phrase_list pending]; simpl.
  - reflexivity.
  - reflexivity.
  - destruct (read_batch s batch) as [evs [texts|e]]; [|reflexivity].
    specialize (IH (get_phrases nlp texts limit)). simpl in IH.
    destruct (resume Rank nlp s limit (get_phrases nlp texts limit) batches)
      as [evs1 [pl g'| |e]].
    + destruct (gen_rest Rank nlp s limit g') as [[evs' yielded] o].
      destruct (run_batches Rank nlp s limit batches) as [[evs2 ys2] o2].
      inversion IH; subst. now rewrite app_assoc.
    + destruct (run_batches Rank nlp s limit batches) as [[evs2 ys2] o2].
      inversion IH; subst. reflexivity.
    + destruct (run_batches Rank nlp s limit batches) as [[evs2 ys2] o2].
      inversion IH; subst. reflexivity.
  - destruct (read_batch s batch) as [evs [texts|e]].
    + destruct (run_batches Rank nlp s limit batches) as [[evs2 ys2] o2]. reflexivity.
    + reflexivity.
Qed.

Lemma gen_next_rest (s : fs) (limit : option Z) (g : gen_state Rank) :
  match gen_next Rank nlp s limit g with
  | (evs, Yield phrase_list g') =>
      let '(evs', yielded, o) := gen_rest Rank nlp s limit g' in
      gen_rest Rank nlp s limit g = (evs ++ evs', phrase_list :: yielded, o)
  | (evs, Stop) => gen_rest Rank nlp s limit g = (evs, [], Done)
  | (evs, Raise e) => gen_rest Rank nlp s limit g = (evs, [], Raised e)
  end.
Proof.
  destruct g as [file_paths batch_size|pending batches]; simpl.
  - unfold batched_file_process_iter.
    destruct (batch_files file_paths (effective_batch_size file_paths batch_size))
      as [batches|e]; [|reflexivity].
    generalize (resume_rest s limit batches []). simpl.
    destruct (run_batches Rank nlp s limit batches) as [[evs2 ys2] o2]. auto.
  - apply resume_rest.
Qed.

End PipelineFacts.

(** ** The file system *)

Lemma path_eqb_eq (p q : path) : path_eqb p q = true <-> p = q.
Proof. unfold path_eqb. destruct (path_eq_dec p q); split; congruence. Qed.

Lemma path_eqb_refl (p : path) : path_eqb p p = true.
Proof. now apply path_eqb_eq. Qed.

Lemma path_eqb_neq (p q : path) : p <> q -> path_eqb p q = false.
Proof. unfold path_eqb. destruct (path_eq_dec p q); congruence. Qed.

Lemma lookup_put_same (s : fs) (p : path) (e : entry) :
  lookup (put s p e) p = Some e.
Proof.
  induction s as [|[q e'] s IH]; simpl.
  - now rewrite path_eqb_refl.
  - destruct (path_eqb q p) eqn:E; simpl; rewrite E; auto.
Qed.

Lemma lookup_put_other (s : fs) (p q : path) (e : entry) :
  p <> q -> lookup (put s q e) p = lookup s p.
Proof.
  intros Hne. induction s as [|[r e'] s IH]; simpl.
  - rewrite path_eqb_neq; congruence.
  - destruct (path_eqb r q) eqn:E; simpl.
    + apply path_eqb_eq in E. subst r. rewrite path_eqb_neq; congruence.
    + now rewrite IH.
Qed.

Lemma lookup_listed (s : fs) (p : path) :
  In p (map fst s) <-> lookup s p <> None.
Proof.
  induction s as [|[q e] s IH]; simpl.
  - split; [tauto|congruence].
  - destruct (path_eqb q p) eqn:E.
    + apply path_eqb_eq in E. split; [congruence|auto].
    + rewrite <- IH. split; [|auto].
      intros [H|H]; [|exact H]. subst q. now rewrite path_eqb_refl in E.
Qed.

(** Replacing an entry does not change the listings. *)
Lemma paths_put_present (s : fs) (p : path) (e : entry) :
  lookup s p <> None -> map fst (put s p e) = map fst s.
Proof.
  induction s as [|[q e'] s IH]; simpl; intros H.
  - congruence.
  - destruct (path_eqb q p) eqn:E; simpl; [reflexivity|].
    now rewrite IH.
Qed.

(** A new entry is listed last. *)
Lemma paths_put_absent (s : fs) (p : path) (e : entry) :
  lookup s p = None -> map fst (put s p e) = map fst s ++ [p].
Proof.
  induction s as [|[q e'] s IH]; simpl; intros H.
  - reflexivity.
  - destruct (path_eqb q p) eqn:E; [discriminate|]. simpl. now rewrite IH.
Qed.

Lemma children_put (s : fs) (p q : path) (e : entry) :
  lookup s q <> None \/ q = [] \/ parent q <> p ->
  children (put s q e) p = children s p.
Proof.
  intros H. unfold children.
  destruct (lookup s q) eqn:Hq.
  - rewrite paths_put_present; congruence.
  - rewrite paths_put_absent, filter_app by assumption. simpl.
    destruct H as [H|[H|H]]; [congruence| |].
    + subst q. now rewrite app_nil_r.
    + destruct q; [now rewrite app_nil_r|].
      rewrite path_eqb_neq by assumption. now rewrite app_nil_r.
Qed.

Lemma child_listed (s : fs) (p d : path) :
  In d (children s p) -> lookup s d <> None /\ d = joinpath p (name d).
Proof.
  unfold children. rewrite filter_In. intros [Hin Hpar]. split.
  - now apply lookup_listed.
  - destruct d as [|c d]; [discriminate|].
    apply path_eqb_eq in Hpar. unfold joinpath, name, parent in *. rewrite <- Hpar.
    apply app_removelast_last. discriminate.
Qed.

Lemma name_joinpath (p : path) (nm : string) : name (joinpath p nm) = nm.
Proof. unfold name, joinpath. apply last_last. Qed.

Lemma parent_joinpath (p : path) (nm : string) : parent (joinpath p nm) = p.
Proof. unfold parent, joinpath. apply removelast_last. Qed.

Lemma with_suffix_joinpath (p : path) (nm sfx : string) :
  with_suffix (joinpath p nm) sfx = joinpath p (name_with_suffix nm sfx).
Proof.
  unfold with_suffix. rewrite parent_joinpath, name_joinpath.
  unfold joinpath. destruct p; reflexivity.
Qed.

(** *** Prefixes *)

Lemma is_prefix_spec (p q : path) : is_prefix p q = true <-> exists r, q = p ++ r.
Proof.
  revert q; induction p as [|a p IH]; intros q; simpl.
  - split; [eauto|reflexivity].
  - destruct q as [|b q].
    + split; [discriminate|]. intros [r H]. discriminate.
    + rewrite andb_true_iff, String.eqb_eq, IH. split.
      * intros [-> [r ->]]. now exists r.
      * intros [r H]. injection H as -> ->. eauto.
Qed.

Lemma is_prefix_refl (p : path) : is_prefix p p = true.
Proof. apply is_prefix_spec. exists []. now rewrite app_nil_r. Qed.

Lemma is_prefix_app (p r : path) : is_prefix p (p ++ r) = true.
Proof. apply is_prefix_spec. now exists r. Qed.

Lemma is_prefix_trans (p q r : path) :
  is_prefix p q = true -> is_prefix q r = true -> is_prefix p r = true.
Proof.
  rewrite !is_prefix_spec. intros [a ->] [b ->]. exists (a ++ b). now rewrite app_assoc.
Qed.

(** Two ancestors of one path are comparable. *)
Lemma is_prefix_comparable (p q r : path) :
  is_prefix p r = true -> is_prefix q r = true ->
  is_prefix p q = true \/ is_prefix q p = true.
Proof.
  revert q r; induction p as [|a p IH]; intros q r; simpl.
  - auto.
  - destruct r as [|c r]; [discriminate|].
    destruct q as [|b q]; simpl; [auto|].
    rewrite !andb_true_iff, !String.eqb_eq. intros [-> Hp] [-> Hq].
    destruct (IH q r Hp Hq) as [H|H]; [left|right]; auto.
Qed.

Lemma is_prefix_parent (p q : path) :
  is_prefix p q = true -> p <> q -> is_prefix p (parent q) = true.
Proof.
  rewrite !is_prefix_spec. intros [r ->] Hne.
  destruct (exists_last (l := r)) as (r' & c & ->).
  - intros ->. now rewrite app_nil_r in Hne.
  - exists r'. unfold parent. now rewrite app_assoc, removelast_last.
Qed.

Lemma separated_spec (p q : path) :
  separated p q = true <-> is_prefix p q = false /\ is_prefix q p = false.
Proof. unfold separated. rewrite andb_true_iff, !negb_true_iff. tauto. Qed.

Lemma separated_joinpath (p q : path) (a b : string) :
  separated p q = true -> separated (joinpath p a) (joinpath q b) = true.
Proof.
  rewrite !separated_spec. intros [Hpq Hqp]. unfold joinpath. split.
  - destruct (is_prefix (p ++ [a]) (q ++ [b])) eqn:E; [|reflexivity].
    assert (Hp : is_prefix p (q ++ [b]) = true)
      by (eapply is_prefix_trans; [apply is_prefix_app|exact E]).
    destruct (is_prefix_comparable p q (q ++ [b]) Hp (is_prefix_app q [b])) as [H|H];
      [congruence|].
    destruct (list_eq_dec string_dec p (q ++ [b])) as [->|Hne].
    + now rewrite is_prefix_app in Hqp.
    + apply is_prefix_parent in Hp; [|assumption].
      unfold parent in Hp. rewrite removelast_last in Hp. congruence.
  - destruct (is_prefix (q ++ [b]) (p ++ [a])) eqn:E; [|reflexivity].
    assert (Hq : is_prefix q (p ++ [a]) = true)
      by (eapply is_prefix_trans; [apply is_prefix_app|exact E]).
    destruct (list_eq_dec string_dec q (p ++ [a])) as [->|Hne].
    + now rewrite is_prefix_app in Hpq.
    + apply is_prefix_parent in Hq; [|assumption].
      unfold parent in Hq. rewrite removelast_last in Hq. congruence.
Qed.

(** *** What the writes of a run leave alone *)

Lemma writes_below_trans (root : path) (s1 s2 s3 : fs) :
  writes_below root s1 s2 -> writes_below root s2 s3 -> writes_below root s1 s3.
Proof.
  intros H12 H23. induction H23 as [|s2 s3 q e _ IH Hq Hk].
  - exact H12.
  - apply wb_put; auto.
Qed.

Lemma writes_below_weaken (root root' : path) (s s' : fs) :
  is_prefix root root' = true -> writes_below root' s s' -> writes_below root s s'.
Proof.
  intros Hpre H. induction H as [|s s' q e _ IH Hq Hk].
  - apply wb_same.
  - apply wb_put; auto. eapply is_prefix_trans; eassumption.
Qed.

Lemma mkdir_writes_below (s s' : fs) (p : path) :
  mkdir s p = Ok s' -> writes_below p s s'.
Proof.
  unfold mkdir. destruct (lookup s p) as [[content|]|] eqn:Hp.
  - discriminate.
  - intros [= <-]. apply wb_same.
  - destruct (is_dir s (parent p)); [|discriminate].
    intros [= <-]. apply wb_put; [apply wb_same|apply is_prefix_refl|now rewrite Hp].
Qed.

Lemma mkdir_is_dir (s s' : fs) (p : path) :
  mkdir s p = Ok s' -> is_dir s' p = true.
Proof.
  unfold mkdir, is_dir. destruct (lookup s p) as [[content|]|] eqn:Hp.
  - discriminate.
  - intros [= <-]. now rewrite Hp.
  - destruct (match lookup s (parent p) with Some Dir => true | _ => false end);
      [|discriminate].
    intros [= <-]. now rewrite lookup_put_same.
Qed.

Lemma open_write_writes_below (s s' : fs) (p : path) (data : string) :
  open_write s p data = Ok s' -> writes_below p s s' /\ s' = put s p (File data).
Proof.
  unfold open_write. destruct (lookup s p) as [[content|]|] eqn:Hp.
  - intros [= <-]. split; [|reflexivity].
    apply wb_put; [apply wb_same|apply is_prefix_refl|now rewrite Hp].
  - discriminate.
  - destruct (is_dir s (parent p)); [|discriminate].
    intros [= <-]. split; [|reflexivity].
    apply wb_put; [apply wb_same|apply is_prefix_refl|now rewrite Hp].
Qed.

Lemma writes_below_kinds (root : path) (s s' : fs) :
  writes_below root s s' -> kinds_kept s s'.
Proof.
  induction 1 as [|s s' q e _ IH Hq Hk].
  - intros p. auto.
  - intros p. destruct (IH p) as [IHf IHd]. unfold is_file, is_dir in *.
    destruct (path_eq_dec p q) as [->|Hne].
    + rewrite lookup_put_same.
      destruct (lookup s' q) as [[c|]|]; destruct e as [c'|]; simpl in Hk;
        split; intros Hs; auto;
        try discriminate;
        try (specialize (IHf Hs); discriminate);
        try (specialize (IHd Hs); discriminate).
    + rewrite lookup_put_other by assumption. auto.
Qed.

Lemma writes_below_outside (root : path) (s s' : fs) (p : path) :
  writes_below root s s' -> is_prefix root p = false -> lookup s' p = lookup s p.
Proof.
  induction 1 as [|s s' q e _ IH Hq Hk]; intros Hp.
  - reflexivity.
  - rewrite lookup_put_other; auto. congruence.
Qed.

(** Writes below [root] do not show in a tree that is apart from it. *)
Lemma writes_below_agree (root other : path) (s s' : fs) :
  separated other root = true -> writes_below root s s' -> agree_below other s s'.
Proof.
  intros Hsep H. apply separated_spec in Hsep. destruct Hsep as [Hor Hro].
  induction H as [|s s' q e _ IH Hq Hk].
  - intros p _. auto.
  - intros p Hp. destruct (IH p Hp) as [IHl IHc]. split.
    + rewrite lookup_put_other; [exact IHl|].
      intros ->. destruct (is_prefix_comparable _ _ _ Hp Hq); congruence.
    + rewrite children_put; [exact IHc|].
      destruct q as [|c q]; [auto|]. right; right. intros Hpar.
      assert (Hne : root <> c :: q).
      { intros ->. rewrite <- Hpar in Hp.
        apply (is_prefix_trans _ _ (c :: q)) in Hp.
        - congruence.
        - apply is_prefix_spec. exists [last (c :: q) EmptyString].
          unfold parent. apply app_removelast_last. discriminate. }
      apply is_prefix_parent in Hq; [|exact Hne].
      rewrite Hpar in Hq.
      destruct (is_prefix_comparable _ _ _ Hp Hq); congruence.
Qed.

Lemma agree_below_sym (root : path) (s s' : fs) :
  agree_below root s s' -> agree_below root s' s.
Proof. intros H p Hp. destruct (H p Hp). auto. Qed.

Lemma agree_below_trans (root : path) (s1 s2 s3 : fs) :
  agree_below root s1 s2 -> agree_below root s2 s3 -> agree_below root s1 s3.
Proof.
  intros H12 H23 p Hp. destruct (H12 p Hp), (H23 p Hp). split; congruence.
Qed.

Lemma agree_below_deeper (root root' : path) (s s' : fs) :
  is_prefix root root' = true -> agree_below root s s' -> agree_below root' s s'.
Proof. intros Hpre H p Hp. apply H. eapply is_prefix_trans; eassumption. Qed.

Lemma kinds_kept_trans (s1 s2 s3 : fs) :
  kinds_kept s1 s2 -> kinds_kept s2 s3 -> kinds_kept s1 s3.
Proof. intros H12 H23 p. destruct (H12 p), (H23 p). auto. Qed.

Lemma kinds_kept_refl (s : fs) : kinds_kept s s.
Proof. intros p. auto. Qed.

(** ** [text_rank]: where it writes *)

Section Frame.

Variable Rank : Type.
Variable nlp : string -> list (TRPhrase Rank).
Variable csv_text : PhraseList Rank -> string.

Lemma curr_output_path_below (w : bool) (output_path file_path : path) :
  is_prefix output_path (curr_output_path w output_path file_path) = true.
Proof.
  unfold curr_output_path. destruct w.
  - apply is_prefix_refl.
  - rewrite with_suffix_joinpath. apply is_prefix_app.
Qed.

Lemma process_files_writes_below (w : bool) (output_path : path) (limit : option Z)
      (input_files : list path) :
  forall (s : fs) (g : gen_state Rank) (s' : fs) (evs : list event) (o : outcome),
    process_files Rank nlp csv_text s w output_path limit input_files g = (s', evs, o) ->
    writes_below output_path s s'.
Proof.
  induction input_files as [|file_path rest IH]; intros s g s' evs o; simpl.
  - intros [= <- _ _]. apply wb_same.
  - destruct (gen_next Rank nlp s limit g) as [evs0 [[|phrase phrases] g'| |e]].
    + destruct (process_files Rank nlp csv_text s w output_path limit rest g')
        as [[s1 evs1] o1] eqn:Hrest.
      intros [= <- _ _]. eapply IH; eassumption.
    + destruct (open_write s (curr_output_path w output_path file_path)
                           (csv_text (phrase :: phrases))) as [s1|e] eqn:Hw.
      * destruct (process_files Rank nlp csv_text s1 w output_path limit rest g')
          as [[s2 evs2] o2] eqn:Hrest.
        intros [= <- _ _].
        apply open_write_writes_below in Hw. destruct Hw as [Hw _].
        eapply writes_below_trans; [|eapply IH; eassumption].
        eapply writes_below_weaken; [apply curr_output_path_below|exact Hw].
      * intros [= <- _ _]. apply wb_same.
    + intros [= <- _ _]. apply wb_same.
    + intros [= <- _ _]. apply wb_same.
Qed.

Lemma select_inputs_writes_below (s : fs) (input_path output_path : path) (sfx : string)
      (s0 : fs) (input_files : list path) (w : bool) :
  select_inputs s input_path output_path sfx = Ok (s0, input_files, w) ->
  writes_below output_path s s0.
Proof.
  unfold select_inputs. destruct (is_file s input_path).
  - intros [= <- _ _]. apply wb_same.
  - destruct (iterdir s input_path) as [listing|e]; [|discriminate].
    destruct (mkdir s output_path) as [s1|e] eqn:Hmk; [|discriminate].
    intros [= <- _ _]. now apply mkdir_writes_below.
Qed.

Lemma own_files_writes_below (s : fs) (input_path output_path : path) (sfx : string)
      (limit batch_size : option Z) (s' : fs) (evs : list event) (o : outcome) (w : bool) :
  own_files Rank nlp csv_text s input_path output_path sfx limit batch_size
  = ((s', evs, o), w) ->
  writes_below output_path s s'.
Proof.
  unfold own_files.
  destruct (select_inputs s input_path output_path sfx) as [[[s0 input_files] w0]|e] eqn:Hsel.
  - intros [= H _]. apply select_inputs_writes_below in Hsel.
    eapply writes_below_trans; [exact Hsel|].
    eapply process_files_writes_below; eassumption.
  - intros [= <- _ _ _]. apply wb_same.
Qed.

Lemma visit_dirs_writes_below (call : fs -> path -> path -> run) (output_path : path) :
  (forall s d out' s' evs o,
      call s d out' = (s', evs, o) -> writes_below out' s s') ->
  forall (listing : list path) (s s' : fs) (evs : list event) (o : outcome),
    visit_dirs call s output_path listing = (s', evs, o) ->
    writes_below output_path s s'.
Proof.
  intros Hcall. induction listing as [|next_dir rest IH]; intros s s' evs o; simpl.
  - intros [= <- _ _]. apply wb_same.
  - destruct (is_dir s next_dir); simpl; [|apply IH].
    destruct (call s next_dir (joinpath output_path (name next_dir)))
      as [[s1 evs1] o1] eqn:Hc.
    apply Hcall in Hc.
    apply writes_below_weaken with (root := output_path) in Hc;
      [|apply is_prefix_app].
    destruct o1.
    + destruct (visit_dirs call s1 output_path rest) as [[s2 evs2] o2] eqn:Hrest.
      intros [= <- _ _]. eapply writes_below_trans; [exact Hc|]. eapply IH; eassumption.
    + intros [= <- _ _]. exact Hc.
    + intros [= <- _ _]. exact Hc.
Qed.

Lemma text_rank_writes_below (fuel : nat) :
  forall (s : fs) (input_path output_path : path) (recursive : bool) (sfx : string)
         (limit batch_size : option Z) (s' : fs) (evs : list event) (o : outcome),
    text_rank Rank nlp csv_text fuel s input_path output_path recursive sfx
              limit batch_size = (s', evs, o) ->
    writes_below output_path s s'.
Proof.
  induction fuel as [|fuel IH]; intros s input_path output_path recursive sfx
                                       limit batch_size s' evs o; simpl.
  - intros [= <- _ _]. apply wb_same.
  - destruct (own_files Rank nlp csv_text s input_path output_path sfx limit batch_size)
      as [[[s1 evs1] o1] w] eqn:Hown.
    apply own_files_writes_below in Hown.
    destruct o1; try (intros [= <- _ _]; exact Hown).
    destruct (negb recursive || w); [intros [= <- _ _]; exact Hown|].
    destruct (iterdir s1 input_path) as [listing|e]; [|intros [= <- _ _]; exact Hown].
    destruct (visit_dirs _ s1 output_path listing) as [[s2 evs2] o2] eqn:Hvisit.
    intros [= <- _ _].
    eapply writes_below_trans; [exact Hown|].
    eapply visit_dirs_writes_below; [|exact Hvisit].
    intros s0 d out' s0' evs0 o0. apply IH.
Qed.

End Frame.

(** ** Running twice *)

Lemma tracks_same (sA sB : fs) : tracks sA sA sB sB.
Proof. intros p. auto. Qed.

Lemma tracks_trans (sA sA1 sA2 sB sB1 sB2 : fs) :
  tracks sA sA1 sB sB1 -> tracks sA1 sA2 sB1 sB2 -> tracks sA sA2 sB sB2.
Proof.
  intros H1 H2 p. destruct (H2 p) as [[HB HA]|H]; [|auto].
  destruct (H1 p) as [[HB1 HA1]|H]; [left|right]; split || idtac; congruence.
Qed.

Lemma tracks_put (sA sB : fs) (q : path) (e : entry) :
  tracks sA (put sA q e) sB (put sB q e).
Proof.
  intros p. destruct (path_eq_dec p q) as [->|Hne].
  - right. now rewrite !lookup_put_same.
  - left. now rewrite !lookup_put_other.
Qed.

Lemma slice_incl {A} (l : list A) (lo hi : Z) (x : A) : In x (slice l lo hi) -> In x l.
Proof.
  unfold slice. intros H. apply in_firstn in H. now apply in_skipn in H.
Qed.

Lemma batch_files_incl {A} (iterable : list A) (batch_size : Z) (batches : list (list A)) :
  batch_files iterable batch_size = Ok batches ->
  forall x, In x (concat batches) -> In x iterable.
Proof.
  unfold batch_files. destruct (range _ _ _) as [starts|]; [|discriminate].
  intros [= <-] x Hx. apply in_concat in Hx. destruct Hx as (batch & Hb & Hx).
  apply in_map_iff in Hb. destruct Hb as (i & <- & _). eapply slice_incl; eassumption.
Qed.

Section Rerun.

Variable Rank : Type.
Variable nlp : string -> list (TRPhrase Rank).
Variable csv_text : PhraseList Rank -> string.

(** Reads that succeed depend on the entries of the files read only;
    the error of a read that fails depends on the ancestors too. *)
Lemma read_batch_agree (sA sB : fs) (batch : list path) :
  (forall f, In f batch -> lookup sA f = lookup sB f) ->
  forall evs texts,
    read_batch sA batch = (evs, Ok texts) -> read_batch sB batch = (evs, Ok texts).
Proof.
  induction batch as [|file rest IH]; simpl; intros H evs texts.
  - auto.
  - unfold open_read. rewrite <- (H file) by auto.
    destruct (lookup sA file) as [[content|]|]; try discriminate.
    destruct (read_batch sA rest) as [evs' [texts'|e]] eqn:Hrest; [|discriminate].
    intros [= <- <-]. rewrite (IH (fun f Hf => H f (or_intror Hf)) _ _ eq_refl).
    reflexivity.
Qed.

Lemma resume_agree (sA sB : fs) (limit : option Z) (batches : list (list path)) :
  (forall f, In f (concat batches) -> lookup sA f = lookup sB f) ->
  forall pending evs r,
    resume Rank nlp sA limit pending batches = (evs, r) ->
    (forall e, r <> Raise e) ->
    resume Rank nlp sB limit pending batches = (evs, r).
Proof.
  induction batches as [|batch batches IH]; simpl; intros H pending evs r.
  - auto.
  - destruct pending; [|auto].
    destruct (read_batch sA batch) as [evs0 [texts|e]] eqn:Hread.
    + rewrite (read_batch_agree sA sB batch (fun f Hf => H f (in_or_app _ _ _ (or_introl Hf)))
                                _ _ Hread).
      destruct (resume Rank nlp sA limit (get_phrases nlp texts limit) batches)
        as [evs1 r1] eqn:Hres.
      intros [= <- <-] Hr.
      rewrite (IH (fun f Hf => H f (in_or_app _ _ _ (or_intror Hf))) _ _ _ Hres Hr).
      reflexivity.
    + intros [= _ <-] Hr. now destruct (Hr e).
Qed.

Lemma gen_next_agree (sA sB : fs) (limit : option Z) (g : gen_state Rank) :
  (forall f, In f (gen_files g) -> lookup sA f = lookup sB f) ->
  forall evs r,
    gen_next Rank nlp sA limit g = (evs, r) ->
    (forall e, r <> Raise e) ->
    gen_next Rank nlp sB limit g = (evs, r).
Proof.
  destruct g as [file_paths batch_size|pending batches]; simpl; intros H evs r.
  - destruct (batch_files file_paths (effective_batch_size file_paths batch_size))
      as [batches|e] eqn:Hb; [|auto].
    apply resume_agree. intros f Hf. apply H. eapply batch_files_incl; eassumption.
  - now apply resume_agree.
Qed.

Lemma resume_files (s : fs) (limit : option Z) (batches : list (list path)) :
  forall pending evs phrase_list g',
    resume Rank nlp s limit pending batches = (evs, Yield phrase_list g') ->
    forall f, In f (gen_files g') -> In f (concat batches).
Proof.
  induction batches as [|batch batches IH]; simpl; intros pending evs pl g'.
  - destruct pending; [discriminate|]. intros [= _ _ <-]. auto.
  - destruct pending.
    + destruct (read_batch s batch) as [evs0 [texts|e]]; [|discriminate].
      destruct (resume Rank nlp s limit (get_phrases nlp texts limit) batches)
        as [evs1 r] eqn:Hr.
      intros [= _ ->] f Hf. apply in_or_app. right. eapply IH; eassumption.
    + intros [= _ _ <-]. auto.
Qed.

Lemma gen_next_files (s : fs) (limit : option Z) (g : gen_state Rank) :
  forall evs phrase_list g',
    gen_next Rank nlp s limit g = (evs, Yield phrase_list g') ->
    forall f, In f (gen_files g') -> In f (gen_files g).
Proof.
  destruct g as [file_paths batch_size|pending batches]; simpl; intros evs pl g'.
  - destruct (batch_files file_paths (effective_batch_size file_paths batch_size))
      as [batches|e] eqn:Hb; [|discriminate].
    intros Hr f Hf. eapply batch_files_incl; [exact Hb|]. eapply resume_files; eassumption.
  - apply resume_files.
Qed.

Lemma tracks_mkdir (sA sA0 sB : fs) (p : path) :
  mkdir sA p = Ok sA0 -> is_dir sB p = true -> tracks sA sA0 sB sB.
Proof.
  intros Hmk HB q. pose proof (mkdir_is_dir _ _ _ Hmk) as HA.
  destruct (path_eq_dec q p) as [->|Hne].
  - right. unfold is_dir in *.
    destruct (lookup sB p) as [[c|]|]; try discriminate.
    destruct (lookup sA0 p) as [[c|]|]; try discriminate. reflexivity.
  - left. split; [reflexivity|].
    unfold mkdir in Hmk. destruct (lookup sA p) as [[c|]|]; try discriminate.
    + now injection Hmk as <-.
    + destruct (is_dir sA (parent p)); [|discriminate].
      injection Hmk as <-. now apply lookup_put_other.
Qed.

Lemma iterdir_listing (s : fs) (p : path) (listing : list path) :
  iterdir s p = Ok listing -> listing = children s p /\ is_dir s p = true.
Proof.
  unfold iterdir, is_dir. destruct (lookup s p) as [[c|]|]; try discriminate.
  intros [= <-]. auto.
Qed.

Lemma iterdir_agree (root : path) (sA sB : fs) (listing : list path) :
  agree_below root sA sB ->
  iterdir sA root = Ok listing -> iterdir sB root = Ok listing.
Proof.
  intros H. destruct (H root (is_prefix_refl root)) as [Hl Hc].
  unfold iterdir. rewrite <- Hl, <- Hc.
  now destruct (lookup sA root) as [[c|]|].
Qed.

(** A path below [root] is not below a directory apart from [root]. *)
Lemma separated_below (root other p : path) :
  separated root other = true -> is_prefix root p = true -> is_prefix other p = false.
Proof.
  intros Hsep Hp. apply separated_spec in Hsep. destruct Hsep as [H1 H2].
  destruct (is_prefix other p) eqn:E; [|reflexivity].
  destruct (is_prefix_comparable _ _ _ Hp E); congruence.
Qed.

Lemma separated_sym (p q : path) : separated p q = separated q p.
Proof. unfold separated. apply andb_comm. Qed.

Lemma process_files_rerun (w : bool) (output_path : path) (limit : option Z)
      (input_files : list path) :
  forall (sA : fs) (g : gen_state Rank) (sA' : fs) (evsA : list event),
    process_files Rank nlp csv_text sA w output_path limit input_files g
    = (sA', evsA, Done) ->
    forall sB : fs,
      (forall f, In f (gen_files g) ->
                 lookup sA f = lookup sB f /\ is_prefix output_path f = false) ->
      kinds_kept sA' sB ->
      exists sB' evsB,
        process_files Rank nlp csv_text sB w output_path limit input_files g
        = (sB', evsB, Done)
        /\ tracks sA sA' sB sB'.
Proof.
  induction input_files as [|file_path rest IH]; intros sA g sA' evsA; simpl.
  - intros [= <- _] sB _ _. exists sB, []. split; [reflexivity|apply tracks_same].
  - intros Hrun sB Hfiles Hkinds.
    destruct (gen_next Rank nlp sA limit g) as [evs0 [[|phrase phrases] g'| |e]] eqn:Hg;
      [| | |discriminate];
      rewrite (gen_next_agree sA sB limit g (fun f Hf => proj1 (Hfiles f Hf)) _ _ Hg)
        by discriminate.
    + destruct (process_files Rank nlp csv_text sA w output_path limit rest g')
        as [[s1 evs1] o1] eqn:Hrest.
      injection Hrun as -> _ ->.
      destruct (IH _ _ _ _ Hrest sB) as (sB' & evsB & HB & Htr); [|assumption|].
      { intros f Hf. apply Hfiles. eapply gen_next_files; eassumption. }
      rewrite HB. eauto.
    + set (dest := curr_output_path w output_path file_path) in *.
      set (data := csv_text (phrase :: phrases)) in *.
      destruct (open_write sA dest data) as [sA1|e] eqn:Hw; [|discriminate].
      destruct (process_files Rank nlp csv_text sA1 w output_path limit rest g')
        as [[s2 evs2] o2] eqn:Hrest.
      injection Hrun as -> _ ->.
      apply open_write_writes_below in Hw. destruct Hw as [_ ->].
      assert (HdestB : is_file sB dest = true).
      { apply Hkinds.
        apply (writes_below_kinds _ _ _
                 (process_files_writes_below Rank nlp csv_text _ _ _ _ _ _ _ _ _ Hrest)).
        unfold is_file. now rewrite lookup_put_same. }
      assert (HwB : open_write sB dest data = Ok (put sB dest (File data))).
      { unfold is_file in HdestB. unfold open_write.
        destruct (lookup sB dest) as [[c|]|]; try discriminate. reflexivity. }
      rewrite HwB.
      destruct (IH _ _ _ _ Hrest (put sB dest (File data))) as (sB' & evsB & HB & Htr).
      { intros f Hf.
        destruct (Hfiles f) as [Hl Hout]; [eapply gen_next_files; eassumption|].
        split; [|exact Hout].
        assert (f <> dest).
        { intros ->. subst dest. now rewrite curr_output_path_below in Hout. }
        now rewrite !lookup_put_other. }
      { eapply kinds_kept_trans; [exact Hkinds|].
        apply open_write_writes_below in HwB. destruct HwB as [HwB _].
        eapply writes_below_kinds; exact HwB. }
      rewrite HB. do 2 eexists. split; [reflexivity|].
      eapply tracks_trans; [apply tracks_put|exact Htr].
    + injection Hrun as <- _. exists sB, evs0. split; [reflexivity|apply tracks_same].
Qed.

Lemma select_inputs_rerun (sA sA0 sB : fs) (input_path output_path : path) (sfx : string)
      (input_files : list path) (w : bool) :
  select_inputs sA input_path output_path sfx = Ok (sA0, input_files, w) ->
  separated input_path output_path = true ->
  agree_below input_path sA sB ->
  kinds_kept sA0 sB ->
  select_inputs sB input_path output_path sfx = Ok (sB, input_files, w)
  /\ tracks sA sA0 sB sB
  /\ (forall f, In f input_files ->
                lookup sA0 f = lookup sB f /\ is_prefix output_path f = false).
Proof.
  intros Hsel Hsep Hagree Hkinds.
  pose proof (select_inputs_writes_below _ _ _ _ _ _ _ Hsel) as Hwb.
  assert (Hin : forall f, is_prefix input_path f = true ->
                          lookup sA0 f = lookup sB f /\ is_prefix output_path f = false).
  { intros f Hf. pose proof (separated_below _ _ _ Hsep Hf) as Hout. split; [|exact Hout].
    rewrite (writes_below_outside _ _ _ _ Hwb Hout). now apply Hagree. }
  unfold select_inputs in *.
  assert (His : is_file sB input_path = is_file sA input_path).
  { unfold is_file. now rewrite (proj1 (Hagree _ (is_prefix_refl _))). }
  rewrite His.
  destruct (is_file sA input_path).
  - injection Hsel as <- <- <-. split; [reflexivity|]. split; [apply tracks_same|].
    intros f [<-|[]]. apply Hin, is_prefix_refl.
  - destruct (iterdir sA input_path) as [listing|e] eqn:Hit; [|discriminate].
    rewrite (iterdir_agree _ _ _ _ Hagree Hit).
    destruct (mkdir sA output_path) as [s1|e] eqn:Hmk; [|discriminate].
    injection Hsel as <- <- <-.
    assert (HdirB : is_dir sB output_path = true)
      by (apply Hkinds; eapply mkdir_is_dir; eassumption).
    assert (HmkB : mkdir sB output_path = Ok sB).
    { unfold mkdir. unfold is_dir in HdirB.
      destruct (lookup sB output_path) as [[c|]|]; try discriminate. reflexivity. }
    rewrite HmkB. split; [reflexivity|]. split; [eapply tracks_mkdir; eassumption|].
    intros f Hf. apply filter_In in Hf. destruct Hf as [Hf _].
    apply iterdir_listing in Hit. destruct Hit as [-> _].
    apply child_listed in Hf. destruct Hf as [_ Hf].
    apply Hin. rewrite Hf. apply is_prefix_app.
Qed.

Lemma own_files_rerun (sA sA' : fs) (input_path output_path : path) (sfx : string)
      (limit batch_size : option Z) (evsA : list event) (w : bool) :
  own_files Rank nlp csv_text sA input_path output_path sfx limit batch_size
  = ((sA', evsA, Done), w) ->
  separated input_path output_path = true ->
  forall sB : fs,
    agree_below input_path sA sB ->
    kinds_kept sA' sB ->
    exists sB' evsB,
      own_files Rank nlp csv_text sB input_path output_path sfx limit batch_size
      = ((sB', evsB, Done), w)
      /\ tracks sA sA' sB sB'.
Proof.
  unfold own_files. intros Hrun Hsep sB Hagree Hkinds.
  destruct (select_inputs sA input_path output_path sfx)
    as [[[sA0 input_files] w0]|e] eqn:Hsel; [|discriminate].
  injection Hrun as Hrun <-.
  pose proof (process_files_writes_below Rank nlp csv_text _ _ _ _ _ _ _ _ _ Hrun) as Hwb.
  destruct (select_inputs_rerun _ _ sB _ _ _ _ _ Hsel Hsep Hagree) as (-> & Htr0 & Hfiles).
  { eapply kinds_kept_trans; [eapply writes_below_kinds; exact Hwb|exact Hkinds]. }
  destruct (process_files_rerun _ _ _ _ _ _ _ _ Hrun sB) as (sB' & evsB & -> & Htr);
    [exact Hfiles|exact Hkinds|].
  exists sB', evsB. split; [reflexivity|]. eapply tracks_trans; eassumption.
Qed.

Lemma visit_dirs_rerun (call : fs -> path -> path -> run) (input_path output_path : path) :
  (forall s d out' s' evs o, call s d out' = (s', evs, o) -> writes_below out' s s') ->
  (forall sA d out' sA' evsA,
      call sA d out' = (sA', evsA, Done) ->
      separated d out' = true ->
      forall sB, agree_below d sA sB -> kinds_kept sA' sB ->
                 exists sB' evsB, call sB d out' = (sB', evsB, Done)
                                  /\ tracks sA sA' sB sB') ->
  separated input_path output_path = true ->
  forall (listing : list path) (sA sA' : fs) (evsA : list event),
    visit_dirs call sA output_path listing = (sA', evsA, Done) ->
    (forall d, In d listing -> d = joinpath input_path (name d)) ->
    forall sB : fs,
      agree_below input_path sA sB ->
      kinds_kept sA' sB ->
      exists sB' evsB,
        visit_dirs call sB output_path listing = (sB', evsB, Done)
        /\ tracks sA sA' sB sB'.
Proof.
  intros Hframe Hcall Hsep.
  induction listing as [|d rest IH]; intros sA sA' evsA; simpl.
  - intros [= <- _] _ sB _ _. exists sB, []. split; [reflexivity|apply tracks_same].
  - intros Hrun Hlisted sB Hagree Hkinds.
    assert (Hd : is_prefix input_path d = true)
      by (rewrite (Hlisted d) by auto; apply is_prefix_app).
    assert (His : is_dir sB d = is_dir sA d)
      by (unfold is_dir; now rewrite (proj1 (Hagree d Hd))).
    rewrite His. destruct (is_dir sA d); simpl in *.
    + destruct (call sA d (joinpath output_path (name d))) as [[sA1 evs1] o1] eqn:Hc.
      destruct o1; try discriminate.
      destruct (visit_dirs call sA1 output_path rest) as [[sA2 evs2] o2] eqn:Hrest.
      injection Hrun as -> _ ->.
      pose proof (visit_dirs_writes_below call output_path Hframe _ _ _ _ _ Hrest) as Hwb2.
      destruct (Hcall _ _ _ _ _ Hc) with (sB := sB) as (sB1 & evsB1 & HcB & Htr1).
      { rewrite (Hlisted d) at 1 by auto. now apply separated_joinpath. }
      { eapply agree_below_deeper; eassumption. }
      { eapply kinds_kept_trans; [eapply writes_below_kinds; exact Hwb2|exact Hkinds]. }
      rewrite HcB.
      assert (HwA : writes_below output_path sA sA1)
        by (eapply writes_below_weaken; [apply is_prefix_app|eapply Hframe; exact Hc]).
      assert (HwB : writes_below output_path sB sB1)
        by (eapply writes_below_weaken; [apply is_prefix_app|eapply Hframe; exact HcB]).
      destruct (IH _ _ _ Hrest) with (sB := sB1) as (sB2 & evsB2 & HrB & Htr2).
      { auto. }
      { eapply agree_below_trans;
          [apply agree_below_sym; eapply writes_below_agree; eassumption|].
        eapply agree_below_trans; [exact Hagree|].
        eapply writes_below_agree; eassumption. }
      { eapply kinds_kept_trans; [exact Hkinds|eapply writes_below_kinds; exact HwB]. }
      rewrite HrB. do 2 eexists. split; [reflexivity|]. eapply tracks_trans; eassumption.
    + apply (IH _ _ _ Hrun); auto.
Qed.

(** A second run of [text_rank] on a file system that has the tree of the
    input as the first run found it, and the entries the first run left,
    ends well too and leaves what the first run left. *)
Lemma text_rank_rerun (fuel : nat) :
  forall (sA : fs) (input_path output_path : path) (recursive : bool) (sfx : string)
         (limit batch_size : option Z) (sA' : fs) (evsA : list event),
    text_rank Rank nlp csv_text fuel sA input_path output_path recursive sfx
              limit batch_size = (sA', evsA, Done) ->
    separated input_path output_path = true ->
    forall sB : fs,
      agree_below input_path sA sB ->
      kinds_kept sA' sB ->
      exists sB' evsB,
        text_rank Rank nlp csv_text fuel sB input_path output_path recursive sfx
                  limit batch_size = (sB', evsB, Done)
        /\ tracks sA sA' sB sB'.
Proof.
  induction fuel as [|fuel IH];
    intros sA input_path output_path recursive sfx limit batch_size sA' evsA; simpl.
  - discriminate.
  - intros Hrun Hsep sB Hagree Hkinds.
    destruct (own_files Rank nlp csv_text sA input_path output_path sfx limit batch_size)
      as [[[sA1 evs1] o1] w] eqn:Hown.
    destruct o1; try discriminate.
    pose proof (own_files_writes_below Rank nlp csv_text _ _ _ _ _ _ _ _ _ _ Hown) as HwA.
    destruct (negb recursive || w) eqn:Hstop.
    + injection Hrun as -> _.
      destruct (own_files_rerun _ _ _ _ _ _ _ _ _ Hown Hsep sB Hagree Hkinds)
        as (sB1 & evsB1 & -> & Htr).
      rewrite Hstop. eauto.
    + destruct (iterdir sA1 input_path) as [listing|e] eqn:Hit; [|discriminate].
      match type of Hrun with
      | context [visit_dirs ?c _ _ _] => set (call := c) in *
      end.
      destruct (visit_dirs call sA1 output_path listing) as [[sA2 evs2] o2] eqn:Hvisit.
      injection Hrun as -> _ ->.
      assert (Hframe : forall s d out' s' evs o,
                 call s d out' = (s', evs, o) -> writes_below out' s s')
        by (intros s d out' s' evs o; apply text_rank_writes_below).
      pose proof (visit_dirs_writes_below call output_path Hframe _ _ _ _ _ Hvisit) as Hwb2.
      destruct (own_files_rerun _ _ _ _ _ _ _ _ _ Hown Hsep sB Hagree)
        as (sB1 & evsB1 & HownB & Htr1).
      { eapply kinds_kept_trans; [eapply writes_below_kinds; exact Hwb2|exact Hkinds]. }
      rewrite HownB, Hstop.
      pose proof (own_files_writes_below Rank nlp csv_text _ _ _ _ _ _ _ _ _ _ HownB) as HwB.
      assert (Hagree1 : agree_below input_path sA1 sB1).
      { eapply agree_below_trans;
          [apply agree_below_sym; eapply writes_below_agree; eassumption|].
        eapply agree_below_trans; [exact Hagree|].
        eapply writes_below_agree; eassumption. }
      rewrite (iterdir_agree _ _ _ _ Hagree1 Hit).
      destruct (visit_dirs_rerun call input_path output_path Hframe) with
        (listing := listing) (sA := sA1) (sA' := sA') (evsA := evs2) (sB := sB1)
        as (sB2 & evsB2 & HvB & Htr2).
      { intros sA0 d out' sA0' evsA0. apply IH. }
      { exact Hsep. }
      { exact Hvisit. }
      { intros d Hd. apply iterdir_listing in Hit. destruct Hit as [-> _].
        now apply child_listed in Hd. }
      { exact Hagree1. }
      { eapply kinds_kept_trans; [exact Hkinds|eapply writes_below_kinds; exact HwB]. }
      fold call. rewrite HvB. do 2 eexists. split; [reflexivity|].
      eapply tracks_trans; eassumption.
Qed.

End Rerun.

(* ================================================================== *)
(** * The properties of the specification *)

(** ** Batcher *)

(** C5.  For a positive batch size the batches of [batch_files], put end
    to end in order, are the input sequence, and every batch except
    possibly the last has exactly [batch_size] elements. *)
Theorem batches_rebuild_the_input {A} (items : list A) (batch_size : Z) :
  0 < batch_size ->
  exists batches,
    batch_files items batch_size = Ok batches
    /\ concat batches = items
    /\ (forall i, (S i < length batches)%nat ->
                  Z.of_nat (length (nth i batches [])) = batch_size).
Proof. apply batch_files_positive. Qed.

Lemma batches_rebuild_the_input_witness :
  0 < 2
  /\ exists batches,
      batch_files [10; 20; 30; 40; 50] 2 = Ok batches
      /\ concat batches = [10; 20; 30; 40; 50]
      /\ (forall i, (S i < length batches)%nat ->
                    Z.of_nat (length (nth i batches [])) = 2).
Proof.
  split; [lia|]. apply (batches_rebuild_the_input [10; 20; 30; 40; 50] 2). lia.
Defined.

(** ** Batch pipeline *)

Section PipelineClaims.

Variable Rank : Type.
Variable nlp : string -> list (TRPhrase Rank).

(** C4.  When every input path is a readable file and the batch size is
    unspecified or positive, the pipeline yields exactly the phrase list
    of each input file, in the order of the input sequence; unless the
    sequence is empty and the batch size unspecified, it reads each file
    once, in that order, and ends normally. *)
Theorem pipeline_yields_one_per_file_in_order
        (s : fs) (file_paths : list path) (batch_size limit : option Z) :
  Forall (fun file => is_file s file = true) file_paths ->
  batch_size = None \/ (exists b, batch_size = Some b /\ 0 < b) ->
  exists evs o,
    batched_file_process_iter Rank nlp s file_paths batch_size limit
    = (evs, map (file_phrases Rank nlp s limit) file_paths, o)
    /\ (file_paths <> [] \/ batch_size <> None ->
        evs = map EvRead file_paths /\ o = Done).
Proof.
  intros Hfiles Hsize.
  destruct (Z.ltb_spec 0 (effective_batch_size file_paths batch_size)) as [Hpos|Hnon].
  - rewrite pipeline_files by assumption. eauto.
  - destruct Hsize as [->|(b & -> & Hb)]; [|simpl in Hnon; lia].
    destruct file_paths as [|file rest]; [|simpl in Hnon; lia].
    exists [], (Raised ValueError). split; [reflexivity|].
    intros [H|H]; congruence.
Qed.

(** C6.  For readable input files, any two positive batch sizes give the
    same run of the pipeline: the phrase list of every file, in the order
    of the files (and the same reads, ending normally). *)
Theorem batch_size_does_not_change_the_output
        (s : fs) (file_paths : list path) (limit : option Z) (b1 b2 : Z) :
  Forall (fun file => is_file s file = true) file_paths ->
  0 < b1 -> 0 < b2 ->
  batched_file_process_iter Rank nlp s file_paths (Some b1) limit
  = batched_file_process_iter Rank nlp s file_paths (Some b2) limit
  /\ batched_file_process_iter Rank nlp s file_paths (Some b1) limit
     = (map EvRead file_paths, map (file_phrases Rank nlp s limit) file_paths, Done).
Proof.
  intros Hfiles H1 H2. now rewrite !pipeline_files.
Qed.

(** C1, as the code has it.  A batch size of zero makes the pipeline fail
    with [ValueError] at its first step, before any file is opened; a
    negative batch size does not fail: no batch is made, no file is opened
    and the pipeline ends normally, having yielded nothing. *)
Theorem non_positive_batch_size
        (s : fs) (file_paths : list path) (limit : option Z) (b : Z) :
  b <= 0 ->
  batched_file_process_iter Rank nlp s file_paths (Some b) limit
  = ([], [], if b =? 0 then Raised ValueError else Done)
  /\ gen_next Rank nlp s limit (GStart file_paths (Some b))
     = ([], if b =? 0 then Raise ValueError else Stop).
Proof.
  intros Hb. split; [now apply pipeline_non_positive|].
  simpl. destruct (Z.eqb_spec b 0) as [->|Hnz].
  - reflexivity.
  - rewrite batch_files_negative by lia. reflexivity.
Qed.

(** C2, at a limit of zero.  The loop appends before it tests the limit,
    so a document with at least one phrase gets a phrase list of one
    phrase, not the empty one. *)
Theorem limit_zero_keeps_one_phrase
        (doc : string) (phrase : TRPhrase Rank) (rest : list (TRPhrase Rank)) :
  nlp doc = phrase :: rest ->
  get_phrases nlp [doc] (Some 0) = [[to_dict phrase]]
  /\ get_phrases nlp [doc] (Some 0)
     <> [firstn 0 (take_phrases None (nlp doc) [])].
Proof.
  intros Hdoc. unfold get_phrases, nlp_pipe. simpl. rewrite Hdoc. simpl.
  split; [reflexivity|discriminate].
Qed.

End PipelineClaims.

Lemma pipeline_yields_one_per_file_in_order_witness :
  Forall (fun file => is_file Sample.docs file = true) Sample.texts
  /\ (Some 1 = None \/ (exists b, Some 1 = Some b /\ 0 < b))
  /\ exists evs o,
      batched_file_process_iter unit Sample.letters Sample.docs Sample.texts (Some 1) None
      = (evs, map (file_phrases unit Sample.letters Sample.docs None) Sample.texts, o)
      /\ (Sample.texts <> [] \/ Some 1 <> None ->
          evs = map EvRead Sample.texts /\ o = Done).
Proof.
  assert (H1 : Forall (fun file => is_file Sample.docs file = true) Sample.texts)
    by (repeat constructor).
  assert (H2 : Some 1 = None \/ (exists b, Some 1 = Some b /\ 0 < b))
    by (right; exists 1; split; [reflexivity|lia]).
  split; [exact H1|]. split; [exact H2|].
  exact (pipeline_yields_one_per_file_in_order
           unit Sample.letters Sample.docs Sample.texts (Some 1) None H1 H2).
Defined.

Lemma batch_size_does_not_change_the_output_witness :
  Forall (fun file => is_file Sample.docs file = true) Sample.texts
  /\ 0 < 1 /\ 0 < 2
  /\ batched_file_process_iter unit Sample.letters Sample.docs Sample.texts (Some 1) (Some 1)
     = batched_file_process_iter unit Sample.letters Sample.docs Sample.texts (Some 2) (Some 1)
  /\ batched_file_process_iter unit Sample.letters Sample.docs Sample.texts (Some 1) (Some 1)
     = (map EvRead Sample.texts,
        map (file_phrases unit Sample.letters Sample.docs (Some 1)) Sample.texts, Done).
Proof.
  assert (H : Forall (fun file => is_file Sample.docs file = true) Sample.texts)
    by (repeat constructor).
  split; [exact H|]. split; [lia|]. split; [lia|].
  apply (batch_size_does_not_change_the_output
           unit Sample.letters Sample.docs Sample.texts (Some 1) 1 2 H); lia.
Defined.

Lemma non_positive_batch_size_witness :
  -3 <= 0
  /\ batched_file_process_iter unit Sample.letters Sample.docs Sample.texts (Some (-3)) None
     = ([], [], Done)
  /\ gen_next unit Sample.letters Sample.docs None (GStart Sample.texts (Some (-3)))
     = ([], Stop).
Proof.
  split; [lia|].
  apply (non_positive_batch_size unit Sample.letters Sample.docs Sample.texts None (-3)).
  lia.
Defined.

(** C1, as the spec has it, fails at a batch size of -1: the pipeline over
    one file raises nothing and ends normally without having opened the
    file, and so does a whole run of [text_rank] over a directory with two
    text files, which reads and writes no file. *)
Lemma negative_batch_size_raises_nothing :
  batched_file_process_iter unit Sample.letters Sample.docs [["docs"; "a.txt"]%string]
                            (Some (-1)) None
  = ([], [], Done)
  /\ (forall evs yielded e,
         batched_file_process_iter unit Sample.letters Sample.docs
                                   [["docs"; "a.txt"]%string] (Some (-1)) None
         <> (evs, yielded, Raised e))
  /\ text_rank unit Sample.letters Sample.csv 1 Sample.docs ["docs"%string] ["out"%string]
               false ".txt" None (Some (-1))
     = (Sample.docs ++ [(["out"%string], Dir)], [], Done).
Proof. split; [reflexivity|]. split; [discriminate|reflexivity]. Qed.

Lemma limit_zero_keeps_one_phrase_witness :
  Sample.letters "ab"
  = {| ph_text := "a"; ph_rank := tt; ph_count := 1 |}
      :: Sample.letters "b"
  /\ get_phrases Sample.letters ["ab"%string] (Some 0)
     = [[to_dict {| ph_text := "a"; ph_rank := tt; ph_count := 1 |}]]
  /\ get_phrases Sample.letters ["ab"%string] (Some 0)
     <> [firstn 0 (take_phrases None (Sample.letters "ab") [])].
Proof.
  split; [reflexivity|].
  apply (limit_zero_keeps_one_phrase unit Sample.letters "ab"
           {| ph_text := "a"; ph_rank := tt; ph_count := 1 |} (Sample.letters "b")).
  reflexivity.
Defined.

(** ** Dispatcher *)

Lemma kinds_kept_listed (s s' : fs) (p : path) :
  kinds_kept s s' -> lookup s p <> None ->
  is_dir s' p = is_dir s p /\ lookup s' p <> None.
Proof.
  intros Hk Hp. destruct (Hk p) as [Hf Hd]. unfold is_file, is_dir in *.
  destruct (lookup s p) as [[c|]|]; [| |congruence].
  - specialize (Hf eq_refl). destruct (lookup s' p) as [[c'|]|]; try discriminate.
    split; [reflexivity|congruence].
  - specialize (Hd eq_refl). destruct (lookup s' p) as [[c'|]|]; try discriminate.
    split; [reflexivity|congruence].
Qed.

(** The loop over the listing, which tests [is_dir] as it goes, makes one
    call per entry that was a directory when the listing was taken. *)
Lemma visit_dirs_recurse_into (call : fs -> path -> path -> fs * list event * outcome)
      (output_path : path) :
  (forall s d out' s' evs o, call s d out' = (s', evs, o) -> kinds_kept s s') ->
  forall (listing : list path) (s0 s : fs),
    kinds_kept s0 s ->
    (forall d, In d listing -> lookup s0 d <> None) ->
    visit_dirs call s output_path listing
    = recurse_into call s output_path (filter (is_dir s0) listing).
Proof.
  intros Hcall. induction listing as [|d rest IH]; intros s0 s Hk Hlisted; simpl.
  - reflexivity.
  - destruct (kinds_kept_listed s0 s d Hk (Hlisted d (or_introl eq_refl))) as [-> _].
    destruct (is_dir s0 d); simpl.
    + destruct (call s d (joinpath output_path (name d))) as [[s1 evs1] o1] eqn:Hc.
      destruct o1; try reflexivity.
      rewrite (IH s0 s1); [reflexivity| |intros d' Hd'; apply Hlisted; now right].
      eapply kinds_kept_trans; [exact Hk|]. eapply Hcall; exact Hc.
    + apply IH; [exact Hk|]. intros d' Hd'. apply Hlisted. now right.
Qed.

(** *** Events by kind *)

Lemma reads_of_app (a b : list event) : reads_of (a ++ b) = reads_of a ++ reads_of b.
Proof. apply flat_map_app. Qed.

Lemma writes_of_app (a b : list event) : writes_of (a ++ b) = writes_of a ++ writes_of b.
Proof. apply flat_map_app. Qed.

Lemma warnings_of_app (a b : list event) :
  warnings_of (a ++ b) = warnings_of a ++ warnings_of b.
Proof. apply flat_map_app. Qed.

Lemma projections_of_reads (files : list path) :
  reads_of (map EvRead files) = files
  /\ writes_of (map EvRead files) = []
  /\ warnings_of (map EvRead files) = [].
Proof.
  induction files as [|f rest (IH1 & IH2 & IH3)]; simpl; [auto|].
  unfold reads_of, writes_of, warnings_of in *. simpl. now rewrite IH1, IH2, IH3.
Qed.


(** *** The first file that cannot be read *)

Lemma read_batch_first_failure (s : fs) (good : list path) (bad : path)
      (more : list path) (e : exn) :
  Forall (fun file => is_file s file = true) good ->
  open_read s bad = Err e ->
  read_batch s (good ++ bad :: more) = (map EvRead (good ++ [bad]), Err e).
Proof.
  intros Hgood Hbad. induction Hgood as [|file good Hfile _ IH]; simpl.
  - now rewrite Hbad.
  - unfold is_file in Hfile. unfold open_read at 1.
    destruct (lookup s file) as [[content|]|]; try discriminate.
    now rewrite IH.
Qed.

Lemma mkdir_lookup_other (s s0 : fs) (p q : path) :
  mkdir s p = Ok s0 -> q <> p -> lookup s0 q = lookup s q.
Proof.
  unfold mkdir. destruct (lookup s p) as [[c|]|]; try discriminate.
  - now intros [= <-].
  - destruct (is_dir s (parent p)); [|discriminate].
    intros [= <-] Hne. now apply lookup_put_other.
Qed.

Section DispatcherClaims.

Variable Rank : Type.
Variable nlp : string -> list (TRPhrase Rank).
Variable csv_text : PhraseList Rank -> string.

Lemma own_files_single_file (s : fs) (input_path output_path : path) (sfx : string)
      (limit batch_size : option Z) :
  is_file s input_path = true ->
  snd (own_files Rank nlp csv_text s input_path output_path sfx limit batch_size) = true.
Proof. unfold own_files, select_inputs. now intros ->. Qed.

Lemma own_files_directory (s s1 : fs) (input_path output_path : path) (sfx : string)
      (limit batch_size : option Z) (evs : list event) (w : bool) :
  is_file s input_path = false ->
  own_files Rank nlp csv_text s input_path output_path sfx limit batch_size
  = ((s1, evs, Done), w) ->
  w = false /\ is_dir s1 input_path = true.
Proof.
  intros Hfile Hown.
  pose proof (own_files_writes_below Rank nlp csv_text _ _ _ _ _ _ _ _ _ _ Hown) as Hwb.
  unfold own_files, select_inputs in Hown. rewrite Hfile in Hown.
  destruct (iterdir s input_path) as [listing|e] eqn:Hit; [|discriminate].
  destruct (mkdir s output_path); [|discriminate].
  injection Hown as _ <-. split; [reflexivity|].
  apply iterdir_listing in Hit. destruct Hit as [_ Hdir].
  now apply (writes_below_kinds _ _ _ Hwb).
Qed.

(** [text_rank] after its own files. *)
Lemma text_rank_after_own_files
        (fuel : nat) (s : fs) (input_path output_path : path) (recursive : bool)
        (sfx : string) (limit batch_size : option Z)
        (s1 : fs) (evs1 : list event) (o1 : outcome) (w : bool) :
  own_files Rank nlp csv_text s input_path output_path sfx limit batch_size
  = ((s1, evs1, o1), w) ->
  (is_file s input_path = true \/ recursive = false \/ o1 <> Done ->
   text_rank Rank nlp csv_text (S fuel) s input_path output_path recursive sfx
             limit batch_size = (s1, evs1, o1))
  /\ (is_file s input_path = false -> recursive = true -> o1 = Done ->
      text_rank Rank nlp csv_text (S fuel) s input_path output_path recursive sfx
                limit batch_size
      = let '(s2, evs2, o) :=
          recurse_into
            (fun s' subdir out' =>
               text_rank Rank nlp csv_text fuel s' subdir out' true sfx limit batch_size)
            s1 output_path (filter (is_dir s1) (children s1 input_path)) in
        (s2, evs1 ++ evs2, o)).
Proof.
  intros Hown. split.
  - intros Hcase. simpl. rewrite Hown.
    destruct o1; try reflexivity.
    destruct Hcase as [Hfile|[->|Hne]]; [|reflexivity|congruence].
    pose proof (own_files_single_file s input_path output_path sfx limit batch_size Hfile)
      as Hw.
    rewrite Hown in Hw. simpl in Hw. subst w. now rewrite orb_true_r.
  - intros Hfile -> ->. simpl. rewrite Hown.
    destruct (own_files_directory _ _ _ _ _ _ _ _ _ Hfile Hown) as [-> Hdir].
    simpl. unfold iterdir. unfold is_dir in Hdir.
    destruct (lookup s1 input_path) as [[c|]|]; try discriminate.
    rewrite (visit_dirs_recurse_into _ output_path) with (s0 := s1).
    + reflexivity.
    + intros s0 d out' s0' evs o Hc.
      eapply writes_below_kinds, text_rank_writes_below; exact Hc.
    + apply kinds_kept_refl.
    + intros d Hd. now apply child_listed in Hd.
Qed.

Lemma mkdir_files (s s0 : fs) (p q : path) :
  mkdir s p = Ok s0 -> is_file s0 q = is_file s q.
Proof.
  unfold mkdir. destruct (lookup s p) as [[c|]|] eqn:Hp; try discriminate.
  - now intros [= <-].
  - destruct (is_dir s (parent p)); [|discriminate]. intros [= <-].
    unfold is_file. destruct (path_eq_dec q p) as [->|Hne].
    + now rewrite lookup_put_same, Hp.
    + now rewrite lookup_put_other.
Qed.

Lemma matching_suffix_none (sfx : string) (listing : list path) :
  (forall child, In child listing -> suffix (name child) <> sfx) ->
  matching_suffix sfx listing = [].
Proof.
  unfold matching_suffix. induction listing as [|child rest IH]; intros Hnone.
  - reflexivity.
  - simpl. destruct (String.eqb_spec (suffix (name child)) sfx) as [E|_].
    + exfalso. apply (Hnone child); simpl; auto.
    + apply IH. intros c Hc. apply Hnone. simpl; auto.
Qed.

Lemma run_eta (r : run) : (let '(s, evs, o) := r in (s, [] ++ evs, o)) = r.
Proof. now destruct r as [[s evs] o]. Qed.

(** C10.  For a directory none of whose children has the suffix, with the
    batch size unspecified and an output directory that can be made: the
    own files end normally on the file system [mkdir] left, where the
    output path is a directory, without having read, written or warned,
    and no path has become a file; [text_rank] ends there without the
    recursion flag and goes on into the subdirectories with it.  The
    generator is never asked: asked, it would raise [ValueError]. *)
Theorem no_matching_file_default_batch_size
        (fuel : nat) (s s0 : fs) (input_path output_path : path) (recursive : bool)
        (sfx : string) (limit : option Z) (listing : list path) :
  is_file s input_path = false ->
  iterdir s input_path = Ok listing ->
  (forall child, In child listing -> suffix (name child) <> sfx) ->
  mkdir s output_path = Ok s0 ->
  own_files Rank nlp csv_text s input_path output_path sfx limit None
  = ((s0, [], Done), false)
  /\ is_dir s0 output_path = true
  /\ (forall p, is_file s0 p = is_file s p)
  /\ text_rank Rank nlp csv_text (S fuel) s input_path output_path recursive sfx limit None
     = (if recursive
        then recurse_into
               (fun s' subdir out' =>
                  text_rank Rank nlp csv_text fuel s' subdir out' true sfx limit None)
               s0 output_path (filter (is_dir s0) (children s0 input_path))
        else (s0, [], Done))
  /\ gen_next Rank nlp s0 limit (GStart [] None) = ([], Raise ValueError).
Proof.
  intros Hfile Hit Hnone Hmk.
  pose proof (matching_suffix_none sfx listing Hnone) as Hmatch.
  assert (Hown : own_files Rank nlp csv_text s input_path output_path sfx limit None
                 = ((s0, [], Done), false)).
  { unfold own_files, select_inputs. now rewrite Hfile, Hit, Hmk, Hmatch. }
  split; [exact Hown|]. split; [eapply mkdir_is_dir; exact Hmk|].
  split; [intros p; eapply mkdir_files; exact Hmk|]. split; [|reflexivity].
  destruct recursive.
  - destruct (text_rank_after_own_files fuel s input_path output_path true sfx
                limit None s0 [] Done false Hown) as [_ Hrec].
    rewrite Hrec by auto. apply run_eta.
  - destruct (text_rank_after_own_files fuel s input_path output_path false sfx
                limit None s0 [] Done false Hown) as [Hstop _].
    apply Hstop. auto.
Qed.

(** C8.  With [(s1, evs1, o1)] the result of processing the directory's
    own files: a run on a single file, a run without the recursion flag,
    and a run whose own files failed end there, whatever the depth
    allowed.  Otherwise the run goes on from [s1] with one call of
    [text_rank] per direct subdirectory, in listing order, on the
    subdirectory and [output_path / name], with the same suffix, limit and
    batch size. *)
Theorem recursion_once_per_subdirectory
        (fuel : nat) (s : fs) (input_path output_path : path) (recursive : bool)
        (sfx : string) (limit batch_size : option Z)
        (s1 : fs) (evs1 : list event) (o1 : outcome) (w : bool) :
  own_files Rank nlp csv_text s input_path output_path sfx limit batch_size
  = ((s1, evs1, o1), w) ->
  (is_file s input_path = true \/ recursive = false \/ o1 <> Done ->
   text_rank Rank nlp csv_text (S fuel) s input_path output_path recursive sfx
             limit batch_size = (s1, evs1, o1))
  /\ (is_file s input_path = false -> recursive = true -> o1 = Done ->
      text_rank Rank nlp csv_text (S fuel) s input_path output_path recursive sfx
                limit batch_size
      = let '(s2, evs2, o) :=
          recurse_into
            (fun s' subdir out' =>
               text_rank Rank nlp csv_text fuel s' subdir out' true sfx limit batch_size)
            s1 output_path (filter (is_dir s1) (children s1 input_path)) in
        (s2, evs1 ++ evs2, o)).
Proof. apply text_rank_after_own_files. Qed.

(** *** A directory among the files to read *)




Lemma process_files_started (s : fs) (w : bool) (output_path : path) (limit : option Z)
      (input_files file_paths : list path) (batch_size : option Z)
      (batches : list (list path)) :
  batch_files file_paths (effective_batch_size file_paths batch_size) = Ok batches ->
  process_files Rank nlp csv_text s w output_path limit input_files
                (GStart file_paths batch_size)
  = process_files Rank nlp csv_text s w output_path limit input_files (GRun [] batches).
Proof.
  intros Hb. destruct input_files as [|file_path rest]; simpl; [reflexivity|].
  now rewrite Hb.
Qed.


(** *** The first directory among the files to read *)












(** *** The result writer *)

Lemma process_files_empty_result (s : fs) (w : bool) (output_path : path)
      (limit : option Z) (file_path : path) (rest : list path)
      (g g' : gen_state Rank) (evs : list event) :
  gen_next Rank nlp s limit g = (evs, Yield [] g') ->
  process_files Rank nlp csv_text s w output_path limit (file_path :: rest) g
  = let '(s', evs', o) :=
      process_files Rank nlp csv_text s w output_path limit rest g' in
    (s', evs ++ EvWarn (empty_warning output_path) :: evs', o).
Proof. intros Hg. simpl. now rewrite Hg. Qed.

Lemma process_files_existing_destination (s : fs) (w : bool) (output_path : path)
      (limit : option Z) (file_path : path) (rest : list path)
      (g g' : gen_state Rank) (evs : list event)
      (phrase : Phrase Rank) (phrases : PhraseList Rank) :
  let dest := curr_output_path w output_path file_path in
  let data := csv_text (phrase :: phrases) in
  gen_next Rank nlp s limit g = (evs, Yield (phrase :: phrases) g') ->
  is_file s dest = true ->
  lookup (put s dest (File data)) dest = Some (File data)
  /\ process_files Rank nlp csv_text s w output_path limit (file_path :: rest) g
     = let '(s', evs', o) :=
         process_files Rank nlp csv_text (put s dest (File data)) w output_path
                       limit rest g' in
       (s', evs ++ EvWarn (exists_warning output_path) :: EvWrite dest data :: evs', o).
Proof.
  intros dest data Hg Hdest. split; [apply lookup_put_same|].
  simpl. rewrite Hg. fold dest. fold data. rewrite Hdest.
  unfold open_write. unfold is_file in Hdest.
  destruct (lookup s dest) as [[c|]|]; try discriminate. reflexivity.
Qed.

Lemma process_files_directory_destination (s : fs) (w : bool) (output_path : path)
      (limit : option Z) (file_path : path) (rest : list path)
      (g g' : gen_state Rank) (evs : list event)
      (phrase : Phrase Rank) (phrases : PhraseList Rank) :
  let dest := curr_output_path w output_path file_path in
  gen_next Rank nlp s limit g = (evs, Yield (phrase :: phrases) g') ->
  is_dir s dest = true ->
  process_files Rank nlp csv_text s w output_path limit (file_path :: rest) g
  = (s, evs, Raised (IsADirectoryError dest)).
Proof.
  intros dest Hg Hdest. simpl. rewrite Hg. fold dest.
  unfold open_write, is_file. unfold is_dir in Hdest.
  destruct (lookup s dest) as [[c|]|]; try discriminate.
  now rewrite app_nil_r.
Qed.

(** C7.  When the destination of a non-empty phrase list is an existing
    regular file, the loop warns, replaces the content of that file with
    the new text and goes on with the next file.  When the destination is
    an existing directory there is no warning and no write: opening it
    ends the run with [IsADirectoryError].  And when a run that ended
    normally is run again with the same arguments, the input and output
    paths being apart (neither at or below the other), the second run ends
    normally too and leaves at every path the entry the first run left. *)
Theorem existing_destination_is_overwritten
        (fuel : nat) (s s1 : fs) (input_path output_path : path) (recursive : bool)
        (sfx : string) (limit batch_size : option Z) (evs1 : list event)
        (t : fs) (w : bool) (out : path) (file_path : path) (rest : list path)
        (g g' : gen_state Rank) (evs : list event)
        (phrase : Phrase Rank) (phrases : PhraseList Rank) :
  (gen_next Rank nlp t limit g = (evs, Yield (phrase :: phrases) g') ->
   is_file t (curr_output_path w out file_path) = true ->
   lookup (put t (curr_output_path w out file_path) (File (csv_text (phrase :: phrases))))
          (curr_output_path w out file_path)
   = Some (File (csv_text (phrase :: phrases)))
   /\ process_files Rank nlp csv_text t w out limit (file_path :: rest) g
      = let '(t', evs', o) :=
          process_files Rank nlp csv_text
                        (put t (curr_output_path w out file_path)
                             (File (csv_text (phrase :: phrases))))
                        w out limit rest g' in
        (t', evs ++ EvWarn (exists_warning out)
                 :: EvWrite (curr_output_path w out file_path)
                            (csv_text (phrase :: phrases)) :: evs', o))
  /\ (gen_next Rank nlp t limit g = (evs, Yield (phrase :: phrases) g') ->
      is_dir t (curr_output_path w out file_path) = true ->
      process_files Rank nlp csv_text t w out limit (file_path :: rest) g
      = (t, evs, Raised (IsADirectoryError (curr_output_path w out file_path))))
  /\ (text_rank Rank nlp csv_text fuel s input_path output_path recursive sfx
                limit batch_size = (s1, evs1, Done) ->
      separated input_path output_path = true ->
      exists s2 evs2,
        text_rank Rank nlp csv_text fuel s1 input_path output_path recursive sfx
                  limit batch_size = (s2, evs2, Done)
        /\ same_content s2 s1).
Proof.
  split; [|split].
  - apply process_files_existing_destination.
  - apply process_files_directory_destination.
  - intros Hrun Hsep.
    pose proof (text_rank_writes_below Rank nlp csv_text _ _ _ _ _ _ _ _ _ _ _ Hrun) as Hwb.
    destruct (text_rank_rerun Rank nlp csv_text _ _ _ _ _ _ _ _ _ _ Hrun Hsep s1)
      as (s2 & evs2 & Hrun2 & Htr).
    + eapply writes_below_agree; eassumption.
    + apply kinds_kept_refl.
    + exists s2, evs2. split; [exact Hrun2|].
      intros p. destruct (Htr p) as [[H _]|H]; exact H.
Qed.

End DispatcherClaims.

(** C3, in a directory with two files that yield no phrase.  Both files
    are skipped, nothing is written and the run ends normally, with one
    warning per file; but the two warnings are the same text, which names
    the output directory and neither file. *)
Theorem empty_result_warning_names_the_output_path :
  text_rank unit Sample.letters Sample.csv 1 Sample.blanks
            ["in"%string] ["out"%string] false ".txt" None None
  = (Sample.blanks ++ [(["out"%string], Dir)],
     [EvRead ["in"; "a.txt"]%string;
      EvRead ["in"; "b.txt"]%string;
      EvWarn "No phrases found in file: out, skipping";
      EvWarn "No phrases found in file: out, skipping"],
     Done).
Proof. reflexivity. Qed.

Lemma recursion_once_per_subdirectory_witness :
  own_files unit Sample.letters Sample.csv Sample.docs ["docs"%string] ["out"%string]
            ".txt" None None
  = Sample.own_run
  /\ text_rank unit Sample.letters Sample.csv 3 Sample.docs ["docs"%string] ["out"%string]
               false ".txt" None None
     = fst Sample.own_run
  /\ text_rank unit Sample.letters Sample.csv 3 Sample.docs ["docs"%string] ["out"%string]
               true ".txt" None None
     = let '(s2, evs2, o) :=
         recurse_into
           (fun s' subdir out' =>
              text_rank unit Sample.letters Sample.csv 2 s' subdir out' true ".txt"
                        None None)
           (fst (fst (fst Sample.own_run))) ["out"%string]
           (filter (is_dir (fst (fst (fst Sample.own_run))))
                   (children (fst (fst (fst Sample.own_run))) ["docs"%string])) in
       (s2, snd (fst (fst Sample.own_run)) ++ evs2, o).
Proof.
  assert (Hown : own_files unit Sample.letters Sample.csv Sample.docs
                           ["docs"%string] ["out"%string] ".txt" None None
                 = Sample.own_run) by reflexivity.
  split; [exact Hown|]. split.
  - apply (proj1 (recursion_once_per_subdirectory
                    unit Sample.letters Sample.csv 2 Sample.docs
                    ["docs"%string] ["out"%string] false ".txt" None None
                    _ _ _ _ Hown)).
    right; left; reflexivity.
  - apply (proj2 (recursion_once_per_subdirectory
                    unit Sample.letters Sample.csv 2 Sample.docs
                    ["docs"%string] ["out"%string] true ".txt" None None
                    _ _ _ _ Hown)); reflexivity.
Defined.

Lemma no_matching_file_default_batch_size_witness :
  is_file Sample.docs ["docs"%string] = false
  /\ iterdir Sample.docs ["docs"%string] = Ok (children Sample.docs ["docs"%string])
  /\ (forall child, In child (children Sample.docs ["docs"%string]) ->
                    suffix (name child) <> ".zip"%string)
  /\ mkdir Sample.docs ["out"%string] = Ok (Sample.docs ++ [(["out"%string], Dir)])
  /\ own_files unit Sample.letters Sample.csv Sample.docs ["docs"%string] ["out"%string]
               ".zip" None None
     = ((Sample.docs ++ [(["out"%string], Dir)], [], Done), false)
  /\ text_rank unit Sample.letters Sample.csv 1 Sample.docs ["docs"%string] ["out"%string]
               false ".zip" None None
     = (Sample.docs ++ [(["out"%string], Dir)], [], Done).
Proof.
  assert (H1 : is_file Sample.docs ["docs"%string] = false) by reflexivity.
  assert (H2 : iterdir Sample.docs ["docs"%string]
               = Ok (children Sample.docs ["docs"%string])) by reflexivity.
  assert (H3 : forall child, In child (children Sample.docs ["docs"%string]) ->
                             suffix (name child) <> ".zip"%string).
  { intros child Hc. vm_compute in Hc.
    repeat (destruct Hc as [<-|Hc]; [vm_compute; discriminate|]). destruct Hc. }
  assert (H4 : mkdir Sample.docs ["out"%string]
               = Ok (Sample.docs ++ [(["out"%string], Dir)])) by reflexivity.
  pose proof (no_matching_file_default_batch_size
                unit Sample.letters Sample.csv 0 Sample.docs _
                ["docs"%string] ["out"%string] false ".zip" None _ H1 H2 H3 H4)
    as (Hown & _ & _ & Hrun & _).
  repeat split; assumption.
Defined.



Lemma existing_destination_is_overwritten_witness :
  (gen_next unit Sample.letters Sample.with_output None
            (GStart [["docs"; "a.txt"]%string] None)
   = ([EvRead ["docs"; "a.txt"]%string],
      Yield [ {| text := "a"; rank := tt; count := 1 |};
              {| text := "b"; rank := tt; count := 1 |} ] (GRun [] []))
   /\ is_file Sample.with_output ["out.csv"%string] = true
   /\ lookup (put Sample.with_output ["out.csv"%string] (File "a,b")) ["out.csv"%string]
      = Some (File "a,b")
   /\ process_files unit Sample.letters Sample.csv Sample.with_output true
                    ["out.csv"%string] None [["docs"; "a.txt"]%string]
                    (GStart [["docs"; "a.txt"]%string] None)
      = (put Sample.with_output ["out.csv"%string] (File "a,b"),
         [EvRead ["docs"; "a.txt"]%string;
          EvWarn "File out.csv already exists, skipping";
          EvWrite ["out.csv"%string] "a,b"],
         Done))
  /\ (gen_next unit Sample.letters Sample.odd None (GStart [["in"; "a.txt"]%string] None)
      = ([EvRead ["in"; "a.txt"]%string],
         Yield [ {| text := "a"; rank := tt; count := 1 |} ] (GRun [] []))
      /\ is_dir Sample.odd ["in"; "b.txt"]%string = true
      /\ process_files unit Sample.letters Sample.csv Sample.odd true
                       ["in"; "b.txt"]%string None [["in"; "a.txt"]%string]
                       (GStart [["in"; "a.txt"]%string] None)
         = (Sample.odd, [EvRead ["in"; "a.txt"]%string],
            Raised (IsADirectoryError ["in"; "b.txt"]%string)))
  /\ (text_rank unit Sample.letters Sample.csv 3 Sample.docs ["docs"%string] ["out"%string]
                true ".txt" None None
      = Sample.first_run
      /\ separated ["docs"%string] ["out"%string] = true
      /\ exists s2 evs2,
          text_rank unit Sample.letters Sample.csv 3 (fst (fst Sample.first_run))
                    ["docs"%string] ["out"%string] true ".txt" None None
          = (s2, evs2, Done)
          /\ same_content s2 (fst (fst Sample.first_run))).
Proof.
  assert (Hg : gen_next unit Sample.letters Sample.with_output None
                        (GStart [["docs"; "a.txt"]%string] None)
               = ([EvRead ["docs"; "a.txt"]%string],
                  Yield [ {| text := "a"; rank := tt; count := 1 |};
                          {| text := "b"; rank := tt; count := 1 |} ] (GRun [] [])))
    by reflexivity.
  assert (Hd : is_file Sample.with_output ["out.csv"%string] = true) by reflexivity.
  assert (Hg' : gen_next unit Sample.letters Sample.odd None
                         (GStart [["in"; "a.txt"]%string] None)
                = ([EvRead ["in"; "a.txt"]%string],
                   Yield [ {| text := "a"; rank := tt; count := 1 |} ] (GRun [] [])))
    by reflexivity.
  assert (Hd' : is_dir Sample.odd ["in"; "b.txt"]%string = true) by reflexivity.
  assert (Hrun : text_rank unit Sample.letters Sample.csv 3 Sample.docs
                           ["docs"%string] ["out"%string] true ".txt" None None
                 = Sample.first_run) by reflexivity.
  assert (Hsep : separated ["docs"%string] ["out"%string] = true) by reflexivity.
  pose proof (existing_destination_is_overwritten
                unit Sample.letters Sample.csv 3 Sample.docs (fst (fst Sample.first_run))
                ["docs"%string] ["out"%string] true ".txt" None None
                (snd (fst Sample.first_run))
                Sample.with_output true ["out.csv"%string] ["docs"; "a.txt"]%string []
                (GStart [["docs"; "a.txt"]%string] None) (GRun [] [])
                [EvRead ["docs"; "a.txt"]%string]
                {| text := "a"; rank := tt; count := 1 |}
                [ {| text := "b"; rank := tt; count := 1 |} ]) as (Ha & _ & Hc).
  pose proof (existing_destination_is_overwritten
                unit Sample.letters Sample.csv 3 Sample.docs (fst (fst Sample.first_run))
                ["docs"%string] ["out"%string] true ".txt" None None
                (snd (fst Sample.first_run))
                Sample.odd true ["in"; "b.txt"]%string ["in"; "a.txt"]%string []
                (GStart [["in"; "a.txt"]%string] None) (GRun [] [])
                [EvRead ["in"; "a.txt"]%string]
                {| text := "a"; rank := tt; count := 1 |} []) as (_ & Hb & _).
  split; [|split].
  - split; [exact Hg|]. split; [exact Hd|]. exact (Ha Hg Hd).
  - split; [exact Hg'|]. split; [exact Hd'|]. exact (Hb Hg' Hd').
  - split; [exact Hrun|]. split; [exact Hsep|]. exact (Hc Hrun Hsep).
Defined.

(** C7, as the spec has it, fails in two ways.  A destination that
    exists as a directory gives no warning and no write: the run ends
    with the error of opening it.  And two runs on the same input and
    output do not leave the same output when the output files are among
    the input files: in place with the suffix [.csv], the second run reads
    what the first one wrote and writes something else. *)
Lemma second_run_in_place_differs :
  text_rank unit Sample.letters Sample.csv 1 Sample.odd
            ["in"; "a.txt"]%string ["in"; "b.txt"]%string false ".txt" None None
  = (Sample.odd, [EvRead ["in"; "a.txt"]%string],
     Raised (IsADirectoryError ["in"; "b.txt"]%string))
  /\ exists s1 s2,
      text_rank unit Sample.letters Sample.csv 1 Sample.in_place ["d"%string] ["d"%string]
                false ".csv" None None
      = (s1,
         [EvRead ["d"; "a.csv"]%string;
          EvWarn "File d already exists, skipping";
          EvWrite ["d"; "a.csv"]%string "a,b"],
         Done)
      /\ text_rank unit Sample.letters Sample.csv 1 s1 ["d"%string] ["d"%string]
                   false ".csv" None None
         = (s2,
            [EvRead ["d"; "a.csv"]%string;
             EvWarn "File d already exists, skipping";
             EvWrite ["d"; "a.csv"]%string "a,,,b"],
            Done)
      /\ lookup s1 ["d"; "a.csv"]%string = Some (File "a,b")
      /\ lookup s2 ["d"; "a.csv"]%string = Some (File "a,,,b")
      /\ ~ same_content s2 s1.
Proof.
  split; [reflexivity|].
  exists [ ([], Dir); (["d"%string], Dir); (["d"; "a.csv"]%string, File "a,b") ],
         [ ([], Dir); (["d"%string], Dir); (["d"; "a.csv"]%string, File "a,,,b") ].
  split; [reflexivity|]. split; [reflexivity|]. split; [reflexivity|].
  split; [reflexivity|].
  intros H. specialize (H ["d"; "a.csv"]%string). discriminate.
Qed.

(* ================================================================== *)
(** * Further properties of the code *)

(** ** [batch_files] *)

(** The first batch is the first [b] items, and the other batches are the
    batches of the rest. *)
Lemma batch_files_step {A} (iterable : list A) (b : nat) :
  (0 < b)%nat -> iterable <> [] ->
  exists batches,
    batch_files (skipn b iterable) (Z.of_nat b) = Ok batches
    /\ batch_files iterable (Z.of_nat b) = Ok (firstn b iterable :: batches).
Proof.
  intros Hb Hne.
  destruct (batch_files_windows iterable b Hb) as (Heq & _ & _).
  destruct (batch_files_windows (skipn b iterable) b Hb) as (Heq' & _ & _).
  eexists. split; [exact Heq'|]. rewrite Heq. f_equal.
  assert (Hn : (0 < length iterable)%nat)
    by (destruct iterable; [congruence|simpl; lia]).
  destruct (Nat.ltb_spec 0 (length iterable)) as [_|H]; [|lia].
  rewrite length_skipn.
  assert (Hc : (if (0 <? length iterable - b)%nat
                then S ((length iterable - b - 1) / b) else 0%nat)
               = ((length iterable - 1) / b)%nat).
  { destruct (Nat.ltb_spec 0 (length iterable - b)) as [Hgt|Hle].
    - replace (length iterable - 1)%nat with ((length iterable - b - 1) + 1 * b)%nat by lia.
      rewrite Nat.div_add by lia. lia.
    - rewrite Nat.div_small; lia. }
  rewrite Hc. simpl seq. simpl map. f_equal.
  rewrite <- seq_shift, map_map. apply map_ext. intros k.
  rewrite skipn_skipn. f_equal. f_equal. lia.
Qed.

Lemma batch_files_nil {A} (batch_size : Z) :
  batch_size <> 0 -> batch_files (@nil A) batch_size = Ok [].
Proof.
  intros Hnz. unfold batch_files, range, range_len. simpl.
  destruct (Z.eqb_spec batch_size 0) as [H|_]; [congruence|].
  rewrite andb_false_r.
  destruct (batch_size <? 0); reflexivity.
Qed.

(** X1.  For a positive batch size [B] and [N] items there are
    [ceil(N / B)] batches, and every batch holds at least one item and at
    most [B]. *)
Theorem batch_count_and_sizes {A} (items : list A) (batch_size : Z) :
  0 < batch_size ->
  exists batches,
    batch_files items batch_size = Ok batches
    /\ Z.of_nat (length batches) = (Z.of_nat (length items) + batch_size - 1) / batch_size
    /\ Forall (fun batch => 1 <= Z.of_nat (length batch) <= batch_size) batches.
Proof.
  intros Hpos.
  set (b := Z.to_nat batch_size).
  assert (Hb : (0 < b)%nat) by lia.
  replace batch_size with (Z.of_nat b) by lia.
  destruct (batch_files_windows items b Hb) as (Heq & _ & Hfull).
  eexists. split; [exact Heq|]. split.
  - rewrite length_map, length_seq.
    destruct (Nat.ltb_spec 0 (length items)) as [Hn|Hn].
    + replace (Z.of_nat (length items) + Z.of_nat b - 1)
        with (Z.of_nat (length items - 1) + 1 * Z.of_nat b) by lia.
      rewrite Z.div_add by lia. rewrite Nat2Z.inj_succ, Nat2Z.inj_div. lia.
    + replace (length items) with 0%nat by lia. simpl.
      rewrite Z.div_small; lia.
  - apply Forall_forall. intros batch Hin.
    apply in_map_iff in Hin. destruct Hin as (k & <- & Hk). apply in_seq in Hk.
    rewrite length_firstn, length_skipn.
    assert (Hlt : (k * b < length items)%nat).
    { destruct (Nat.ltb_spec 0 (length items)) as [Hn|Hn]; [|lia].
      destruct k as [|k]; [simpl; lia|].
      assert (Hk' : (S k <= (length items - 1) / b)%nat) by lia.
      apply (Nat.mul_le_mono_r _ _ b) in Hk'.
      pose proof (Nat.Div0.mul_div_le (length items - 1) b). lia. }
    lia.
Qed.

Lemma batch_count_and_sizes_witness :
  0 < 2
  /\ exists batches,
      batch_files [10; 20; 30; 40; 50] 2 = Ok batches
      /\ Z.of_nat (length batches) = (Z.of_nat (length [10; 20; 30; 40; 50]) + 2 - 1) / 2
      /\ Forall (fun batch => 1 <= Z.of_nat (length batch) <= 2) batches.
Proof.
  split; [lia|]. apply (batch_count_and_sizes [10; 20; 30; 40; 50] 2). lia.
Defined.

Lemma batch_files_one_batch {A} (items : list A) (batch_size : Z) :
  items <> [] ->
  Z.of_nat (length items) <= batch_size ->
  batch_files items batch_size = Ok [items].
Proof.
  intros Hne Hsize.
  assert (Hn : (0 < length items)%nat) by (destruct items; [congruence|simpl; lia]).
  set (b := Z.to_nat batch_size).
  assert (Hb : (0 < b)%nat) by lia.
  replace batch_size with (Z.of_nat b) by lia.
  destruct (batch_files_step items b Hb Hne) as (batches & Hrest & ->).
  rewrite skipn_all2 in Hrest by lia.
  rewrite batch_files_nil in Hrest by lia. injection Hrest as <-.
  rewrite firstn_all2 by lia. reflexivity.
Qed.

(** X2.  A batch size at least the number of items, as the default batch
    size is, puts a non-empty sequence into one batch. *)
Theorem batch_size_covering_all_items {A} (items : list A) (batch_size : Z) :
  items <> [] ->
  Z.of_nat (length items) <= batch_size ->
  batch_files items batch_size = Ok [items].
Proof. apply batch_files_one_batch. Qed.

Lemma batch_size_covering_all_items_witness :
  [10; 20; 30] <> []
  /\ Z.of_nat (length [10; 20; 30]) <= 3
  /\ batch_files [10; 20; 30] 3 = Ok [[10; 20; 30]].
Proof.
  split; [discriminate|]. split; [simpl; lia|].
  apply (batch_size_covering_all_items [10; 20; 30] 3); [discriminate|simpl; lia].
Defined.

Lemma batch_files_app_full {A} (b m : nat) :
  (0 < b)%nat ->
  forall (l1 l2 : list A),
    length l1 = (m * b)%nat ->
    exists batches1 batches2,
      batch_files l1 (Z.of_nat b) = Ok batches1
      /\ batch_files l2 (Z.of_nat b) = Ok batches2
      /\ batch_files (l1 ++ l2) (Z.of_nat b) = Ok (batches1 ++ batches2).
Proof.
  intros Hb. induction m as [|m IH]; intros l1 l2 Hlen.
  - destruct l1; [|discriminate]. simpl.
    destruct (batch_files_positive l2 (Z.of_nat b)) as (batches2 & H2 & _); [lia|].
    exists [], batches2. rewrite batch_files_nil by lia. auto.
  - assert (Hne : l1 <> []) by (intros ->; simpl in Hlen; lia).
    assert (Hne' : l1 ++ l2 <> []) by (destruct l1; [congruence|discriminate]).
    destruct (batch_files_step l1 b Hb Hne) as (r1 & Hr1 & H1).
    destruct (batch_files_step (l1 ++ l2) b Hb Hne') as (r & Hr & H).
    destruct (IH (skipn b l1) l2) as (batches1 & batches2 & E1 & E2 & E).
    { rewrite length_skipn. simpl in Hlen. lia. }
    rewrite skipn_app in Hr.
    replace (b - length l1)%nat with 0%nat in Hr by (simpl in Hlen; lia).
    simpl skipn in Hr.
    rewrite Hr1 in E1. injection E1 as ->. rewrite Hr in E. injection E as ->.
    exists (firstn b l1 :: batches1), batches2.
    split; [exact H1|]. split; [exact E2|]. rewrite H.
    rewrite firstn_app.
    replace (b - length l1)%nat with 0%nat by (simpl in Hlen; lia).
    simpl. now rewrite app_nil_r.
Qed.

(** X3.  Batching distributes over concatenation at a batch boundary:
    when the first part is a whole number of batches long, the batches of
    the concatenation are the batches of the first part followed by the
    batches of the second. *)
Theorem batches_of_concatenation {A} (l1 l2 : list A) (batch_size m : Z) :
  0 < batch_size -> 0 <= m ->
  Z.of_nat (length l1) = m * batch_size ->
  exists batches1 batches2,
    batch_files l1 batch_size = Ok batches1
    /\ batch_files l2 batch_size = Ok batches2
    /\ batch_files (l1 ++ l2) batch_size = Ok (batches1 ++ batches2).
Proof.
  intros Hpos Hm Hlen.
  replace batch_size with (Z.of_nat (Z.to_nat batch_size)) by lia.
  apply (batch_files_app_full (Z.to_nat batch_size) (Z.to_nat m)); [lia|].
  apply Nat2Z.inj. rewrite Hlen, Nat2Z.inj_mul. lia.
Qed.

Lemma batches_of_concatenation_witness :
  0 < 2 /\ 0 <= 2
  /\ Z.of_nat (length [1; 2; 3; 4]) = 2 * 2
  /\ exists batches1 batches2,
      batch_files [1; 2; 3; 4] 2 = Ok batches1
      /\ batch_files [5; 6; 7] 2 = Ok batches2
      /\ batch_files ([1; 2; 3; 4] ++ [5; 6; 7]) 2 = Ok (batches1 ++ batches2).
Proof.
  split; [lia|]. split; [lia|]. split; [reflexivity|].
  apply (batches_of_concatenation [1; 2; 3; 4] [5; 6; 7] 2 2); [lia|lia|reflexivity].
Defined.

(** ** [get_phrases] *)

Section GetPhrasesFacts.

Variable Rank : Type.
Variable nlp : string -> list (TRPhrase Rank).

Lemma take_phrases_empty (limit : option Z) (phrases : list (TRPhrase Rank)) :
  take_phrases limit phrases [] = [] <-> phrases = [].
Proof.
  destruct limit as [k|].
  - rewrite take_phrases_limited. simpl.
    destruct phrases as [|phrase rest]; [rewrite firstn_nil; tauto|].
    replace (Z.to_nat (Z.max 1 (k - 0))) with (S (Z.to_nat (Z.max 1 (k - 0)) - 1)) by lia.
    simpl. split; discriminate.
  - rewrite take_phrases_unlimited. simpl.
    destruct phrases; simpl; split; congruence.
Qed.

(** X4.  With a limit [k], whatever its sign, [get_phrases] returns for
    every text, in the order of the texts, the first [max(1, k)] phrases of
    what it returns without a limit: a limit below one acts as a limit of
    one. *)
Theorem get_phrases_with_limit (texts : list string) (k : Z) :
  get_phrases nlp texts (Some k)
  = map (firstn (Z.to_nat (Z.max 1 k))) (get_phrases nlp texts None)
  /\ length (get_phrases nlp texts (Some k)) = length texts.
Proof.
  unfold get_phrases, nlp_pipe. split.
  - rewrite !map_map. apply map_ext. intros t.
    rewrite take_phrases_limited, take_phrases_unlimited. simpl.
    rewrite Z.sub_0_r. now rewrite firstn_map.
  - now rewrite !length_map.
Qed.

(** X5.  Whatever the limit, the phrase list of a text is empty exactly
    when the extractor finds no phrase in the text: the limit never empties
    a phrase list. *)
Theorem phrase_list_empty_iff_no_phrase (texts : list string) (limit : option Z) :
  Forall2 (fun t phrase_list => phrase_list = [] <-> nlp t = [])
          texts (get_phrases nlp texts limit).
Proof.
  unfold get_phrases, nlp_pipe. induction texts as [|t rest IH]; simpl.
  - constructor.
  - constructor; [apply take_phrases_empty|exact IH].
Qed.

End GetPhrasesFacts.

(** ** [batched_file_process_iter] *)

Section PipelineMore.

Variable Rank : Type.
Variable nlp : string -> list (TRPhrase Rank).

Lemma run_batches_first_failure (s : fs) (limit : option Z) (b : nat) (e : exn)
      (bad : path) (rest : list path) :
  (0 < b)%nat ->
  open_read s bad = Err e ->
  forall (n : nat) (good : list path) (batches : list (list path)),
    length good = n ->
    Forall (fun file => is_file s file = true) good ->
    batch_files (good ++ bad :: rest) (Z.of_nat b) = Ok batches ->
    run_batches Rank nlp s limit batches
    = (map EvRead (good ++ [bad]),
       map (file_phrases Rank nlp s limit) (firstn (b * (n / b)) good),
       Raised e).
Proof.
  intros Hb Hbad n. induction n as [n IH] using lt_wf_ind.
  intros good batches Hlen Hgood Hbatches.
  assert (Hne : good ++ bad :: rest <> []) by (destruct good; discriminate).
  destruct (batch_files_step _ b Hb Hne) as (batches' & Hrest & Hall).
  rewrite Hall in Hbatches. injection Hbatches as <-.
  destruct (Nat.lt_ge_cases n b) as [Hlt|Hge].
  - rewrite firstn_app, firstn_all2 by lia.
    replace (b - length good)%nat with (S (b - length good - 1)) by lia.
    simpl firstn. simpl run_batches.
    rewrite (read_batch_first_failure s good bad _ e Hgood Hbad).
    rewrite Nat.div_small by lia. rewrite Nat.mul_0_r. reflexivity.
  - rewrite firstn_app in *. rewrite skipn_app in Hrest.
    replace (b - length good)%nat with 0%nat in * by lia.
    simpl in Hrest. simpl firstn. rewrite app_nil_r.
    simpl run_batches.
    assert (Hfirst : Forall (fun file => is_file s file = true) (firstn b good)).
    { apply Forall_forall. intros f Hf. apply in_firstn in Hf.
      revert f Hf. now apply Forall_forall. }
    assert (Hskip : Forall (fun file => is_file s file = true) (skipn b good)).
    { apply Forall_forall. intros f Hf. apply in_skipn in Hf.
      revert f Hf. now apply Forall_forall. }
    destruct (read_batch_files Rank nlp s _ Hfirst) as (texts & -> & Hget).
    rewrite (IH (n - b)%nat) with (good := skipn b good);
      [|lia|rewrite length_skipn; lia|exact Hskip|exact Hrest].
    rewrite Hget, <- !map_app, <- firstn_add_skipn, app_assoc, firstn_skipn.
    replace (b + b * ((n - b) / b))%nat with (b * (n / b))%nat; [reflexivity|].
    replace n with ((n - b) + 1 * b)%nat at 1 by lia.
    rewrite Nat.div_add by lia. lia.
Qed.

(** X6.  A first unreadable file ends the pipeline with the error of
    opening it.  The files before it and that file are the ones opened,
    in order; no later file is.  The phrase lists yielded before the
    error are those of the files in the whole batches before the batch of
    the unreadable file, so how many results precede the error depends on
    the batch size. *)
Theorem first_unreadable_file_ends_the_pipeline
        (s : fs) (good : list path) (bad : path) (rest : list path) (e : exn)
        (batch_size limit : option Z) :
  Forall (fun file => is_file s file = true) good ->
  open_read s bad = Err e ->
  0 < effective_batch_size (good ++ bad :: rest) batch_size ->
  let b := Z.to_nat (effective_batch_size (good ++ bad :: rest) batch_size) in
  batched_file_process_iter Rank nlp s (good ++ bad :: rest) batch_size limit
  = (map EvRead (good ++ [bad]),
     map (file_phrases Rank nlp s limit) (firstn (b * (length good / b)) good),
     Raised e).
Proof.
  intros Hgood Hbad Hpos b. unfold batched_file_process_iter.
  assert (Hb : (0 < b)%nat) by (subst b; lia).
  replace (effective_batch_size (good ++ bad :: rest) batch_size) with (Z.of_nat b)
    by (subst b; lia).
  destruct (batch_files_positive (good ++ bad :: rest) (Z.of_nat b)) as (batches & Hbs & _);
    [lia|].
  rewrite Hbs.
  now apply (run_batches_first_failure s limit b e bad rest Hb Hbad (length good) good).
Qed.

(** X7.  The first [next] of the generator, for a positive effective
    batch size, opens the files of the first batch, all of them and no
    other, before it yields the phrase list of the first file; the phrase
    lists of the rest of that batch wait in the generator. *)
Theorem first_pull_reads_the_first_batch
        (s : fs) (first : path) (rest : list path) (batch_size limit : option Z) :
  0 < effective_batch_size (first :: rest) batch_size ->
  let b := Z.to_nat (effective_batch_size (first :: rest) batch_size) in
  Forall (fun file => is_file s file = true) (firstn b (first :: rest)) ->
  exists batches,
    batch_files (skipn b (first :: rest)) (Z.of_nat b) = Ok batches
    /\ gen_next Rank nlp s limit (GStart (first :: rest) batch_size)
       = (map EvRead (firstn b (first :: rest)),
          Yield (file_phrases Rank nlp s limit first)
                (GRun (map (file_phrases Rank nlp s limit) (firstn (b - 1) rest))
                      batches)).
Proof.
  intros Hpos b Hfirst.
  assert (Hb : (0 < b)%nat) by (subst b; lia).
  destruct (batch_files_step (first :: rest) b Hb) as (batches & Hrest & Hall);
    [discriminate|].
  exists batches. split; [exact Hrest|].
  unfold gen_next.
  replace (effective_batch_size (first :: rest) batch_size) with (Z.of_nat b)
    by (subst b; lia).
  rewrite Hall. simpl resume.
  destruct (read_batch_files Rank nlp s _ Hfirst) as (texts & -> & Hget).
  rewrite Hget.
  assert (Hsplit : firstn b (first :: rest) = first :: firstn (b - 1) rest).
  { replace b with (S (b - 1)) at 1 by lia. reflexivity. }
  rewrite Hsplit. simpl. destruct batches; simpl; now rewrite app_nil_r.
Qed.

End PipelineMore.

Lemma first_unreadable_file_ends_the_pipeline_witness :
  Forall (fun file => is_file Sample.docs file = true) Sample.texts
  /\ open_read Sample.docs ["docs"; "sub"]%string
     = Err (IsADirectoryError ["docs"; "sub"]%string)
  /\ 0 < effective_batch_size (Sample.texts ++ [["docs"; "sub"]; ["docs"; "notes.md"]]%string)
                              (Some 2)
  /\ batched_file_process_iter unit Sample.letters Sample.docs
       (Sample.texts ++ [["docs"; "sub"]; ["docs"; "notes.md"]]%string) (Some 2) None
     = (map EvRead (Sample.texts ++ [["docs"; "sub"]%string]),
        map (file_phrases unit Sample.letters Sample.docs None)
            (firstn (2 * (length Sample.texts / 2)) Sample.texts),
        Raised (IsADirectoryError ["docs"; "sub"]%string)).
Proof.
  assert (H1 : Forall (fun file => is_file Sample.docs file = true) Sample.texts)
    by (repeat constructor).
  assert (H2 : open_read Sample.docs ["docs"; "sub"]%string
               = Err (IsADirectoryError ["docs"; "sub"]%string)) by reflexivity.
  assert (H3 : 0 < effective_batch_size
                     (Sample.texts ++ [["docs"; "sub"]; ["docs"; "notes.md"]]%string)
                     (Some 2)) by (simpl; lia).
  split; [exact H1|]. split; [exact H2|]. split; [exact H3|].
  exact (first_unreadable_file_ends_the_pipeline
           unit Sample.letters Sample.docs Sample.texts ["docs"; "sub"]%string
           [["docs"; "notes.md"]%string] _ (Some 2) None H1 H2 H3).
Defined.

Lemma first_pull_reads_the_first_batch_witness :
  0 < effective_batch_size Sample.texts None
  /\ Forall (fun file => is_file Sample.docs file = true) (firstn 2 Sample.texts)
  /\ exists batches,
      batch_files (skipn 2 Sample.texts) 2 = Ok batches
      /\ gen_next unit Sample.letters Sample.docs None (GStart Sample.texts None)
         = (map EvRead (firstn 2 Sample.texts),
            Yield (file_phrases unit Sample.letters Sample.docs None ["docs"; "a.txt"]%string)
                  (GRun (map (file_phrases unit Sample.letters Sample.docs None)
                             (firstn 1 [["docs"; "b.txt"]%string]))
                        batches)).
Proof.
  assert (H1 : 0 < effective_batch_size Sample.texts None) by (simpl; lia).
  assert (H2 : Forall (fun file => is_file Sample.docs file = true) (firstn 2 Sample.texts))
    by (repeat constructor).
  split; [exact H1|]. split; [exact H2|].
  exact (first_pull_reads_the_first_batch
           unit Sample.letters Sample.docs ["docs"; "a.txt"]%string
           [["docs"; "b.txt"]%string] None None H1 H2).
Defined.

(** ** [text_rank]: what a run touches *)

Section Touches.

Variable Rank : Type.
Variable nlp : string -> list (TRPhrase Rank).
Variable csv_text : PhraseList Rank -> string.

(** X8.  However a run of [text_rank] ends, every path that is not at or
    below the output path holds the entry it held before, and no entry
    has been removed or changed from file to directory or back. *)
Theorem text_rank_changes_the_output_tree_only
        (fuel : nat) (s : fs) (input_path output_path : path) (recursive : bool)
        (sfx : string) (limit batch_size : option Z)
        (s' : fs) (evs : list event) (o : outcome) :
  text_rank Rank nlp csv_text fuel s input_path output_path recursive sfx
            limit batch_size = (s', evs, o) ->
  (forall p, is_prefix output_path p = false -> lookup s' p = lookup s p)
  /\ kinds_kept s s'.
Proof.
  intros Hrun. apply text_rank_writes_below in Hrun. split.
  - intros p Hp. eapply writes_below_outside; eassumption.
  - eapply writes_below_kinds; exact Hrun.
Qed.

Lemma read_batch_events (s : fs) (batch : list path) :
  forall ev, In ev (fst (read_batch s batch)) -> exists f, In f batch /\ ev = EvRead f.
Proof.
  induction batch as [|file rest IH]; simpl; intros ev Hev.
  - destruct Hev.
  - destruct (open_read s file) as [content|e].
    + destruct (read_batch s rest) as [evs r]. simpl in *.
      destruct Hev as [<-|Hev]; [eauto|].
      destruct (IH ev Hev) as (f & Hf & ->). eauto.
    + simpl in Hev. destruct Hev as [<-|[]]. eauto.
Qed.

Lemma resume_events (s : fs) (limit : option Z) (batches : list (list path)) :
  forall pending ev,
    In ev (fst (resume Rank nlp s limit pending batches)) ->
    exists f, In f (concat batches) /\ ev = EvRead f.
Proof.
  induction batches as [|batch batches IH]; intros pending ev; simpl.
  - destruct pending; simpl; intros [].
  - destruct pending; [|simpl; intros []].
    pose proof (read_batch_events s batch) as Hread.
    destruct (read_batch s batch) as [evs [texts|e]]; simpl in *.
    + specialize (IH (get_phrases nlp texts limit)).
      destruct (resume Rank nlp s limit (get_phrases nlp texts limit) batches)
        as [evs' r]. simpl in *.
      intros Hev. apply in_app_or in Hev. destruct Hev as [Hev|Hev].
      * destruct (Hread ev Hev) as (f & Hf & ->). exists f. split; [|reflexivity].
        apply in_or_app. auto.
      * destruct (IH ev Hev) as (f & Hf & ->). exists f. split; [|reflexivity].
        apply in_or_app. auto.
    + intros Hev. destruct (Hread ev Hev) as (f & Hf & ->). exists f.
      split; [|reflexivity]. apply in_or_app. auto.
Qed.

Lemma gen_next_events (s : fs) (limit : option Z) (g : gen_state Rank) :
  forall ev, In ev (fst (gen_next Rank nlp s limit g)) ->
             exists f, In f (gen_files g) /\ ev = EvRead f.
Proof.
  destruct g as [file_paths batch_size|pending batches]; simpl.
  - destruct (batch_files file_paths (effective_batch_size file_paths batch_size))
      as [batches|e] eqn:Hb; simpl; [|intros ev []].
    intros ev Hev. destruct (resume_events s limit batches [] ev Hev) as (f & Hf & ->).
    exists f. split; [|reflexivity]. eapply batch_files_incl; eassumption.
  - apply resume_events.
Qed.

Lemma process_files_events (w : bool) (input_path output_path : path)
      (limit : option Z) (input_files : list path) :
  forall (s : fs) (g : gen_state Rank) (s' : fs) (evs : list event) (o : outcome),
    (forall f, In f (gen_files g) -> is_prefix input_path f = true) ->
    process_files Rank nlp csv_text s w output_path limit input_files g = (s', evs, o) ->
    Forall (fun ev => event_within input_path output_path ev = true) evs.
Proof.
  induction input_files as [|file_path rest IH]; intros s g s' evs o Hfiles; simpl.
  - intros [= _ <- _]. constructor.
  - pose proof (gen_next_events s limit g) as Hgen.
    pose proof (gen_next_files Rank nlp s limit g) as Hnext.
    destruct (gen_next Rank nlp s limit g) as [evs0 [phrases g'| |e]]; simpl in Hgen.
    + assert (H0 : Forall (fun ev => event_within input_path output_path ev = true) evs0).
      { apply Forall_forall. intros ev Hev. destruct (Hgen ev Hev) as (f & Hf & ->).
        simpl. auto. }
      assert (Hfiles' : forall f, In f (gen_files g') -> is_prefix input_path f = true)
        by (intros f Hf; apply Hfiles; eapply Hnext; [reflexivity|exact Hf]).
      destruct phrases as [|phrase phrases].
      * destruct (process_files Rank nlp csv_text s w output_path limit rest g')
          as [[s1 evs1] o1] eqn:Hrest.
        intros [= _ <- _]. apply Forall_app. split; [exact H0|].
        constructor; [reflexivity|]. eapply IH; eassumption.
      * assert (Hwarn : Forall (fun ev => event_within input_path output_path ev = true)
                               (if is_file s (curr_output_path w output_path file_path)
                                then [EvWarn (exists_warning output_path)] else []))
          by (destruct (is_file s _); repeat constructor).
        destruct (open_write s (curr_output_path w output_path file_path)
                             (csv_text (phrase :: phrases))) as [s1|e].
        -- destruct (process_files Rank nlp csv_text s1 w output_path limit rest g')
             as [[s2 evs2] o2] eqn:Hrest.
           intros [= _ <- _]. apply Forall_app. split; [exact H0|].
           apply Forall_app. split; [exact Hwarn|].
           constructor; [apply curr_output_path_below|]. eapply IH; eassumption.
        -- intros [= _ <- _]. apply Forall_app. auto.
    + intros [= _ <- _]. apply Forall_forall. intros ev Hev.
      destruct (Hgen ev Hev) as (f & Hf & ->). simpl. auto.
    + intros [= _ <- _]. apply Forall_forall. intros ev Hev.
      destruct (Hgen ev Hev) as (f & Hf & ->). simpl. auto.
Qed.

Lemma event_within_weaken (input_path output_path d out' : path) (ev : event) :
  is_prefix input_path d = true -> is_prefix output_path out' = true ->
  event_within d out' ev = true -> event_within input_path output_path ev = true.
Proof.
  intros Hd Ho. destruct ev; simpl; auto; intros H; eapply is_prefix_trans; eassumption.
Qed.

Lemma own_files_events (s : fs) (input_path output_path : path) (sfx : string)
      (limit batch_size : option Z) (s' : fs) (evs : list event) (o : outcome) (w : bool) :
  own_files Rank nlp csv_text s input_path output_path sfx limit batch_size
  = ((s', evs, o), w) ->
  Forall (fun ev => event_within input_path output_path ev = true) evs.
Proof.
  unfold own_files.
  destruct (select_inputs s input_path output_path sfx)
    as [[[s0 input_files] w0]|e] eqn:Hsel.
  - intros [= Hrun _]. eapply process_files_events; [|exact Hrun].
    simpl. intros f Hf. unfold select_inputs in Hsel.
    destruct (is_file s input_path).
    + injection Hsel as _ <- _. destruct Hf as [<-|[]]. apply is_prefix_refl.
    + destruct (iterdir s input_path) as [listing|e] eqn:Hit; [|discriminate].
      destruct (mkdir s output_path); [|discriminate].
      injection Hsel as _ <- _. apply filter_In in Hf. destruct Hf as [Hf _].
      apply iterdir_listing in Hit. destruct Hit as [-> _].
      apply child_listed in Hf. destruct Hf as [_ ->]. apply is_prefix_app.
  - intros [= _ <- _ _]. constructor.
Qed.

Lemma visit_dirs_events (call : fs -> path -> path -> run) (input_path output_path : path) :
  (forall s d out' s' evs o,
      call s d out' = (s', evs, o) ->
      Forall (fun ev => event_within d out' ev = true) evs) ->
  forall (listing : list path) (s s' : fs) (evs : list event) (o : outcome),
    (forall d, In d listing -> is_prefix input_path d = true) ->
    visit_dirs call s output_path listing = (s', evs, o) ->
    Forall (fun ev => event_within input_path output_path ev = true) evs.
Proof.
  intros Hcall. induction listing as [|d rest IH]; intros s s' evs o Hin; simpl.
  - intros [= _ <- _]. constructor.
  - destruct (is_dir s d); simpl; [|apply IH; intros; apply Hin; now right].
    destruct (call s d (joinpath output_path (name d))) as [[s1 evs1] o1] eqn:Hc.
    apply Hcall in Hc.
    assert (H1 : Forall (fun ev => event_within input_path output_path ev = true) evs1).
    { eapply Forall_impl; [|exact Hc]. intros ev.
      apply event_within_weaken; [apply Hin; now left|apply is_prefix_app]. }
    destruct o1.
    + destruct (visit_dirs call s1 output_path rest) as [[s2 evs2] o2] eqn:Hrest.
      intros [= _ <- _]. apply Forall_app. split; [exact H1|].
      eapply IH; [|exact Hrest]. intros; apply Hin; now right.
    + intros [= _ <- _]. exact H1.
    + intros [= _ <- _]. exact H1.
Qed.

Lemma text_rank_events (fuel : nat) :
  forall (s : fs) (input_path output_path : path) (recursive : bool) (sfx : string)
         (limit batch_size : option Z) (s' : fs) (evs : list event) (o : outcome),
    text_rank Rank nlp csv_text fuel s input_path output_path recursive sfx
              limit batch_size = (s', evs, o) ->
    Forall (fun ev => event_within input_path output_path ev = true) evs.
Proof.
  induction fuel as [|fuel IH]; intros s input_path output_path recursive sfx
                                       limit batch_size s' evs o; simpl.
  - intros [= _ <- _]. constructor.
  - destruct (own_files Rank nlp csv_text s input_path output_path sfx limit batch_size)
      as [[[s1 evs1] o1] w] eqn:Hown.
    apply own_files_events in Hown.
    destruct o1; try (intros [= _ <- _]; exact Hown).
    destruct (negb recursive || w); [intros [= _ <- _]; exact Hown|].
    destruct (iterdir s1 input_path) as [listing|e] eqn:Hit; [|intros [= _ <- _]; exact Hown].
    destruct (visit_dirs _ s1 output_path listing) as [[s2 evs2] o2] eqn:Hvisit.
    intros [= _ <- _]. apply Forall_app. split; [exact Hown|].
    eapply visit_dirs_events; [| |exact Hvisit].
    + intros s0 d out' s0' evs0 o0. apply IH.
    + intros d Hd. apply iterdir_listing in Hit. destruct Hit as [-> _].
      apply child_listed in Hd. destruct Hd as [_ ->]. apply is_prefix_app.
Qed.

(** X9.  However a run of [text_rank] ends, every file it opened for
    reading is the input path or lies below it, and every file it wrote is
    the output path or lies below it. *)
Theorem text_rank_reads_input_writes_output
        (fuel : nat) (s : fs) (input_path output_path : path) (recursive : bool)
        (sfx : string) (limit batch_size : option Z)
        (s' : fs) (evs : list event) (o : outcome) :
  text_rank Rank nlp csv_text fuel s input_path output_path recursive sfx
            limit batch_size = (s', evs, o) ->
  (forall p, In (EvRead p) evs -> is_prefix input_path p = true)
  /\ (forall p data, In (EvWrite p data) evs -> is_prefix output_path p = true).
Proof.
  intros Hrun. apply text_rank_events in Hrun.
  pose proof (proj1 (Forall_forall _ _) Hrun) as H.
  split; [intros p Hp|intros p data Hp]; exact (H _ Hp).
Qed.

End Touches.

Lemma text_rank_changes_the_output_tree_only_witness :
  text_rank unit Sample.letters Sample.csv 3 Sample.docs ["docs"%string] ["out"%string]
            true ".txt" None None
  = (fst (fst Sample.first_run), snd (fst Sample.first_run), Done)
  /\ (forall p, is_prefix ["out"%string] p = false ->
                lookup (fst (fst Sample.first_run)) p = lookup Sample.docs p)
  /\ kinds_kept Sample.docs (fst (fst Sample.first_run)).
Proof.
  assert (H : text_rank unit Sample.letters Sample.csv 3 Sample.docs
                        ["docs"%string] ["out"%string] true ".txt" None None
              = (fst (fst Sample.first_run), snd (fst Sample.first_run), Done))
    by reflexivity.
  split; [exact H|].
  exact (text_rank_changes_the_output_tree_only
           unit Sample.letters Sample.csv 3 Sample.docs ["docs"%string] ["out"%string]
           true ".txt" None None _ _ _ H).
Defined.

Lemma text_rank_reads_input_writes_output_witness :
  text_rank unit Sample.letters Sample.csv 3 Sample.docs ["docs"%string] ["out"%string]
            true ".txt" None None
  = (fst (fst Sample.first_run), snd (fst Sample.first_run), Done)
  /\ (forall p, In (EvRead p) (snd (fst Sample.first_run)) ->
                is_prefix ["docs"%string] p = true)
  /\ (forall p data, In (EvWrite p data) (snd (fst Sample.first_run)) ->
                     is_prefix ["out"%string] p = true).
Proof.
  assert (H : text_rank unit Sample.letters Sample.csv 3 Sample.docs
                        ["docs"%string] ["out"%string] true ".txt" None None
              = (fst (fst Sample.first_run), snd (fst Sample.first_run), Done))
    by reflexivity.
  split; [exact H|].
  exact (text_rank_reads_input_writes_output
           unit Sample.letters Sample.csv 3 Sample.docs ["docs"%string] ["out"%string]
           true ".txt" None None _ _ _ H).
Defined.

(** ** [text_rank]: single files, failures at the start, odd batch sizes *)

(** *** The error on a missing path *)

Lemma ancestors_from_app (above p q : path) :
  ancestors_from above (p ++ q)
  = ancestors_from above p ++ ancestors_from (above ++ p) q.
Proof.
  revert above. induction p as [|c p IH]; intros above; simpl.
  - now rewrite app_nil_r.
  - rewrite IH, <- app_assoc. reflexivity.
Qed.

Lemma find_after {A} (f : A -> bool) (l1 l2 : list A) :
  Forall (fun x => f x = false) l1 -> find f (l1 ++ l2) = find f l2.
Proof.
  induction 1 as [|x l1 Hx _ IH]; simpl; [reflexivity|]. now rewrite Hx.
Qed.

Lemma missing_error_below_directories (s : fs) (p : path) :
  Forall (fun q => is_dir s q = true) (ancestors p) ->
  missing_error s p = FileNotFoundError p.
Proof.
  intros Hdirs. unfold missing_error.
  destruct (find _ (ancestors p)) as [q|] eqn:Hfind; [|reflexivity].
  apply find_some in Hfind. destruct Hfind as [Hin Hq].
  rewrite Forall_forall in Hdirs. now rewrite (Hdirs q Hin) in Hq.
Qed.

Lemma missing_error_below_file (s : fs) (above below : path) :
  is_file s above = true ->
  Forall (fun q => is_dir s q = true) (ancestors above) ->
  below <> [] ->
  missing_error s (above ++ below) = NotADirectoryError (above ++ below).
Proof.
  intros Hfile Hdirs Hbelow. unfold missing_error, ancestors.
  rewrite ancestors_from_app, find_after.
  - destruct below as [|c below]; [contradiction|].
    assert (Hnot : is_dir s above = false).
    { unfold is_file in Hfile. unfold is_dir.
      destruct (lookup s above) as [[content|]|]; congruence. }
    cbn [ancestors_from app find]. rewrite Hnot. cbn [negb]. now rewrite Hfile.
  - eapply Forall_impl; [|exact Hdirs]. intros q Hq. simpl in Hq. now rewrite Hq.
Qed.

Section Modes.

Variable Rank : Type.
Variable nlp : string -> list (TRPhrase Rank).
Variable csv_text : PhraseList Rank -> string.

Lemma single_file_pull (s : fs) (input_path : path) (content : string)
      (limit batch_size : option Z) :
  lookup s input_path = Some (File content) ->
  0 < effective_batch_size [input_path] batch_size ->
  gen_next Rank nlp s limit (GStart [input_path] batch_size)
  = ([EvRead input_path], Yield (take_phrases limit (nlp content) []) (GRun [] [])).
Proof.
  intros Hlook Hpos. unfold gen_next.
  rewrite (batch_files_one_batch [input_path]); [|discriminate|simpl; lia].
  simpl. unfold open_read. rewrite Hlook. reflexivity.
Qed.

(** X10.  When the input path is a file and the batch size is unspecified
    or positive, [text_rank] does the same whatever the suffix filter, the
    recursion flag and the depth allowed: it reads the file; with no phrase
    it warns and writes nothing; otherwise it writes the phrases to the
    output path itself, after a warning if that path is a file already,
    and the error of a write that cannot be made ends the run. *)
Theorem text_rank_on_a_single_file
        (fuel : nat) (s : fs) (input_path output_path : path) (recursive : bool)
        (sfx : string) (limit batch_size : option Z) (content : string) :
  lookup s input_path = Some (File content) ->
  batch_size = None \/ (exists b, batch_size = Some b /\ 0 < b) ->
  text_rank Rank nlp csv_text (S fuel) s input_path output_path recursive sfx
            limit batch_size
  = match take_phrases limit (nlp content) [] with
    | [] => (s, [EvRead input_path; EvWarn (empty_warning output_path)], Done)
    | phrase :: phrases =>
        let warned :=
          if is_file s output_path then [EvWarn (exists_warning output_path)] else [] in
        match open_write s output_path (csv_text (phrase :: phrases)) with
        | Ok s' =>
            (s', EvRead input_path
                   :: warned ++ [EvWrite output_path (csv_text (phrase :: phrases))],
             Done)
        | Err e => (s, EvRead input_path :: warned, Raised e)
        end
    end.
Proof.
  intros Hlook Hsize.
  assert (Hpos : 0 < effective_batch_size [input_path] batch_size)
    by (destruct Hsize as [->|(b & -> & Hb)]; simpl; lia).
  assert (Hfile : is_file s input_path = true) by (unfold is_file; now rewrite Hlook).
  pose proof (single_file_pull s input_path content limit batch_size Hlook Hpos) as Hg.
  cbn [text_rank]. unfold own_files, select_inputs. rewrite Hfile.
  cbn [process_files]. rewrite Hg. unfold curr_output_path.
  destruct (take_phrases limit (nlp content) []) as [|phrase phrases].
  - now rewrite orb_true_r.
  - cbv zeta.
    destruct (open_write s output_path (csv_text (phrase :: phrases))) as [s1|e].
    + now rewrite orb_true_r.
    + reflexivity.
Qed.

(** X11.  When the input path has no entry, the run ends at once with
    the error of listing it: [FileNotFoundError] when every ancestor of the
    path is a directory, [NotADirectoryError] when the path lies below a
    regular file.  When the input path is a directory but the output
    directory cannot be made, the run ends at once with the error of
    [mkdir].  In all three cases no file is opened, no warning is given,
    nothing is written, and the file system is as it was; the input is
    listed before the output directory is made, so for a missing input the
    output directory is not made either. *)
Theorem text_rank_fails_before_it_reads
        (fuel : nat) (s : fs) (input_path output_path : path) (recursive : bool)
        (sfx : string) (limit batch_size : option Z) (e : exn) (above below : path) :
  (lookup s input_path = None ->
   Forall (fun q => is_dir s q = true) (ancestors input_path) ->
   text_rank Rank nlp csv_text (S fuel) s input_path output_path recursive sfx
             limit batch_size
   = (s, [], Raised (FileNotFoundError input_path)))
  /\ (lookup s input_path = None ->
      input_path = above ++ below ->
      is_file s above = true ->
      Forall (fun q => is_dir s q = true) (ancestors above) ->
      text_rank Rank nlp csv_text (S fuel) s input_path output_path recursive sfx
                limit batch_size
      = (s, [], Raised (NotADirectoryError input_path)))
  /\ (is_dir s input_path = true -> mkdir s output_path = Err e ->
      text_rank Rank nlp csv_text (S fuel) s input_path output_path recursive sfx
                limit batch_size
      = (s, [], Raised e)).
Proof.
  split; [|split].
  - intros Hnone Hdirs. cbn [text_rank]. unfold own_files, select_inputs, is_file, iterdir.
    now rewrite Hnone, (missing_error_below_directories s input_path Hdirs).
  - intros Hnone -> Hfile Hdirs.
    assert (Hbelow : below <> []).
    { intros ->. rewrite app_nil_r in Hnone. unfold is_file in Hfile.
      now rewrite Hnone in Hfile. }
    cbn [text_rank]. unfold own_files, select_inputs, iterdir.
    rewrite (missing_error_below_file s above below Hfile Hdirs Hbelow).
    unfold is_file. now rewrite Hnone.
  - intros Hdir Hmk. cbn [text_rank]. unfold own_files, select_inputs, is_file, iterdir.
    unfold is_dir in Hdir. destruct (lookup s input_path) as [[c|]|]; try discriminate.
    now rewrite Hmk.
Qed.

Lemma process_files_negative_batch_size (s : fs) (w : bool) (output_path : path)
      (limit : option Z) (input_files file_paths : list path) (b : Z) :
  b < 0 ->
  process_files Rank nlp csv_text s w output_path limit input_files
                (GStart file_paths (Some b))
  = (s, [], Done).
Proof.
  intros Hb. destruct input_files as [|file_path rest]; simpl; [reflexivity|].
  now rewrite batch_files_negative.
Qed.

Lemma text_rank_negative_batch_size (b : Z) (fuel : nat) :
  b < 0 ->
  forall (s : fs) (input_path output_path : path) (recursive : bool) (sfx : string)
         (limit : option Z) (s' : fs) (evs : list event) (o : outcome),
    text_rank Rank nlp csv_text fuel s input_path output_path recursive sfx
              limit (Some b) = (s', evs, o) ->
    evs = [] /\ (forall p, is_file s' p = is_file s p).
Proof.
  intros Hb. induction fuel as [|fuel IH];
    intros s input_path output_path recursive sfx limit s' evs o; simpl.
  - intros [= <- <- _]. auto.
  - unfold own_files.
    destruct (select_inputs s input_path output_path sfx)
      as [[[s0 input_files] w]|e] eqn:Hsel; [|intros [= <- <- _]; auto].
    rewrite process_files_negative_batch_size by assumption.
    assert (H0 : forall p, is_file s0 p = is_file s p).
    { unfold select_inputs in Hsel. destruct (is_file s input_path).
      - now injection Hsel as <- _ _.
      - destruct (iterdir s input_path); [|discriminate].
        destruct (mkdir s output_path) as [s1|e] eqn:Hmk; [|discriminate].
        injection Hsel as <- _ _. intros p. eapply mkdir_files; exact Hmk. }
    destruct (negb recursive || w); [intros [= <- <- _]; auto|].
    destruct (iterdir s0 input_path) as [listing|e]; [|intros [= <- <- _]; auto].
    match goal with
    | |- context [visit_dirs ?c _ _ _] => set (call := c)
    end.
    assert (Hvisit : forall listing s1 s1' evs1 o1,
               visit_dirs call s1 output_path listing = (s1', evs1, o1) ->
               evs1 = [] /\ (forall p, is_file s1' p = is_file s1 p)).
    { clear -IH. induction listing as [|d rest IHl]; intros s1 s1' evs1 o1; simpl.
      - intros [= <- <- _]. auto.
      - destruct (is_dir s1 d); simpl; [|apply IHl].
        destruct (call s1 d (joinpath output_path (name d))) as [[s2 evs2] o2] eqn:Hc.
        apply IH in Hc. destruct Hc as [-> H2].
        destruct o2; try (intros [= <- <- _]; auto).
        destruct (visit_dirs call s2 output_path rest) as [[s3 evs3] o3] eqn:Hrest.
        apply IHl in Hrest. destruct Hrest as [-> H3].
        intros [= <- <- _]. split; [reflexivity|]. intros p. now rewrite H3. }
    destruct (visit_dirs call s0 output_path listing) as [[s2 evs2] o2] eqn:Hv.
    apply Hvisit in Hv. destruct Hv as [-> H2].
    intros [= <- <- _]. split; [reflexivity|]. intros p. now rewrite H2.
Qed.

(** X12.  With a negative batch size a run of [text_rank], recursive or
    not, opens no file, warns of nothing and writes nothing: whatever it
    did, no path has become a file or stopped being one. *)
Theorem text_rank_with_negative_batch_size
        (fuel : nat) (s : fs) (input_path output_path : path) (recursive : bool)
        (sfx : string) (limit : option Z) (b : Z)
        (s' : fs) (evs : list event) (o : outcome) :
  b < 0 ->
  text_rank Rank nlp csv_text fuel s input_path output_path recursive sfx
            limit (Some b) = (s', evs, o) ->
  evs = [] /\ (forall p, is_file s' p = is_file s p).
Proof. intros Hb. now apply text_rank_negative_batch_size. Qed.

(** X13.  With a batch size of zero, a run that has at least one file to
    process ends with [ValueError] before any file is opened: on a file
    the file system is left as it was, on a directory with a matching
    child the output directory has already been made. *)
Theorem text_rank_with_zero_batch_size
        (fuel : nat) (s s0 : fs) (input_path output_path : path) (recursive : bool)
        (sfx : string) (limit : option Z) (listing : list path) :
  (is_file s input_path = true ->
   text_rank Rank nlp csv_text (S fuel) s input_path output_path recursive sfx
             limit (Some 0)
   = (s, [], Raised ValueError))
  /\ (iterdir s input_path = Ok listing ->
      matching_suffix sfx listing <> [] ->
      mkdir s output_path = Ok s0 ->
      text_rank Rank nlp csv_text (S fuel) s input_path output_path recursive sfx
                limit (Some 0)
      = (s0, [], Raised ValueError)).
Proof.
  split.
  - intros Hfile. cbn [text_rank]. unfold own_files, select_inputs. rewrite Hfile.
    reflexivity.
  - intros Hit Hmatch Hmk. cbn [text_rank]. unfold own_files, select_inputs.
    assert (Hfile : is_file s input_path = false).
    { apply iterdir_listing in Hit. destruct Hit as [_ H]. unfold is_dir, is_file in *.
      destruct (lookup s input_path) as [[c|]|]; congruence. }
    rewrite Hfile, Hit, Hmk.
    destruct (matching_suffix sfx listing) as [|file rest]; [congruence|].
    reflexivity.
Qed.

End Modes.

Lemma text_rank_on_a_single_file_witness :
  lookup Sample.with_output ["docs"; "a.txt"]%string = Some (File "ab")
  /\ (@None Z = None \/ (exists b, None = Some b /\ 0 < b))
  /\ text_rank unit Sample.letters Sample.csv 1 Sample.with_output
               ["docs"; "a.txt"]%string ["out.csv"%string] true ".md" None None
     = (put Sample.with_output ["out.csv"%string] (File "a,b"),
        [EvRead ["docs"; "a.txt"]%string;
         EvWarn "File out.csv already exists, skipping";
         EvWrite ["out.csv"%string] "a,b"],
        Done).
Proof.
  assert (H1 : lookup Sample.with_output ["docs"; "a.txt"]%string = Some (File "ab"))
    by reflexivity.
  assert (H2 : @None Z = None \/ (exists b, None = Some b /\ 0 < b)) by (left; reflexivity).
  split; [exact H1|]. split; [exact H2|].
  exact (text_rank_on_a_single_file
           unit Sample.letters Sample.csv 0 Sample.with_output
           ["docs"; "a.txt"]%string ["out.csv"%string] true ".md" None None "ab" H1 H2).
Defined.

Lemma text_rank_fails_before_it_reads_witness :
  (lookup Sample.docs ["nowhere"%string] = None
   /\ Forall (fun q => is_dir Sample.docs q = true) (ancestors ["nowhere"%string])
   /\ text_rank unit Sample.letters Sample.csv 1 Sample.docs
                ["nowhere"%string] ["out"%string] true ".txt" None None
      = (Sample.docs, [], Raised (FileNotFoundError ["nowhere"%string])))
  /\ (lookup Sample.docs ["docs"; "a.txt"; "deeper"]%string = None
      /\ ["docs"; "a.txt"; "deeper"]%string = ["docs"; "a.txt"]%string ++ ["deeper"%string]
      /\ is_file Sample.docs ["docs"; "a.txt"]%string = true
      /\ Forall (fun q => is_dir Sample.docs q = true) (ancestors ["docs"; "a.txt"]%string)
      /\ text_rank unit Sample.letters Sample.csv 1 Sample.docs
                   ["docs"; "a.txt"; "deeper"]%string ["out"%string] true ".txt" None None
         = (Sample.docs, [], Raised (NotADirectoryError ["docs"; "a.txt"; "deeper"]%string)))
  /\ (is_dir Sample.docs ["docs"%string] = true
      /\ mkdir Sample.docs ["docs"; "a.txt"]%string
         = Err (FileExistsError ["docs"; "a.txt"]%string)
      /\ text_rank unit Sample.letters Sample.csv 1 Sample.docs
                   ["docs"%string] ["docs"; "a.txt"]%string true ".txt" None None
         = (Sample.docs, [], Raised (FileExistsError ["docs"; "a.txt"]%string))).
Proof.
  assert (H1 : Forall (fun q => is_dir Sample.docs q = true) (ancestors ["nowhere"%string]))
    by (repeat constructor).
  assert (H2 : Forall (fun q => is_dir Sample.docs q = true)
                      (ancestors ["docs"; "a.txt"]%string))
    by (repeat constructor).
  split; [|split].
  - split; [reflexivity|]. split; [exact H1|].
    exact (proj1 (text_rank_fails_before_it_reads
                    unit Sample.letters Sample.csv 0 Sample.docs
                    ["nowhere"%string] ["out"%string] true ".txt" None None ValueError
                    [] [])
                 eq_refl H1).
  - split; [reflexivity|]. split; [reflexivity|]. split; [reflexivity|]. split; [exact H2|].
    exact (proj1 (proj2 (text_rank_fails_before_it_reads
                           unit Sample.letters Sample.csv 0 Sample.docs
                           ["docs"; "a.txt"; "deeper"]%string ["out"%string] true ".txt"
                           None None ValueError
                           ["docs"; "a.txt"]%string ["deeper"%string]))
                 eq_refl eq_refl eq_refl H2).
  - split; [reflexivity|]. split; [reflexivity|].
    exact (proj2 (proj2 (text_rank_fails_before_it_reads
                           unit Sample.letters Sample.csv 0 Sample.docs
                           ["docs"%string] ["docs"; "a.txt"]%string true ".txt" None None
                           (FileExistsError ["docs"; "a.txt"]%string) [] []))
                 eq_refl eq_refl).
Defined.

Lemma text_rank_with_negative_batch_size_witness :
  -1 < 0
  /\ text_rank unit Sample.letters Sample.csv 3 Sample.docs ["docs"%string] ["out"%string]
               true ".txt" None (Some (-1))
     = (Sample.docs ++ [(["out"%string], Dir); (["out"; "sub"]%string, Dir)], [], Done)
  /\ @nil event = []
  /\ (forall p,
         is_file (Sample.docs ++ [(["out"%string], Dir); (["out"; "sub"]%string, Dir)]) p
         = is_file Sample.docs p).
Proof.
  assert (H1 : -1 < 0) by lia.
  assert (H2 : text_rank unit Sample.letters Sample.csv 3 Sample.docs
                         ["docs"%string] ["out"%string] true ".txt" None (Some (-1))
               = (Sample.docs ++ [(["out"%string], Dir); (["out"; "sub"]%string, Dir)],
                  [], Done)) by reflexivity.
  split; [exact H1|]. split; [exact H2|].
  exact (text_rank_with_negative_batch_size
           unit Sample.letters Sample.csv 3 Sample.docs ["docs"%string] ["out"%string]
           true ".txt" None (-1) _ _ _ H1 H2).
Defined.

Lemma text_rank_with_zero_batch_size_witness :
  (is_file Sample.docs ["docs"; "a.txt"]%string = true
   /\ text_rank unit Sample.letters Sample.csv 1 Sample.docs
                ["docs"; "a.txt"]%string ["out.csv"%string] false ".txt" None (Some 0)
      = (Sample.docs, [], Raised ValueError))
  /\ (iterdir Sample.docs ["docs"%string] = Ok (children Sample.docs ["docs"%string])
      /\ matching_suffix ".txt" (children Sample.docs ["docs"%string]) <> []
      /\ mkdir Sample.docs ["out"%string] = Ok (Sample.docs ++ [(["out"%string], Dir)])
      /\ text_rank unit Sample.letters Sample.csv 1 Sample.docs
                   ["docs"%string] ["out"%string] false ".txt" None (Some 0)
         = (Sample.docs ++ [(["out"%string], Dir)], [], Raised ValueError)).
Proof.
  split.
  - split; [reflexivity|].
    apply (proj1 (text_rank_with_zero_batch_size
                    unit Sample.letters Sample.csv 0 Sample.docs Sample.docs
                    ["docs"; "a.txt"]%string ["out.csv"%string] false ".txt" None [])).
    reflexivity.
  - split; [reflexivity|]. split; [vm_compute; discriminate|]. split; [reflexivity|].
    apply (proj2 (text_rank_with_zero_batch_size
                    unit Sample.letters Sample.csv 0 Sample.docs
                    (Sample.docs ++ [(["out"%string], Dir)])
                    ["docs"%string] ["out"%string] false ".txt" None
                    (children Sample.docs ["docs"%string])));
      [reflexivity|vm_compute; discriminate|reflexivity].
Defined.

(** ** File names *)

Lemma string_length_append (a b : string) :
  String.length (a ++ b) = (String.length a + String.length b)%nat.
Proof. induction a as [|c a IH]; simpl; [reflexivity|now rewrite IH]. Qed.

Lemma string_append_nil_r (a : string) : (a ++ "")%string = a.
Proof. induction a as [|c a IH]; simpl; [reflexivity|now rewrite IH]. Qed.

Lemma string_append_inv_tail (x a b : string) :
  (a ++ x)%string = (b ++ x)%string -> a = b.
Proof.
  revert b; induction a as [|c a IH]; intros [|d b] H; simpl in H.
  - reflexivity.
  - apply (f_equal String.length) in H. simpl in H. rewrite string_length_append in H. lia.
  - apply (f_equal String.length) in H. simpl in H. rewrite string_length_append in H. lia.
  - injection H as -> H. f_equal. now apply IH.
Qed.

Lemma substring_whole (s : string) : substring 0 (String.length s) s = s.
Proof. induction s as [|c s IH]; simpl; [reflexivity|now rewrite IH]. Qed.

Lemma substring_split (s : string) :
  forall n, (n <= String.length s)%nat ->
            (substring 0 n s ++ substring n (String.length s - n) s)%string = s.
Proof.
  induction s as [|c s IH]; intros [|n] Hn; simpl in *; try lia.
  - reflexivity.
  - now rewrite substring_whole.
  - rewrite IH by lia. reflexivity.
Qed.

Lemma substring_length (s : string) :
  forall n m, (n + m <= String.length s)%nat -> String.length (substring n m s) = m.
Proof.
  induction s as [|c s IH]; intros [|n] [|m] H; simpl in *; try lia; try reflexivity.
  - rewrite IH by lia. reflexivity.
  - apply IH. lia.
  - apply IH. simpl. lia.
Qed.

Lemma rfind_dot_bound (s : string) (i : nat) :
  rfind_dot s = Some i -> (i < String.length s)%nat.
Proof.
  revert i; induction s as [|c s IH]; intros i; simpl; [discriminate|].
  destruct (rfind_dot s) as [j|].
  - intros [= <-]. specialize (IH j eq_refl). lia.
  - destruct (Ascii.eqb c "."); [|discriminate]. intros [= <-]. lia.
Qed.

(** A name is its stem followed by its suffix. *)
Lemma stem_suffix (nm : string) :
  (substring 0 (String.length nm - String.length (suffix nm)) nm ++ suffix nm)%string = nm.
Proof.
  unfold suffix. destruct (rfind_dot nm) as [i|] eqn:Hi.
  - apply rfind_dot_bound in Hi.
    destruct ((0 <? i)%nat && (i <? String.length nm - 1)%nat).
    + rewrite substring_length by lia.
      replace (String.length nm - (String.length nm - i))%nat with i by lia.
      apply substring_split. lia.
    + simpl. rewrite Nat.sub_0_r, substring_whole. apply string_append_nil_r.
  - simpl. rewrite Nat.sub_0_r, substring_whole. apply string_append_nil_r.
Qed.

(** Two names with the same suffix that get the same name under a new
    suffix are the same name. *)
Lemma name_with_suffix_inj (n1 n2 sfx : string) :
  suffix n1 = suffix n2 ->
  name_with_suffix n1 sfx = name_with_suffix n2 sfx ->
  n1 = n2.
Proof.
  unfold name_with_suffix. intros Hs H. apply string_append_inv_tail in H.
  rewrite <- (stem_suffix n1), <- (stem_suffix n2), H, Hs. reflexivity.
Qed.

(** ** [text_rank]: the output of a directory *)

Section DirectoryOutput.

Variable Rank : Type.
Variable nlp : string -> list (TRPhrase Rank).
Variable csv_text : PhraseList Rank -> string.

Lemma read_batch_ok (s : fs) (batch : list path) (evs : list event) (texts : list string) :
  read_batch s batch = (evs, Ok texts) ->
  Forall (fun file => is_file s file = true) batch
  /\ get_phrases nlp texts = fun limit => map (file_phrases Rank nlp s limit) batch.
Proof.
  revert evs texts. induction batch as [|file rest IH]; simpl; intros evs texts.
  - intros [= _ <-]. split; [constructor|reflexivity].
  - unfold open_read.
    destruct (lookup s file) as [[content|]|] eqn:Hl; try discriminate.
    destruct (read_batch s rest) as [evs' [texts'|e]]; [|discriminate].
    intros [= _ <-]. destruct (IH _ _ eq_refl) as [Hall Hget].
    split; [constructor; [unfold is_file; now rewrite Hl|exact Hall]|].
    unfold get_phrases, nlp_pipe in *. simpl.
    unfold file_phrases at 1, open_read. rewrite Hl.
    apply (f_equal (fun h limit => take_phrases limit (nlp content) [] :: h limit)) in Hget.
    exact Hget.
Qed.

(** A pull, for a generator whose pending phrase lists are those of the
    files [waiting]. *)
Lemma resume_aligned (s s_cur : fs) (limit : option Z) (batches : list (list path)) :
  forall waiting : list path,
    (forall f, In f (concat batches) -> lookup s_cur f = lookup s f) ->
    match resume Rank nlp s_cur limit (map (file_phrases Rank nlp s limit) waiting) batches
    with
    | (_, Yield phrases g') =>
        exists f waiting' batches',
        waiting ++ concat batches = f :: waiting' ++ concat batches'
        /\ phrases = file_phrases Rank nlp s limit f
        /\ g' = GRun (map (file_phrases Rank nlp s limit) waiting') batches'
        /\ (forall f', In f' (concat batches') -> In f' (concat batches))
        /\ (Forall (fun file => is_file s file = true) waiting ->
            Forall (fun file => is_file s file = true) (f :: waiting'))
    | (_, Stop) => waiting ++ concat batches = []
    | (_, Raise _) => True
    end.
Proof.
  induction batches as [|batch batches IH]; intros waiting Hagree.
  - destruct waiting as [|f waiting]; simpl; [reflexivity|].
    exists f, waiting, []. repeat split; auto.
  - destruct waiting as [|f waiting].
    + simpl map. cbn [resume].
      destruct (read_batch s_cur batch) as [evs [texts|e]] eqn:Hread; [|exact I].
      apply (read_batch_agree s_cur s) in Hread;
        [|intros; apply Hagree; simpl; apply in_or_app; auto].
      apply read_batch_ok in Hread. destruct Hread as [Hall Hget].
      rewrite Hget.
      assert (Hrest : forall f, In f (concat batches) -> lookup s_cur f = lookup s f)
        by (intros; apply Hagree; simpl; apply in_or_app; auto).
      specialize (IH batch Hrest).
      destruct (resume Rank nlp s_cur limit (map (file_phrases Rank nlp s limit) batch)
                       batches) as [evs' [phrases g'| |e]].
      * destruct IH as (f & waiting' & batches' & Heq & Hp & Hg & Hsub & Hfiles).
        exists f, waiting', batches'. simpl. repeat split; auto.
        intros f' Hf'. apply in_or_app. right. auto.
      * simpl. exact IH.
      * exact I.
    + simpl. exists f, waiting, (batch :: batches). repeat split; auto.
Qed.

Lemma process_files_writes_all (s : fs) (output_path : path) (limit : option Z)
      (input_files : list path) :
  forall (s_cur : fs) (waiting : list path) (batches : list (list path))
         (s' : fs) (evs : list event),
    input_files = waiting ++ concat batches ->
    (forall f, In f input_files ->
               lookup s_cur f = lookup s f /\ is_prefix output_path f = false) ->
    Forall (fun file => is_file s file = true) waiting ->
    process_files Rank nlp csv_text s_cur false output_path limit input_files
                  (GRun (map (file_phrases Rank nlp s limit) waiting) batches)
    = (s', evs, Done) ->
    s' = write_all nlp csv_text s limit output_path input_files s_cur
    /\ Forall (fun file => is_file s file = true) input_files.
Proof.
  induction input_files as [|file_path rest IH];
    intros s_cur waiting batches s' evs Heq Hagree Hwaiting.
  - simpl. intros [= <- _]. split; [reflexivity|constructor].
  - cbn [process_files gen_next].
    assert (Hbatches : forall f, In f (concat batches) -> lookup s_cur f = lookup s f).
    { intros f Hf. apply Hagree. rewrite Heq. apply in_or_app. auto. }
    pose proof (resume_aligned s s_cur limit batches waiting Hbatches) as Hres.
    destruct (resume Rank nlp s_cur limit (map (file_phrases Rank nlp s limit) waiting)
                     batches) as [evs0 [phrases g'| |e]].
    + destruct Hres as (f & waiting' & batches' & Heq' & -> & -> & Hsub & Hfiles).
      rewrite <- Heq in Heq'. injection Heq' as <- Hrest.
      specialize (Hfiles Hwaiting). inversion Hfiles as [|? ? Hfile Hwaiting']; subst.
      assert (Hagree' : forall f, In f (waiting' ++ concat batches') ->
                                  lookup s_cur f = lookup s f
                                  /\ is_prefix output_path f = false)
        by (intros f Hf; apply Hagree; now right).
      unfold write_all. cbn [fold_left]. fold (write_all nlp csv_text s limit output_path).
      set (dest := curr_output_path false output_path file_path).
      destruct (file_phrases Rank nlp s limit file_path) as [|phrase phrases] eqn:Hp.
      * destruct (process_files Rank nlp csv_text s_cur false output_path limit
                                (waiting' ++ concat batches') _) as [[s1 evs1] o1] eqn:Hrun.
        intros [= <- _ ->].
        destruct (IH s_cur waiting' batches' s1 evs1 eq_refl Hagree' Hwaiting' Hrun)
          as [Hs Hall].
        split; [exact Hs|]. constructor; assumption.
      * destruct (open_write s_cur dest (csv_text (phrase :: phrases))) as [s1|e] eqn:Hw;
          [|discriminate].
        apply open_write_writes_below in Hw. destruct Hw as [_ ->].
        destruct (process_files Rank nlp csv_text _ false output_path limit
                                (waiting' ++ concat batches') _) as [[s2 evs2] o2] eqn:Hrun.
        intros [= <- _ ->].
        assert (Hagree'' : forall f, In f (waiting' ++ concat batches') ->
                                     lookup (put s_cur dest (File (csv_text (phrase :: phrases)))) f
                                     = lookup s f
                                     /\ is_prefix output_path f = false).
        { intros f Hf. destruct (Hagree' f Hf) as [Hl Hout].
          split; [|exact Hout]. rewrite lookup_put_other; [exact Hl|].
          intros ->. subst dest. now rewrite curr_output_path_below in Hout. }
        destruct (IH _ waiting' batches' s2 evs2 eq_refl Hagree'' Hwaiting' Hrun)
          as [Hs Hall].
        split; [exact Hs|]. constructor; assumption.
    + intros _. exfalso. rewrite <- Heq in Hres. discriminate.
    + discriminate.
Qed.

Lemma directory_files_written (s s' : fs) (input_path output_path : path) (sfx : string)
      (limit batch_size : option Z) (listing : list path) (evs : list event) (w : bool) :
  iterdir s input_path = Ok listing ->
  separated input_path output_path = true ->
  batch_size = None \/ (exists b, batch_size = Some b /\ 0 < b) ->
  own_files Rank nlp csv_text s input_path output_path sfx limit batch_size
  = ((s', evs, Done), w) ->
  exists s0,
    mkdir s output_path = Ok s0
    /\ Forall (fun file => is_file s file = true) (matching_suffix sfx listing)
    /\ s' = write_all nlp csv_text s limit output_path (matching_suffix sfx listing) s0.
Proof.
  intros Hit Hsep Hsize Hown.
  assert (Hfile : is_file s input_path = false).
  { apply iterdir_listing in Hit. destruct Hit as [_ H]. unfold is_dir, is_file in *.
    destruct (lookup s input_path) as [[c|]|]; congruence. }
  unfold own_files, select_inputs in Hown. rewrite Hfile, Hit in Hown.
  destruct (mkdir s output_path) as [s0|e] eqn:Hmk; [|discriminate].
  exists s0. split; [reflexivity|].
  set (files := matching_suffix sfx listing) in *.
  injection Hown as Hrun _.
  destruct files as [|file rest] eqn:Hfiles.
  - simpl in Hrun. injection Hrun as <- _. split; [constructor|reflexivity].
  - rewrite <- Hfiles in *.
    assert (Hpos : 0 < effective_batch_size files batch_size).
    { destruct Hsize as [->|(b & -> & Hb)]; [|exact Hb]. rewrite Hfiles. simpl. lia. }
    destruct (batch_files_positive files _ Hpos) as (batches & Hb & Hcat & _).
    rewrite (process_files_started _ _ _ _ _ _ _ _ _ _ _ Hb) in Hrun.
    destruct (process_files_writes_all s output_path limit files s0 [] batches s' evs)
      as [Hs Hall]; auto.
    intros f Hf. unfold files, matching_suffix in Hf. apply filter_In in Hf.
    destruct Hf as [Hf _]. apply iterdir_listing in Hit. destruct Hit as [-> _].
    apply child_listed in Hf. destruct Hf as [_ Hf].
    assert (Hin : is_prefix input_path f = true) by (rewrite Hf; apply is_prefix_app).
    pose proof (separated_below _ _ _ Hsep Hin) as Hout. split; [|exact Hout].
    apply mkdir_writes_below in Hmk. eapply writes_below_outside; eassumption.
Qed.

(** X14.  In a directory, with the output path apart from the input path
    and a batch size that is unspecified or positive, a run of the
    directory's own files that ends normally has found every child with
    the suffix to be a readable file, and leaves the file system that
    [mkdir] made with, for each such child in listing order, its phrases
    written to its output file unless it has none; the batch size does not
    show in the result. *)
Theorem directory_run_writes_every_matching_file
        (fuel : nat) (s s' : fs) (input_path output_path : path) (sfx : string)
        (limit batch_size : option Z) (listing : list path) (evs : list event) :
  iterdir s input_path = Ok listing ->
  separated input_path output_path = true ->
  batch_size = None \/ (exists b, batch_size = Some b /\ 0 < b) ->
  text_rank Rank nlp csv_text (S fuel) s input_path output_path false sfx
            limit batch_size = (s', evs, Done) ->
  exists s0,
    mkdir s output_path = Ok s0
    /\ Forall (fun file => is_file s file = true) (matching_suffix sfx listing)
    /\ s' = write_all nlp csv_text s limit output_path (matching_suffix sfx listing) s0.
Proof.
  intros Hit Hsep Hsize Hrun.
  destruct (own_files Rank nlp csv_text s input_path output_path sfx limit batch_size)
    as [[[s1 evs1] o1] w] eqn:Hown.
  destruct (text_rank_after_own_files Rank nlp csv_text fuel s input_path output_path
              false sfx limit batch_size s1 evs1 o1 w Hown) as [Hstop _].
  rewrite Hstop in Hrun by auto. injection Hrun as -> -> ->.
  eapply directory_files_written; eassumption.
Qed.

Lemma write_all_step (s : fs) (limit : option Z) (output_path : path)
      (file_path : path) (rest : list path) (s0 : fs) :
  write_all nlp csv_text s limit output_path (file_path :: rest) s0
  = write_all nlp csv_text s limit output_path rest
              (write_phrases csv_text s0 (curr_output_path false output_path file_path)
                             (file_phrases Rank nlp s limit file_path)).
Proof. reflexivity. Qed.

Lemma write_all_lookup_other (s : fs) (limit : option Z) (output_path : path) (p : path)
      (input_files : list path) :
  forall s0,
    (forall f, In f input_files -> curr_output_path false output_path f <> p) ->
    lookup (write_all nlp csv_text s limit output_path input_files s0) p = lookup s0 p.
Proof.
  induction input_files as [|file_path rest IH]; intros s0 Hother.
  - reflexivity.
  - rewrite write_all_step, IH by (intros; apply Hother; now right).
    unfold write_phrases. destruct (file_phrases Rank nlp s limit file_path); [reflexivity|].
    apply lookup_put_other. intros ->. apply (Hother file_path); [now left|reflexivity].
Qed.

Lemma write_all_lookup (s : fs) (limit : option Z) (output_path : path)
      (input_files : list path) :
  (forall f1 f2, In f1 input_files -> In f2 input_files ->
                 curr_output_path false output_path f1
                 = curr_output_path false output_path f2 -> f1 = f2) ->
  forall s0 f,
    In f input_files ->
    lookup (write_all nlp csv_text s limit output_path input_files s0)
           (curr_output_path false output_path f)
    = match file_phrases Rank nlp s limit f with
      | [] => lookup s0 (curr_output_path false output_path f)
      | phrase :: phrases => Some (File (csv_text (phrase :: phrases)))
      end.
Proof.
  induction input_files as [|file_path rest IH]; intros Hinj s0 f Hin.
  - destruct Hin.
  - rewrite write_all_step.
    assert (Hinj' : forall f1 f2, In f1 rest -> In f2 rest ->
                                  curr_output_path false output_path f1
                                  = curr_output_path false output_path f2 -> f1 = f2)
      by (intros f1 f2 H1 H2; apply Hinj; now right).
    destruct (in_dec path_eq_dec f rest) as [Hrest|Hnot].
    + rewrite (IH Hinj' _ f Hrest).
      destruct (file_phrases Rank nlp s limit f) as [|phrase phrases] eqn:Hp; [|reflexivity].
      destruct (path_eq_dec file_path f) as [->|Hne].
      * rewrite Hp. reflexivity.
      * unfold write_phrases. destruct (file_phrases Rank nlp s limit file_path);
          [reflexivity|].
        apply lookup_put_other. intros E. apply Hne. symmetry.
        apply Hinj; [now right|now left|exact E].
    + destruct Hin as [->|Hin]; [|contradiction].
      rewrite write_all_lookup_other.
      * unfold write_phrases. destruct (file_phrases Rank nlp s limit f); [reflexivity|].
        apply lookup_put_same.
      * intros f' Hf' E. apply Hnot. replace f with f'; [exact Hf'|].
        apply Hinj; [now right|now left|exact E].
Qed.

Lemma destinations_differ (s : fs) (input_path output_path : path) (sfx : string)
      (f1 f2 : path) :
  In f1 (matching_suffix sfx (children s input_path)) ->
  In f2 (matching_suffix sfx (children s input_path)) ->
  curr_output_path false output_path f1 = curr_output_path false output_path f2 ->
  f1 = f2.
Proof.
  unfold matching_suffix, curr_output_path. rewrite !filter_In, !with_suffix_joinpath.
  intros [H1 S1] [H2 S2] E.
  apply child_listed in H1, H2. destruct H1 as [_ H1], H2 as [_ H2].
  apply String.eqb_eq in S1, S2.
  unfold joinpath in E. apply app_inj_tail in E. destruct E as [_ E].
  apply name_with_suffix_inj in E; [|congruence].
  rewrite H1, H2, E. reflexivity.
Qed.

(** X15.  Under the conditions of X14, no two children with the suffix
    share an output file, and after a run that ended normally the output
    file of each such child holds the text of that child's phrases; for a
    child without phrases the path of its output file holds what it held
    before the run. *)
Theorem directory_output_mirrors_input
        (fuel : nat) (s s' : fs) (input_path output_path : path) (sfx : string)
        (limit batch_size : option Z) (listing : list path) (evs : list event) :
  iterdir s input_path = Ok listing ->
  separated input_path output_path = true ->
  batch_size = None \/ (exists b, batch_size = Some b /\ 0 < b) ->
  text_rank Rank nlp csv_text (S fuel) s input_path output_path false sfx
            limit batch_size = (s', evs, Done) ->
  (forall f1 f2,
      In f1 (matching_suffix sfx listing) -> In f2 (matching_suffix sfx listing) ->
      curr_output_path false output_path f1 = curr_output_path false output_path f2 ->
      f1 = f2)
  /\ (forall f,
         In f (matching_suffix sfx listing) ->
         lookup s' (curr_output_path false output_path f)
         = match file_phrases Rank nlp s limit f with
           | [] => lookup s (curr_output_path false output_path f)
           | phrase :: phrases => Some (File (csv_text (phrase :: phrases)))
           end).
Proof.
  intros Hit Hsep Hsize Hrun.
  destruct (own_files Rank nlp csv_text s input_path output_path sfx limit batch_size)
    as [[[s1 evs1] o1] w] eqn:Hown.
  destruct (text_rank_after_own_files Rank nlp csv_text fuel s input_path output_path
              false sfx limit batch_size s1 evs1 o1 w Hown) as [Hstop _].
  rewrite Hstop in Hrun by auto. injection Hrun as -> -> ->.
  destruct (directory_files_written _ _ _ _ _ _ _ _ _ _ Hit Hsep Hsize Hown)
    as (s0 & Hmk & _ & ->).
  pose proof (iterdir_listing _ _ _ Hit) as [-> _].
  assert (Hinj : forall f1 f2,
             In f1 (matching_suffix sfx (children s input_path)) ->
             In f2 (matching_suffix sfx (children s input_path)) ->
             curr_output_path false output_path f1
             = curr_output_path false output_path f2 -> f1 = f2)
    by (intros f1 f2; apply destinations_differ).
  split; [exact Hinj|].
  intros f Hf. rewrite (write_all_lookup s limit output_path _ Hinj s0 f Hf).
  destruct (file_phrases Rank nlp s limit f); [|reflexivity].
  apply (mkdir_lookup_other _ _ _ _ Hmk).
  unfold curr_output_path. rewrite with_suffix_joinpath. unfold joinpath. intros E.
  apply (f_equal (@length string)) in E. rewrite length_app in E. simpl in E. lia.
Qed.

End DirectoryOutput.

Lemma directory_run_writes_every_matching_file_witness :
  iterdir Sample.docs ["docs"%string] = Ok (children Sample.docs ["docs"%string])
  /\ separated ["docs"%string] ["out"%string] = true
  /\ (Some 1 = None \/ (exists b, Some 1 = Some b /\ 0 < b))
  /\ text_rank unit Sample.letters Sample.csv 1 Sample.docs ["docs"%string] ["out"%string]
               false ".txt" None (Some 1)
     = (fst (fst (fst Sample.own_run)),
        [EvRead ["docs"; "a.txt"]%string;
         EvWrite ["out"; "a.csv"]%string "a,b";
         EvRead ["docs"; "b.txt"]%string;
         EvWarn "No phrases found in file: out, skipping"],
        Done)
  /\ exists s0,
      mkdir Sample.docs ["out"%string] = Ok s0
      /\ Forall (fun file => is_file Sample.docs file = true)
                (matching_suffix ".txt" (children Sample.docs ["docs"%string]))
      /\ fst (fst (fst Sample.own_run))
         = write_all Sample.letters Sample.csv Sample.docs None ["out"%string]
                     (matching_suffix ".txt" (children Sample.docs ["docs"%string])) s0.
Proof.
  assert (H1 : iterdir Sample.docs ["docs"%string]
               = Ok (children Sample.docs ["docs"%string])) by reflexivity.
  assert (H2 : separated ["docs"%string] ["out"%string] = true) by reflexivity.
  assert (H3 : Some 1 = None \/ (exists b, Some 1 = Some b /\ 0 < b))
    by (right; exists 1; split; [reflexivity|lia]).
  assert (H4 : text_rank unit Sample.letters Sample.csv 1 Sample.docs
                         ["docs"%string] ["out"%string] false ".txt" None (Some 1)
               = (fst (fst (fst Sample.own_run)),
                  [EvRead ["docs"; "a.txt"]%string;
                   EvWrite ["out"; "a.csv"]%string "a,b";
                   EvRead ["docs"; "b.txt"]%string;
                   EvWarn "No phrases found in file: out, skipping"],
                  Done)) by reflexivity.
  split; [exact H1|]. split; [exact H2|]. split; [exact H3|]. split; [exact H4|].
  exact (directory_run_writes_every_matching_file
           unit Sample.letters Sample.csv 0 Sample.docs _ ["docs"%string] ["out"%string]
           ".txt" None (Some 1) _ _ H1 H2 H3 H4).
Defined.

Lemma directory_output_mirrors_input_witness :
  iterdir Sample.docs ["docs"%string] = Ok (children Sample.docs ["docs"%string])
  /\ separated ["docs"%string] ["out"%string] = true
  /\ (@None Z = None \/ (exists b, None = Some b /\ 0 < b))
  /\ text_rank unit Sample.letters Sample.csv 1 Sample.docs ["docs"%string] ["out"%string]
               false ".txt" None None
     = (fst (fst (fst Sample.own_run)), snd (fst (fst Sample.own_run)), Done)
  /\ (forall f,
         In f (matching_suffix ".txt" (children Sample.docs ["docs"%string])) ->
         lookup (fst (fst (fst Sample.own_run))) (curr_output_path false ["out"%string] f)
         = match file_phrases unit Sample.letters Sample.docs None f with
           | [] => lookup Sample.docs (curr_output_path false ["out"%string] f)
           | phrase :: phrases => Some (File (Sample.csv (phrase :: phrases)))
           end).
Proof.
  assert (H1 : iterdir Sample.docs ["docs"%string]
               = Ok (children Sample.docs ["docs"%string])) by reflexivity.
  assert (H2 : separated ["docs"%string] ["out"%string] = true) by reflexivity.
  assert (H3 : @None Z = None \/ (exists b, None = Some b /\ 0 < b)) by (left; reflexivity).
  assert (H4 : text_rank unit Sample.letters Sample.csv 1 Sample.docs
                         ["docs"%string] ["out"%string] false ".txt" None None
               = (fst (fst (fst Sample.own_run)), snd (fst (fst Sample.own_run)), Done))
    by reflexivity.
  split; [exact H1|]. split; [exact H2|]. split; [exact H3|]. split; [exact H4|].
  exact (proj2 (directory_output_mirrors_input
                  unit Sample.letters Sample.csv 0 Sample.docs _
                  ["docs"%string] ["out"%string] ".txt" None None _ _ H1 H2 H3 H4)).
Defined.

(** ** [text_rank]: the end of the recursion *)

Lemma list_max_bound (l : list nat) (x : nat) : In x l -> (x <= list_max l)%nat.
Proof.
  intros Hin. assert (H : (list_max l <= list_max l)%nat) by lia.
  apply list_max_le in H. revert x Hin. now apply Forall_forall.
Qed.

Lemma is_prefix_length (p q : path) :
  is_prefix p q = true -> (length p <= length q)%nat.
Proof.
  rewrite is_prefix_spec. intros [r ->]. rewrite length_app. lia.
Qed.

Lemma depth_below_child (s : fs) (root d : path) :
  In d (children s root) -> (depth_below s d < depth_below s root)%nat.
Proof.
  intros Hd. pose proof Hd as Hd'. apply child_listed in Hd'. destruct Hd' as [Hlisted Heq].
  apply lookup_listed in Hlisted.
  assert (Hpre : is_prefix root d = true) by (rewrite Heq; apply is_prefix_app).
  assert (Hlen : length d = S (length root))
    by (rewrite Heq; unfold joinpath; rewrite length_app; simpl; lia).
  assert (Hone : (1 <= depth_below s root)%nat).
  { unfold depth_below. apply (list_max_bound _ 1%nat). apply in_map_iff.
    exists d. split; [lia|]. apply filter_In. auto. }
  assert (Hle : (depth_below s d <= depth_below s root - 1)%nat).
  { unfold depth_below at 1. apply list_max_le, Forall_forall. intros k Hk.
    apply in_map_iff in Hk. destruct Hk as (q & <- & Hq).
    apply filter_In in Hq. destruct Hq as [Hq Hdq].
    assert (Hin : In (length q - length root)%nat
                     (map (fun q => (length q - length root)%nat)
                          (filter (is_prefix root) (map fst s)))).
    { apply in_map_iff. exists q. split; [reflexivity|]. apply filter_In.
      split; [exact Hq|]. eapply is_prefix_trans; eassumption. }
    apply list_max_bound in Hin. fold (depth_below s root) in Hin.
    apply is_prefix_length in Hdq. lia. }
  lia.
Qed.

Lemma depth_below_writes (root other d : path) (s s' : fs) :
  writes_below other s s' ->
  separated root other = true ->
  is_prefix root d = true ->
  depth_below s' d = depth_below s d.
Proof.
  intros Hwb Hsep Hd. unfold depth_below. f_equal. f_equal.
  induction Hwb as [|s s' q e _ IH Hq Hk]; [reflexivity|].
  rewrite <- IH. destruct (lookup s' q) eqn:Hl.
  - rewrite paths_put_present; congruence.
  - rewrite paths_put_absent, filter_app by assumption. simpl.
    assert (Hnot : is_prefix d q = false).
    { destruct (is_prefix d q) eqn:E; [|reflexivity].
      assert (Hrq : is_prefix root q = true) by (eapply is_prefix_trans; eassumption).
      apply separated_spec in Hsep. destruct Hsep as [H1 H2].
      destruct (is_prefix_comparable _ _ _ Hrq Hq); congruence. }
    rewrite Hnot. apply app_nil_r.
Qed.

Section Termination.

Variable Rank : Type.
Variable nlp : string -> list (TRPhrase Rank).
Variable csv_text : PhraseList Rank -> string.

Lemma process_files_ends (w : bool) (output_path : path) (limit : option Z)
      (input_files : list path) :
  forall (s : fs) (g : gen_state Rank),
    snd (process_files Rank nlp csv_text s w output_path limit input_files g) <> OutOfFuel.
Proof.
  induction input_files as [|file_path rest IH]; intros s g; simpl; [discriminate|].
  destruct (gen_next Rank nlp s limit g) as [evs [[|phrase phrases] g'| |e]];
    try discriminate.
  - specialize (IH s g').
    destruct (process_files Rank nlp csv_text s w output_path limit rest g')
      as [[s1 evs1] o1]. exact IH.
  - destruct (open_write s _ _) as [s1|e]; [|discriminate].
    specialize (IH s1 g').
    destruct (process_files Rank nlp csv_text s1 w output_path limit rest g')
      as [[s2 evs2] o2]. exact IH.
Qed.

Lemma own_files_ends (s : fs) (input_path output_path : path) (sfx : string)
      (limit batch_size : option Z) :
  snd (fst (own_files Rank nlp csv_text s input_path output_path sfx limit batch_size))
  <> OutOfFuel.
Proof.
  unfold own_files.
  destruct (select_inputs s input_path output_path sfx) as [[[s0 files] w]|e];
    [apply process_files_ends|discriminate].
Qed.

Lemma visit_dirs_ends (call : fs -> path -> path -> run) (input_path output_path : path)
      (fuel : nat) :
  (forall s d out' s' evs o, call s d out' = (s', evs, o) -> writes_below out' s s') ->
  (forall s d out', separated d out' = true -> (depth_below s d < fuel)%nat ->
                    snd (call s d out') <> OutOfFuel) ->
  separated input_path output_path = true ->
  forall (listing : list path) (s : fs),
    (forall d, In d listing ->
               d = joinpath input_path (name d) /\ (depth_below s d < fuel)%nat) ->
    snd (visit_dirs call s output_path listing) <> OutOfFuel.
Proof.
  intros Hframe Hcall Hsep. induction listing as [|d rest IH]; intros s Hlisted; simpl.
  - discriminate.
  - destruct (is_dir s d); simpl; [|apply IH; intros; apply Hlisted; now right].
    destruct (Hlisted d (or_introl eq_refl)) as [Hd Hdepth].
    assert (Hsep' : separated d (joinpath output_path (name d)) = true)
      by (rewrite Hd at 1; now apply separated_joinpath).
    pose proof (Hcall s d _ Hsep' Hdepth) as Hends.
    destruct (call s d (joinpath output_path (name d))) as [[s1 evs1] o1] eqn:Hc.
    simpl in Hends. destruct o1; [|discriminate|congruence].
    assert (Hwb : writes_below output_path s s1)
      by (eapply writes_below_weaken; [apply is_prefix_app|eapply Hframe; exact Hc]).
    specialize (IH s1).
    destruct (visit_dirs call s1 output_path rest) as [[s2 evs2] o2]. simpl in *.
    apply IH. intros d' Hd'. destruct (Hlisted d' (or_intror Hd')) as [Hd'' Hdepth'].
    split; [exact Hd''|].
    rewrite (depth_below_writes input_path output_path d' s s1 Hwb Hsep); [exact Hdepth'|].
    rewrite Hd''. apply is_prefix_app.
Qed.

Lemma text_rank_ends (fuel : nat) :
  forall (s : fs) (input_path output_path : path) (recursive : bool) (sfx : string)
         (limit batch_size : option Z),
    separated input_path output_path = true ->
    (depth_below s input_path < fuel)%nat ->
    snd (text_rank Rank nlp csv_text fuel s input_path output_path recursive sfx
                   limit batch_size) <> OutOfFuel.
Proof.
  induction fuel as [|fuel IH];
    intros s input_path output_path recursive sfx limit batch_size Hsep Hdepth; [lia|].
  cbn [text_rank].
  pose proof (own_files_ends s input_path output_path sfx limit batch_size) as Hown_ends.
  destruct (own_files Rank nlp csv_text s input_path output_path sfx limit batch_size)
    as [[[s1 evs1] o1] w] eqn:Hown. simpl in Hown_ends.
  destruct o1; [|discriminate|congruence].
  destruct (negb recursive || w); [discriminate|].
  destruct (iterdir s1 input_path) as [listing|e] eqn:Hit; [|discriminate].
  apply own_files_writes_below in Hown.
  match goal with
  | |- context [visit_dirs ?c _ _ _] => set (call := c)
  end.
  assert (Hends : snd (visit_dirs call s1 output_path listing) <> OutOfFuel).
  { apply (visit_dirs_ends call input_path output_path fuel).
    - intros s0 d out' s0' evs0 o0. apply text_rank_writes_below.
    - intros s0 d out' Hs Hd. apply IH; assumption.
    - exact Hsep.
    - intros d Hd. apply iterdir_listing in Hit. destruct Hit as [-> _].
      split; [now apply child_listed in Hd|].
      apply depth_below_child in Hd.
      rewrite (depth_below_writes input_path output_path input_path s s1 Hown Hsep) in Hd
        by apply is_prefix_refl.
      lia. }
  destruct (visit_dirs call s1 output_path listing) as [[s2 evs2] o2]. exact Hends.
Qed.

Lemma visit_dirs_more_fuel (call call' : fs -> path -> path -> run) (output_path : path) :
  (forall s d out', snd (call s d out') <> OutOfFuel -> call' s d out' = call s d out') ->
  forall (listing : list path) (s : fs),
    snd (visit_dirs call s output_path listing) <> OutOfFuel ->
    visit_dirs call' s output_path listing = visit_dirs call s output_path listing.
Proof.
  intros Hcall. induction listing as [|d rest IH]; intros s; simpl; [reflexivity|].
  destruct (is_dir s d); simpl; [|apply IH].
  pose proof (Hcall s d (joinpath output_path (name d))) as Hc.
  destruct (call s d (joinpath output_path (name d))) as [[s1 evs1] o1]. simpl in Hc.
  destruct o1.
  - rewrite Hc by discriminate. specialize (IH s1).
    destruct (visit_dirs call s1 output_path rest) as [[s2 evs2] o2]. simpl in *.
    intros H. now rewrite IH.
  - intros _. now rewrite Hc.
  - simpl. congruence.
Qed.

Lemma text_rank_more_fuel (fuel : nat) :
  forall (s : fs) (input_path output_path : path) (recursive : bool) (sfx : string)
         (limit batch_size : option Z),
    snd (text_rank Rank nlp csv_text fuel s input_path output_path recursive sfx
                   limit batch_size) <> OutOfFuel ->
    text_rank Rank nlp csv_text (S fuel) s input_path output_path recursive sfx
              limit batch_size
    = text_rank Rank nlp csv_text fuel s input_path output_path recursive sfx
                limit batch_size.
Proof.
  induction fuel as [|fuel IH];
    intros s input_path output_path recursive sfx limit batch_size; [simpl; congruence|].
  intros Hends. cbn [text_rank] in *.
  destruct (own_files Rank nlp csv_text s input_path output_path sfx limit batch_size)
    as [[[s1 evs1] o1] w].
  destruct o1; try reflexivity.
  destruct (negb recursive || w); [reflexivity|].
  destruct (iterdir s1 input_path) as [listing|e]; [|reflexivity].
  rewrite (visit_dirs_more_fuel
             (fun s' next_dir out' =>
                text_rank Rank nlp csv_text fuel s' next_dir out' true sfx limit batch_size)
             (fun s' next_dir out' =>
                text_rank Rank nlp csv_text (S fuel) s' next_dir out' true sfx limit
                          batch_size)).
  - reflexivity.
  - intros s0 d out'. apply IH.
  - destruct (visit_dirs _ s1 output_path listing) as [[s2 evs2] o2]. exact Hends.
Qed.

(** X16.  When the input and output paths are apart, a run of
    [text_rank] ends once the depth allowed exceeds the depth of the input
    tree, and every greater depth gives the same result: the recursion
    goes as deep as the input tree and no deeper. *)
Theorem text_rank_ends_when_output_is_apart
        (fuel fuel' : nat) (s : fs) (input_path output_path : path) (recursive : bool)
        (sfx : string) (limit batch_size : option Z) :
  separated input_path output_path = true ->
  (depth_below s input_path < fuel)%nat ->
  (fuel <= fuel')%nat ->
  snd (text_rank Rank nlp csv_text fuel s input_path output_path recursive sfx
                 limit batch_size) <> OutOfFuel
  /\ text_rank Rank nlp csv_text fuel' s input_path output_path recursive sfx
               limit batch_size
     = text_rank Rank nlp csv_text fuel s input_path output_path recursive sfx
                 limit batch_size.
Proof.
  intros Hsep Hdepth Hle.
  pose proof (text_rank_ends fuel s input_path output_path recursive sfx limit batch_size
                             Hsep Hdepth) as Hends.
  split; [exact Hends|].
  induction Hle as [|fuel'' Hle IH]; [reflexivity|].
  rewrite text_rank_more_fuel; [exact IH|]. rewrite IH. exact Hends.
Qed.

End Termination.

Lemma text_rank_ends_when_output_is_apart_witness :
  separated ["docs"%string] ["out"%string] = true
  /\ (depth_below Sample.docs ["docs"%string] < 3)%nat
  /\ (3 <= 7)%nat
  /\ snd (text_rank unit Sample.letters Sample.csv 3 Sample.docs
                    ["docs"%string] ["out"%string] true ".txt" None None) <> OutOfFuel
  /\ text_rank unit Sample.letters Sample.csv 7 Sample.docs
               ["docs"%string] ["out"%string] true ".txt" None None
     = text_rank unit Sample.letters Sample.csv 3 Sample.docs
                 ["docs"%string] ["out"%string] true ".txt" None None.
Proof.
  assert (H1 : separated ["docs"%string] ["out"%string] = true) by reflexivity.
  assert (H2 : (depth_below Sample.docs ["docs"%string] < 3)%nat) by (vm_compute; lia).
  assert (H3 : (3 <= 7)%nat) by lia.
  split; [exact H1|]. split; [exact H2|]. split; [exact H3|].
  exact (text_rank_ends_when_output_is_apart
           unit Sample.letters Sample.csv 3 7 Sample.docs ["docs"%string] ["out"%string]
           true ".txt" None None H1 H2 H3).
Defined.

(** ** [text_rank]: the directories of the output *)

Lemma paths_kept (root : path) (s s' : fs) :
  writes_below root s s' -> forall q, In q (map fst s) -> In q (map fst s').
Proof.
  induction 1 as [|s s' p e _ IH Hp Hk]; intros q Hq; [exact Hq|].
  specialize (IH q Hq). destruct (lookup s' p) eqn:Hl.
  - rewrite paths_put_present; congruence.
  - rewrite paths_put_absent by assumption. apply in_or_app. auto.
Qed.

Lemma children_kept (root : path) (s s' : fs) (p d : path) :
  writes_below root s s' -> In d (children s p) -> In d (children s' p).
Proof.
  unfold children. rewrite !filter_In. intros Hwb [Hin Hpar]. split; [|exact Hpar].
  eapply paths_kept; eassumption.
Qed.

Lemma child_of_directory (s : fs) (p : path) (a : string) :
  lookup s (p ++ [a]) <> None -> In (p ++ [a]) (children s p).
Proof.
  intros Hl. unfold children. apply filter_In. split; [now apply lookup_listed|].
  destruct (p ++ [a]) eqn:E; [destruct p; discriminate|]. rewrite <- E.
  apply path_eqb_eq. apply (parent_joinpath p a).
Qed.

Lemma recurse_into_done (call : fs -> path -> path -> fs * list event * outcome)
      (output_path : path) :
  (forall s d out' s' evs o, call s d out' = (s', evs, o) -> kinds_kept s s') ->
  forall (subdirs : list path) (s s' : fs) (evs : list event),
    recurse_into call s output_path subdirs = (s', evs, Done) ->
    kinds_kept s s'
    /\ forall d, In d subdirs ->
                 exists s_a s_b evs_d,
                   call s_a d (joinpath output_path (name d)) = (s_b, evs_d, Done)
                   /\ kinds_kept s s_a /\ kinds_kept s_b s'.
Proof.
  intros Hcall. induction subdirs as [|d0 rest IH]; intros s s' evs; simpl.
  - intros [= <- _]. split; [apply kinds_kept_refl|]. intros d [].
  - destruct (call s d0 (joinpath output_path (name d0))) as [[s1 evs1] o1] eqn:Hc.
    destruct o1; try discriminate.
    destruct (recurse_into call s1 output_path rest) as [[s2 evs2] o2] eqn:Hrest.
    intros [= <- _ ->]. destruct (IH _ _ _ Hrest) as [Hk Hall].
    pose proof (Hcall _ _ _ _ _ _ Hc) as Hk1.
    split; [eapply kinds_kept_trans; eassumption|].
    intros d [<-|Hd].
    + exists s, s1, evs1. split; [exact Hc|]. split; [apply kinds_kept_refl|exact Hk].
    + destruct (Hall d Hd) as (s_a & s_b & evs_d & Hd' & Ha & Hb).
      exists s_a, s_b, evs_d. split; [exact Hd'|]. split; [|exact Hb].
      eapply kinds_kept_trans; eassumption.
Qed.

Section OutputDirectories.

Variable Rank : Type.
Variable nlp : string -> list (TRPhrase Rank).
Variable csv_text : PhraseList Rank -> string.

Lemma own_files_makes_the_output_directory
      (s s1 : fs) (input_path output_path : path) (sfx : string)
      (limit batch_size : option Z) (evs : list event) (w : bool) :
  is_dir s input_path = true ->
  own_files Rank nlp csv_text s input_path output_path sfx limit batch_size
  = ((s1, evs, Done), w) ->
  w = false /\ is_dir s1 output_path = true.
Proof.
  intros Hdir. unfold own_files, select_inputs.
  assert (Hfile : is_file s input_path = false)
    by (unfold is_dir, is_file in *; destruct (lookup s input_path) as [[c|]|]; congruence).
  rewrite Hfile.
  destruct (iterdir s input_path) as [listing|e]; [|discriminate].
  destruct (mkdir s output_path) as [s0|e] eqn:Hmk; [|discriminate].
  intros [= Hrun <-]. split; [reflexivity|].
  apply process_files_writes_below, writes_below_kinds in Hrun.
  apply Hrun. eapply mkdir_is_dir; exact Hmk.
Qed.

Lemma text_rank_mirrors_directories (fuel : nat) :
  forall (r : path) (s : fs) (input_path output_path : path) (sfx : string)
         (limit batch_size : option Z) (s' : fs) (evs : list event),
    text_rank Rank nlp csv_text fuel s input_path output_path true sfx
              limit batch_size = (s', evs, Done) ->
    (forall r', is_prefix r' r = true -> is_dir s (input_path ++ r') = true) ->
    is_dir s' (output_path ++ r) = true.
Proof.
  induction fuel as [|fuel IH];
    intros r s input_path output_path sfx limit batch_size s' evs Hrun Hdirs;
    [discriminate|].
  assert (Hdir : is_dir s input_path = true)
    by (rewrite <- (app_nil_r input_path); apply Hdirs; reflexivity).
  assert (Hfile : is_file s input_path = false)
    by (unfold is_dir, is_file in *; destruct (lookup s input_path) as [[c|]|]; congruence).
  destruct (own_files Rank nlp csv_text s input_path output_path sfx limit batch_size)
    as [[[s1 evs1] o1] w] eqn:Hown.
  destruct (text_rank_after_own_files Rank nlp csv_text fuel s input_path output_path
              true sfx limit batch_size s1 evs1 o1 w Hown) as [Hstop Hrec].
  destruct o1;
    [|rewrite Hstop in Hrun by (right; right; discriminate); discriminate
     |rewrite Hstop in Hrun by (right; right; discriminate); discriminate].
  rewrite Hrec in Hrun by auto. clear Hstop Hrec.
  destruct (own_files_makes_the_output_directory _ _ _ _ _ _ _ _ _ Hdir Hown) as [_ Hout].
  pose proof (own_files_writes_below Rank nlp csv_text _ _ _ _ _ _ _ _ _ _ Hown) as Hwb.
  destruct (recurse_into _ s1 output_path _) as [[s2 evs2] o2] eqn:Hvisit.
  injection Hrun as -> _ ->.
  apply recurse_into_done in Hvisit;
    [|intros s0 d out' s0' evs0 o0 Hc;
      eapply writes_below_kinds, text_rank_writes_below; exact Hc].
  destruct Hvisit as [Hk Hall].
  destruct r as [|a r2].
  - rewrite app_nil_r. now apply Hk.
  - assert (Hd : is_dir s (input_path ++ [a]) = true)
      by (apply Hdirs; simpl; rewrite String.eqb_refl; reflexivity).
    assert (Hin : In (input_path ++ [a])
                     (filter (is_dir s1) (children s1 input_path))).
    { apply filter_In. split.
      - eapply children_kept; [exact Hwb|]. apply child_of_directory.
        unfold is_dir in Hd. destruct (lookup s (input_path ++ [a])); congruence.
      - now apply (writes_below_kinds _ _ _ Hwb). }
    destruct (Hall _ Hin) as (s_a & s_b & evs_d & Hcall & Ha & Hb).
    assert (Hn : name (input_path ++ [a]) = a) by apply (name_joinpath input_path a).
    rewrite Hn in Hcall.
    apply IH with (r := r2) in Hcall.
    + apply Hb. unfold joinpath in Hcall. now rewrite <- app_assoc in Hcall.
    + intros r' Hr'. apply Ha. apply (writes_below_kinds _ _ _ Hwb).
      rewrite <- app_assoc. apply Hdirs. simpl. now rewrite String.eqb_refl.
Qed.

(** X18.  After a recursive run that ended normally, the output tree has
    the directories of the input tree: for every directory reached from the
    input directory through directories, the path with the same components
    below the output path is a directory. *)
Theorem output_tree_has_the_input_directories
        (fuel : nat) (r : path) (s s' : fs) (input_path output_path : path)
        (sfx : string) (limit batch_size : option Z) (evs : list event) :
  text_rank Rank nlp csv_text fuel s input_path output_path true sfx
            limit batch_size = (s', evs, Done) ->
  (forall r', is_prefix r' r = true -> is_dir s (input_path ++ r') = true) ->
  is_dir s' (output_path ++ r) = true.
Proof. apply text_rank_mirrors_directories. Qed.

End OutputDirectories.

Lemma output_tree_has_the_input_directories_witness :
  text_rank unit Sample.letters Sample.csv 3 Sample.docs ["docs"%string] ["out"%string]
            true ".txt" None None
  = (fst (fst Sample.first_run), snd (fst Sample.first_run), Done)
  /\ (forall r', is_prefix r' ["sub"%string] = true ->
                 is_dir Sample.docs (["docs"%string] ++ r') = true)
  /\ is_dir (fst (fst Sample.first_run)) (["out"%string] ++ ["sub"%string]) = true.
Proof.
  assert (H1 : text_rank unit Sample.letters Sample.csv 3 Sample.docs
                         ["docs"%string] ["out"%string] true ".txt" None None
               = (fst (fst Sample.first_run), snd (fst Sample.first_run), Done))
    by reflexivity.
  assert (H2 : forall r', is_prefix r' ["sub"%string] = true ->
                          is_dir Sample.docs (["docs"%string] ++ r') = true).
  { intros [|a [|b r']]; simpl; intros H.
    - reflexivity.
    - rewrite andb_true_r in H. apply String.eqb_eq in H. subst a. reflexivity.
    - rewrite andb_false_r in H. discriminate. }
  split; [exact H1|]. split; [exact H2|].
  exact (output_tree_has_the_input_directories
           unit Sample.letters Sample.csv 3 ["sub"%string] Sample.docs _
           ["docs"%string] ["out"%string] ".txt" None None _ H1 H2).
Defined.

(** ** [text_rank]: the events of a directory *)

Section DirectoryEvents.

Variable Rank : Type.
Variable nlp : string -> list (TRPhrase Rank).
Variable csv_text : PhraseList Rank -> string.

Lemma read_batch_ok_events (s : fs) (batch : list path) (evs : list event)
      (texts : list string) :
  read_batch s batch = (evs, Ok texts) -> evs = map EvRead batch.
Proof.
  revert evs texts. induction batch as [|file rest IH]; simpl; intros evs texts.
  - now intros [= <- _].
  - destruct (open_read s file) as [content|e]; [|discriminate].
    destruct (read_batch s rest) as [evs' [texts'|e]]; [|discriminate].
    intros [= <- _]. now rewrite (IH _ _ eq_refl).
Qed.

(** What a pull reads: the files of the batches it went through. *)
Lemma resume_reads (s : fs) (limit : option Z) (batches : list (list path)) :
  forall pending,
    match resume Rank nlp s limit pending batches with
    | (evs, Yield _ g') =>
        exists r, evs = map EvRead r /\ concat batches = r ++ gen_files g'
    | (evs, Stop) => evs = map EvRead (concat batches)
    | (_, Raise _) => True
    end.
Proof.
  induction batches as [|batch batches IH]; intros pending; simpl.
  - destruct pending; [reflexivity|]. exists []. auto.
  - destruct pending; [|exists []; auto].
    destruct (read_batch s batch) as [evs [texts|e]] eqn:Hread; [|exact I].
    apply read_batch_ok_events in Hread. subst evs.
    specialize (IH (get_phrases nlp texts limit)).
    destruct (resume Rank nlp s limit (get_phrases nlp texts limit) batches)
      as [evs' [phrases g'| |e]].
    + destruct IH as (r & -> & Hcat). exists (batch ++ r).
      rewrite map_app, Hcat, app_assoc. auto.
    + subst evs'. now rewrite map_app.
    + exact I.
Qed.

Lemma process_files_trace (s : fs) (output_path : path) (limit : option Z)
      (input_files : list path) :
  forall (s_cur : fs) (waiting : list path) (batches : list (list path))
         (s' : fs) (evs : list event),
    input_files = waiting ++ concat batches ->
    (forall f, In f input_files ->
               lookup s_cur f = lookup s f /\ is_prefix output_path f = false) ->
    Forall (fun file => is_file s file = true) waiting ->
    process_files Rank nlp csv_text s_cur false output_path limit input_files
                  (GRun (map (file_phrases Rank nlp s limit) waiting) batches)
    = (s', evs, Done) ->
    reads_of evs = concat batches
    /\ writes_of evs = flat_map (written_for nlp csv_text s limit output_path) input_files
    /\ warnings_of evs = warnings_from nlp csv_text s limit output_path s_cur input_files.
Proof.
  induction input_files as [|file_path rest IH];
    intros s_cur waiting batches s' evs Heq Hagree Hwaiting.
  - simpl. intros [= _ <-]. symmetry in Heq. apply app_eq_nil in Heq.
    destruct Heq as [_ ->]. auto.
  - cbn [process_files gen_next].
    assert (Hbatches : forall f, In f (concat batches) -> lookup s_cur f = lookup s f).
    { intros f Hf. apply Hagree. rewrite Heq. apply in_or_app. auto. }
    pose proof (resume_aligned Rank nlp s s_cur limit batches waiting Hbatches) as Hres.
    pose proof (resume_reads s_cur limit batches
                             (map (file_phrases Rank nlp s limit) waiting)) as Hreads.
    destruct (resume Rank nlp s_cur limit (map (file_phrases Rank nlp s limit) waiting)
                     batches) as [evs0 [phrases g'| |e]].
    + destruct Hres as (f & waiting' & batches' & Heq' & -> & -> & Hsub & Hfiles).
      destruct Hreads as (r & -> & Hcat). simpl gen_files in Hcat.
      rewrite <- Heq in Heq'. injection Heq' as <- Hrest.
      specialize (Hfiles Hwaiting). inversion Hfiles as [|? ? Hfile Hwaiting']; subst.
      assert (Hagree' : forall f, In f (waiting' ++ concat batches') ->
                                  lookup s_cur f = lookup s f
                                  /\ is_prefix output_path f = false)
        by (intros f Hf; apply Hagree; now right).
      destruct (projections_of_reads r) as (Hr1 & Hr2 & Hr3).
      cbn [flat_map warnings_from]. unfold written_for at 1, warning_for at 1.
      set (dest := curr_output_path false output_path file_path).
      destruct (file_phrases Rank nlp s limit file_path) as [|phrase phrases] eqn:Hp.
      * destruct (process_files Rank nlp csv_text s_cur false output_path limit
                                (waiting' ++ concat batches') _) as [[s1 evs1] o1] eqn:Hrun.
        intros [= _ <- ->].
        destruct (IH s_cur waiting' batches' s1 evs1 eq_refl Hagree' Hwaiting' Hrun)
          as (IH1 & IH2 & IH3).
        rewrite reads_of_app, writes_of_app, warnings_of_app, Hr1, Hr2, Hr3, Hcat.
        unfold reads_of, writes_of, warnings_of in *. simpl.
        rewrite IH1, IH2, IH3. auto.
      * destruct (open_write s_cur dest (csv_text (phrase :: phrases))) as [s1|e] eqn:Hw;
          [|discriminate].
        apply open_write_writes_below in Hw. destruct Hw as [_ ->].
        destruct (process_files Rank nlp csv_text _ false output_path limit
                                (waiting' ++ concat batches') _) as [[s2 evs2] o2] eqn:Hrun.
        intros [= _ <- ->].
        assert (Hagree'' : forall f, In f (waiting' ++ concat batches') ->
                                     lookup (put s_cur dest (File (csv_text (phrase :: phrases)))) f
                                     = lookup s f
                                     /\ is_prefix output_path f = false).
        { intros f Hf. destruct (Hagree' f Hf) as [Hl Hout].
          split; [|exact Hout]. rewrite lookup_put_other; [exact Hl|].
          intros ->. subst dest. now rewrite curr_output_path_below in Hout. }
        destruct (IH _ waiting' batches' s2 evs2 eq_refl Hagree'' Hwaiting' Hrun)
          as (IH1 & IH2 & IH3).
        rewrite reads_of_app, writes_of_app, warnings_of_app, Hr1, Hr2, Hr3, Hcat.
        rewrite reads_of_app, writes_of_app, warnings_of_app.
        unfold write_phrases.
        unfold reads_of, writes_of, warnings_of in *. simpl.
        rewrite IH1, IH2, IH3.
        destruct (is_file s_cur dest); simpl; auto.
    + intros _. exfalso. rewrite <- Heq in Hres. discriminate.
    + discriminate.
Qed.

Lemma warnings_from_initial (s : fs) (limit : option Z) (output_path : path)
      (input_files : list path) :
  NoDup input_files ->
  (forall f1 f2, In f1 input_files -> In f2 input_files ->
                 curr_output_path false output_path f1
                 = curr_output_path false output_path f2 -> f1 = f2) ->
  forall st,
    (forall f, In f input_files ->
               is_file st (curr_output_path false output_path f)
               = is_file s (curr_output_path false output_path f)) ->
    warnings_from nlp csv_text s limit output_path st input_files
    = flat_map (warning_for nlp s limit output_path s) input_files.
Proof.
  induction input_files as [|file_path rest IH]; intros Hnodup Hinj st Hst.
  - reflexivity.
  - inversion Hnodup as [|? ? Hnotin Hnodup']; subst.
    cbn [warnings_from flat_map]. f_equal.
    + unfold warning_for. now rewrite Hst by now left.
    + apply IH; [exact Hnodup'|intros f1 f2 H1 H2; apply Hinj; now right|].
      intros f Hf. rewrite <- Hst by now right.
      unfold write_phrases.
      destruct (file_phrases Rank nlp s limit file_path); [reflexivity|].
      unfold is_file. rewrite lookup_put_other; [reflexivity|].
      intros E. apply Hnotin. replace file_path with f; [exact Hf|].
      apply Hinj; [now right|now left|exact E].
Qed.

Lemma directory_trace (s s' : fs) (input_path output_path : path) (sfx : string)
      (limit batch_size : option Z) (listing : list path) (evs : list event) (w : bool) :
  iterdir s input_path = Ok listing ->
  separated input_path output_path = true ->
  batch_size = None \/ (exists b, batch_size = Some b /\ 0 < b) ->
  own_files Rank nlp csv_text s input_path output_path sfx limit batch_size
  = ((s', evs, Done), w) ->
  reads_of evs = matching_suffix sfx listing
  /\ writes_of evs
     = flat_map (written_for nlp csv_text s limit output_path) (matching_suffix sfx listing)
  /\ (NoDup listing ->
      warnings_of evs
      = flat_map (warning_for nlp s limit output_path s) (matching_suffix sfx listing)).
Proof.
  intros Hit Hsep Hsize Hown.
  assert (Hfile : is_file s input_path = false).
  { apply iterdir_listing in Hit. destruct Hit as [_ H]. unfold is_dir, is_file in *.
    destruct (lookup s input_path) as [[c|]|]; congruence. }
  unfold own_files, select_inputs in Hown. rewrite Hfile, Hit in Hown.
  destruct (mkdir s output_path) as [s0|e] eqn:Hmk; [|discriminate].
  pose proof (iterdir_listing _ _ _ Hit) as [-> _].
  set (files := matching_suffix sfx (children s input_path)) in *.
  injection Hown as Hrun _.
  assert (Hwarn : NoDup (children s input_path) ->
                  warnings_from nlp csv_text s limit output_path s0 files
                  = flat_map (warning_for nlp s limit output_path s) files).
  { intros Hnodup. apply warnings_from_initial.
    - unfold files, matching_suffix. now apply NoDup_filter.
    - intros f1 f2. apply (destinations_differ s input_path output_path sfx).
    - intros f _. eapply mkdir_files; exact Hmk. }
  destruct files as [|file rest] eqn:Hfiles.
  - simpl in Hrun. injection Hrun as _ <-. auto.
  - rewrite <- Hfiles in *.
    assert (Hpos : 0 < effective_batch_size files batch_size).
    { destruct Hsize as [->|(b & -> & Hb)]; [|exact Hb]. rewrite Hfiles. simpl. lia. }
    destruct (batch_files_positive files _ Hpos) as (batches & Hb & Hcat & _).
    rewrite (process_files_started _ _ _ _ _ _ _ _ _ _ _ Hb) in Hrun.
    destruct (process_files_trace s output_path limit files s0 [] batches s' evs)
      as (H1 & H2 & H3); auto.
    + intros f Hf. unfold files, matching_suffix in Hf. apply filter_In in Hf.
      destruct Hf as [Hf _]. apply child_listed in Hf. destruct Hf as [_ Hf].
      assert (Hin : is_prefix input_path f = true) by (rewrite Hf; apply is_prefix_app).
      pose proof (separated_below _ _ _ Hsep Hin) as Hout. split; [|exact Hout].
      apply mkdir_writes_below in Hmk. eapply writes_below_outside; eassumption.
    + rewrite H1, H2, H3, Hcat. split; [reflexivity|]. split; [reflexivity|].
      exact Hwarn.
Qed.

(** X19.  Under the conditions of X14, a run that ended normally opened
    each child with the suffix once, in listing order, and made one write
    for each of them that has phrases, in listing order, of the text of
    its phrases to its output file, and no other write. *)
Theorem directory_run_reads_and_writes_in_listing_order
        (fuel : nat) (s s' : fs) (input_path output_path : path) (sfx : string)
        (limit batch_size : option Z) (listing : list path) (evs : list event) :
  iterdir s input_path = Ok listing ->
  separated input_path output_path = true ->
  batch_size = None \/ (exists b, batch_size = Some b /\ 0 < b) ->
  text_rank Rank nlp csv_text (S fuel) s input_path output_path false sfx
            limit batch_size = (s', evs, Done) ->
  reads_of evs = matching_suffix sfx listing
  /\ writes_of evs
     = flat_map (written_for nlp csv_text s limit output_path) (matching_suffix sfx listing).
Proof.
  intros Hit Hsep Hsize Hrun.
  destruct (own_files Rank nlp csv_text s input_path output_path sfx limit batch_size)
    as [[[s1 evs1] o1] w] eqn:Hown.
  destruct (text_rank_after_own_files Rank nlp csv_text fuel s input_path output_path
              false sfx limit batch_size s1 evs1 o1 w Hown) as [Hstop _].
  rewrite Hstop in Hrun by auto. injection Hrun as -> -> ->.
  destruct (directory_trace _ _ _ _ _ _ _ _ _ _ Hit Hsep Hsize Hown) as (H1 & H2 & _).
  auto.
Qed.

(** X20.  Under the conditions of X14 and a listing without repetition,
    the warnings of a run that ended normally are, in listing order: for
    each child with the suffix that has no phrase, the warning that no
    phrase was found; for each one that has phrases and whose output file
    was a file before the run, the warning that the file exists; and no
    other. *)
Theorem directory_run_warnings
        (fuel : nat) (s s' : fs) (input_path output_path : path) (sfx : string)
        (limit batch_size : option Z) (listing : list path) (evs : list event) :
  iterdir s input_path = Ok listing ->
  separated input_path output_path = true ->
  batch_size = None \/ (exists b, batch_size = Some b /\ 0 < b) ->
  NoDup listing ->
  text_rank Rank nlp csv_text (S fuel) s input_path output_path false sfx
            limit batch_size = (s', evs, Done) ->
  warnings_of evs
  = flat_map (warning_for nlp s limit output_path s) (matching_suffix sfx listing).
Proof.
  intros Hit Hsep Hsize Hnodup Hrun.
  destruct (own_files Rank nlp csv_text s input_path output_path sfx limit batch_size)
    as [[[s1 evs1] o1] w] eqn:Hown.
  destruct (text_rank_after_own_files Rank nlp csv_text fuel s input_path output_path
              false sfx limit batch_size s1 evs1 o1 w Hown) as [Hstop _].
  rewrite Hstop in Hrun by auto. injection Hrun as -> -> ->.
  destruct (directory_trace _ _ _ _ _ _ _ _ _ _ Hit Hsep Hsize Hown) as (_ & _ & H3).
  auto.
Qed.

End DirectoryEvents.

Lemma directory_run_reads_and_writes_in_listing_order_witness :
  iterdir Sample.docs ["docs"%string] = Ok (children Sample.docs ["docs"%string])
  /\ separated ["docs"%string] ["out"%string] = true
  /\ (Some 1 = None \/ (exists b, Some 1 = Some b /\ 0 < b))
  /\ text_rank unit Sample.letters Sample.csv 1 Sample.docs ["docs"%string] ["out"%string]
               false ".txt" None (Some 1)
     = (fst (fst (fst Sample.own_run)),
        [EvRead ["docs"; "a.txt"]%string;
         EvWrite ["out"; "a.csv"]%string "a,b";
         EvRead ["docs"; "b.txt"]%string;
         EvWarn "No phrases found in file: out, skipping"],
        Done)
  /\ reads_of [EvRead ["docs"; "a.txt"]%string;
               EvWrite ["out"; "a.csv"]%string "a,b";
               EvRead ["docs"; "b.txt"]%string;
               EvWarn "No phrases found in file: out, skipping"]
     = matching_suffix ".txt" (children Sample.docs ["docs"%string])
  /\ writes_of [EvRead ["docs"; "a.txt"]%string;
                EvWrite ["out"; "a.csv"]%string "a,b";
                EvRead ["docs"; "b.txt"]%string;
                EvWarn "No phrases found in file: out, skipping"]
     = flat_map (written_for Sample.letters Sample.csv Sample.docs None ["out"%string])
                (matching_suffix ".txt" (children Sample.docs ["docs"%string])).
Proof.
  assert (H1 : iterdir Sample.docs ["docs"%string]
               = Ok (children Sample.docs ["docs"%string])) by reflexivity.
  assert (H2 : separated ["docs"%string] ["out"%string] = true) by reflexivity.
  assert (H3 : Some 1 = None \/ (exists b, Some 1 = Some b /\ 0 < b))
    by (right; exists 1; split; [reflexivity|lia]).
  assert (H4 : text_rank unit Sample.letters Sample.csv 1 Sample.docs
                         ["docs"%string] ["out"%string] false ".txt" None (Some 1)
               = (fst (fst (fst Sample.own_run)),
                  [EvRead ["docs"; "a.txt"]%string;
                   EvWrite ["out"; "a.csv"]%string "a,b";
                   EvRead ["docs"; "b.txt"]%string;
                   EvWarn "No phrases found in file: out, skipping"],
                  Done)) by reflexivity.
  split; [exact H1|]. split; [exact H2|]. split; [exact H3|]. split; [exact H4|].
  exact (directory_run_reads_and_writes_in_listing_order
           unit Sample.letters Sample.csv 0 Sample.docs _ ["docs"%string] ["out"%string]
           ".txt" None (Some 1) _ _ H1 H2 H3 H4).
Defined.

(** A second run over [docs], on the file system the first one left:
    [out/a.csv] is there already. *)
Lemma directory_run_warnings_witness :
  iterdir (fst (fst (fst Sample.own_run))) ["docs"%string]
  = Ok (children (fst (fst (fst Sample.own_run))) ["docs"%string])
  /\ separated ["docs"%string] ["out"%string] = true
  /\ (@None Z = None \/ (exists b, None = Some b /\ 0 < b))
  /\ NoDup (children (fst (fst (fst Sample.own_run))) ["docs"%string])
  /\ text_rank unit Sample.letters Sample.csv 1 (fst (fst (fst Sample.own_run)))
               ["docs"%string] ["out"%string] false ".txt" None None
     = (fst (fst (fst Sample.own_run)),
        [EvRead ["docs"; "a.txt"]%string;
         EvRead ["docs"; "b.txt"]%string;
         EvWarn "File out already exists, skipping";
         EvWrite ["out"; "a.csv"]%string "a,b";
         EvWarn "No phrases found in file: out, skipping"],
        Done)
  /\ warnings_of [EvRead ["docs"; "a.txt"]%string;
                  EvRead ["docs"; "b.txt"]%string;
                  EvWarn "File out already exists, skipping";
                  EvWrite ["out"; "a.csv"]%string "a,b";
                  EvWarn "No phrases found in file: out, skipping"]
     = flat_map (warning_for Sample.letters (fst (fst (fst Sample.own_run))) None
                             ["out"%string] (fst (fst (fst Sample.own_run))))
                (matching_suffix ".txt"
                   (children (fst (fst (fst Sample.own_run))) ["docs"%string])).
Proof.
  assert (H1 : iterdir (fst (fst (fst Sample.own_run))) ["docs"%string]
               = Ok (children (fst (fst (fst Sample.own_run))) ["docs"%string]))
    by reflexivity.
  assert (H2 : separated ["docs"%string] ["out"%string] = true) by reflexivity.
  assert (H3 : @None Z = None \/ (exists b, None = Some b /\ 0 < b)) by (left; reflexivity).
  assert (H4 : NoDup (children (fst (fst (fst Sample.own_run))) ["docs"%string])).
  { vm_compute. repeat constructor; simpl; intuition discriminate. }
  assert (H5 : text_rank unit Sample.letters Sample.csv 1 (fst (fst (fst Sample.own_run)))
                         ["docs"%string] ["out"%string] false ".txt" None None
               = (fst (fst (fst Sample.own_run)),
                  [EvRead ["docs"; "a.txt"]%string;
                   EvRead ["docs"; "b.txt"]%string;
                   EvWarn "File out already exists, skipping";
                   EvWrite ["out"; "a.csv"]%string "a,b";
                   EvWarn "No phrases found in file: out, skipping"],
                  Done)) by reflexivity.
  split; [exact H1|]. split; [exact H2|]. split; [exact H3|]. split; [exact H4|].
  split; [exact H5|].
  exact (directory_run_warnings
           unit Sample.letters Sample.csv 0 (fst (fst (fst Sample.own_run))) _
           ["docs"%string] ["out"%string] ".txt" None None _ _ H1 H2 H3 H4 H5).
Defined.
